(** * TinyExpr: expression parser, evaluator and constant folder

    A shallow embedding of [tinyexpr.c]: the lexer ([next_token]), the
    recursive-descent parser ([list_], [expr], [term], [factor], [power],
    [base], [parse_postfix]), the evaluator ([te_eval]), the constant
    folder ([optimize]) and the entry point ([te_compile]), followed by
    the properties the specification states about them. *)

From Stdlib Require Import ZArith List Bool Ascii String Lia.
From Stdlib Require Import Floats.SpecFloat.
Import ListNotations.
Open Scope Z_scope.

(** ** IEEE 754 binary64

    C's [double] is modelled by the Standard Library's [spec_float] at
    precision 53 and maximal exponent 1024.  There is a single NaN. *)

Module D.

Definition prec : Z := 53.
Definition emax : Z := 1024.

Definition double : Type := spec_float.

Definition valid (x : double) : bool := valid_binary prec emax x.

Definition NAN : double := S754_nan.
Definition INFINITY : double := S754_infinity false.

Definition is_nan (x : double) : bool :=
  match x with S754_nan => true | _ => false end.

Definition add : double -> double -> double := SFadd prec emax.
Definition sub : double -> double -> double := SFsub prec emax.
Definition mul : double -> double -> double := SFmul prec emax.
Definition div : double -> double -> double := SFdiv prec emax.
Definition opp : double -> double := SFopp.
Definition eqb : double -> double -> bool := SFeqb.
Definition ltb : double -> double -> bool := SFltb.
Definition leb : double -> double -> bool := SFleb.
Definition gtb (x y : double) : bool := SFltb y x.
Definition geb (x y : double) : bool := SFleb y x.

(** Conversion of an integer to [double] (round to nearest, ties to
    even), as C does for [(double)n]. *)
Definition of_Z (n : Z) : double := binary_normalize prec emax n 0 false.

(** Truncation toward zero of a finite value; [None] on NaN and the
    infinities. *)
Definition trunc (x : double) : option Z :=
  match x with
  | S754_zero _ => Some 0
  | S754_finite s m e =>
      let a := if 0 <=? e then Z.pos m * 2 ^ e else Z.pos m / 2 ^ (- e) in
      Some (if s then - a else a)
  | _ => None
  end.

Definition INT_MIN : Z := - 2 ^ 31.
Definition INT_MAX : Z := 2 ^ 31 - 1.
Definition UINT_MAX : Z := 2 ^ 32 - 1.
Definition INT64_MIN : Z := - 2 ^ 63.
Definition INT64_MAX : Z := 2 ^ 63 - 1.
Definition ULONG_MAX : Z := 2 ^ 64 - 1.

(** [(int)x].  ISO C defines the cast only when the truncated value
    fits; outside that range the model follows the x86-64 conversion
    instruction, which yields [INT_MIN]. *)
Definition to_int (x : double) : Z :=
  match trunc x with
  | Some z => if (INT_MIN <=? z) && (z <=? INT_MAX) then z else INT_MIN
  | None => INT_MIN
  end.

(** [(int64_t)x], with the same convention. *)
Definition to_int64 (x : double) : Z :=
  match trunc x with
  | Some z => if (INT64_MIN <=? z) && (z <=? INT64_MAX) then z else INT64_MIN
  | None => INT64_MIN
  end.

(** [(unsigned int)x]: the low 32 bits of the 64-bit conversion. *)
Definition to_uint (x : double) : Z := (to_int64 x) mod 2 ^ 32.

(** Magnitude of C's [round]: nearest integer to [m * 2^e], halfway
    cases away from zero. *)
Definition round_mag (m : positive) (e : Z) : Z :=
  if 0 <=? e then Z.pos m * 2 ^ e
  else (Z.pos m + 2 ^ (- e - 1)) / 2 ^ (- e).

(** The integer C's [round] denotes; [None] on NaN and the infinities. *)
Definition round_Z (x : double) : option Z :=
  match x with
  | S754_zero _ => Some 0
  | S754_finite s m e => Some (if s then - round_mag m e else round_mag m e)
  | _ => None
  end.

(** libm's [round] as a function on doubles.  A value with a
    non-negative exponent is already an integer. *)
Definition round (x : double) : double :=
  match x with
  | S754_finite s m e =>
      if 0 <=? e then x
      else
        let n := round_mag m e in
        if n =? 0 then S754_zero s
        else if s then SFopp (of_Z n) else of_Z n
  | _ => x
  end.

(** libm's [floor] and [ceil]. *)
Definition floor (x : double) : double :=
  match x with
  | S754_finite s m e =>
      if 0 <=? e then x
      else
        let q := Z.pos m / 2 ^ (- e) in
        let exact := Z.pos m mod 2 ^ (- e) =? 0 in
        if s then SFopp (of_Z (if exact then q else q + 1))
        else if q =? 0 then S754_zero false else of_Z q
  | _ => x
  end.

Definition ceil (x : double) : double := SFopp (floor (SFopp x)).

Definition fabs : double -> double := SFabs.
Definition sqrt : double -> double := SFsqrt prec emax.

End D.

(** ** Type codes and their macros

    Modelled from the spec: [tinyexpr.h] is not among the sources.  Its
    enumeration is fixed by the source's own uses: [TYPE_MASK] keeps
    five bits, [ARITY] keeps three, [TOK_NULL] is [TE_CLOSURE7 + 1],
    and [TE_ARRAY] is a code that is neither a function nor a closure
    code and differs from [TE_VARIABLE] and [TE_CONSTANT]. *)

Definition TE_VARIABLE : Z := 0.
Definition TE_CONSTANT : Z := 1.
Definition TE_ARRAY : Z := 2.
Definition TE_FUNCTION0 : Z := 8.
Definition TE_CLOSURE0 : Z := 16.
Definition TE_FLAG_PURE : Z := 32.

Definition TE_FUNCTION (k : Z) : Z := TE_FUNCTION0 + k.
Definition TE_CLOSURE (k : Z) : Z := TE_CLOSURE0 + k.

Definition TOK_NULL : Z := TE_CLOSURE 7 + 1.
Definition TOK_ERROR : Z := TOK_NULL + 1.
Definition TOK_END : Z := TOK_NULL + 2.
Definition TOK_SEP : Z := TOK_NULL + 3.
Definition TOK_OPEN : Z := TOK_NULL + 4.
Definition TOK_CLOSE : Z := TOK_NULL + 5.
Definition TOK_NUMBER : Z := TOK_NULL + 6.
Definition TOK_VARIABLE : Z := TOK_NULL + 7.
Definition TOK_INFIX : Z := TOK_NULL + 8.
Definition TOK_OPEN_BRACKET : Z := TOK_NULL + 9.
Definition TOK_CLOSE_BRACKET : Z := TOK_NULL + 10.

Definition TYPE_MASK (t : Z) : Z := Z.land t 31.
Definition IS_PURE (t : Z) : bool := negb (Z.land t TE_FLAG_PURE =? 0).
Definition IS_FUNCTION (t : Z) : bool := negb (Z.land t TE_FUNCTION0 =? 0).
Definition IS_CLOSURE (t : Z) : bool := negb (Z.land t TE_CLOSURE0 =? 0).
Definition ARITY (t : Z) : Z :=
  if negb (Z.land t (Z.lor TE_FUNCTION0 TE_CLOSURE0) =? 0) then Z.land t 7
  else if t =? TE_ARRAY then 1 else 0.

(** ** Callables

    A function pointer is either the address of one of the file's own
    static functions, of a libm function, or of a callable the caller
    registered in the symbol table. *)

Inductive libm_fn : Set :=
  | m_fabs | m_acos | m_asin | m_atan | m_atan2 | m_ceil | m_cos | m_cosh
  | m_exp | m_floor | m_log | m_log10 | m_pow | m_sin | m_sinh | m_sqrt
  | m_tan | m_tanh | m_fmod.

Inductive fnptr : Set :=
  | p_null
  | p_add | p_sub | p_mul | p_divide | p_negate | p_comma
  | p_bitwise_and | p_bitwise_or
  | p_pi | p_e | p_fac | p_ncr | p_npr | p_fn_bit | p_fn_xor
  | p_te_sum | p_te_arrmin | p_te_arrmax | p_te_arrlen | p_te_lerp
  | p_libm (f : libm_fn)
  | p_host (addr : Z).

Definition libm_fn_eqb (a b : libm_fn) : bool :=
  match a, b with
  | m_fabs, m_fabs | m_acos, m_acos | m_asin, m_asin | m_atan, m_atan
  | m_atan2, m_atan2 | m_ceil, m_ceil | m_cos, m_cos | m_cosh, m_cosh
  | m_exp, m_exp | m_floor, m_floor | m_log, m_log | m_log10, m_log10
  | m_pow, m_pow | m_sin, m_sin | m_sinh, m_sinh | m_sqrt, m_sqrt
  | m_tan, m_tan | m_tanh, m_tanh | m_fmod, m_fmod => true
  | _, _ => false
  end.

Definition fnptr_eqb (a b : fnptr) : bool :=
  match a, b with
  | p_null, p_null | p_add, p_add | p_sub, p_sub | p_mul, p_mul
  | p_divide, p_divide | p_negate, p_negate | p_comma, p_comma
  | p_bitwise_and, p_bitwise_and | p_bitwise_or, p_bitwise_or
  | p_pi, p_pi | p_e, p_e | p_fac, p_fac | p_ncr, p_ncr | p_npr, p_npr
  | p_fn_bit, p_fn_bit | p_fn_xor, p_fn_xor | p_te_sum, p_te_sum
  | p_te_arrmin, p_te_arrmin | p_te_arrmax, p_te_arrmax
  | p_te_arrlen, p_te_arrlen | p_te_lerp, p_te_lerp => true
  | p_libm f, p_libm g => libm_fn_eqb f g
  | p_host x, p_host y => x =? y
  | _, _ => false
  end.

(** ** The host

    Everything the engine borrows from its caller and from the C
    library: the memory the bound pointers point into (addresses count
    [double] cells, so [arr[i]] is the cell at [arr + i]), the callables
    registered in the symbol table, which may read and change the
    caller's state, the transcendental part of libm, and [strtod], which
    returns the value read and the number of characters consumed. *)

Record host : Type := Host {
  world : Type;
  load : world -> Z -> D.double;
  call : Z -> option Z -> list D.double -> world -> D.double * world;
  libm : libm_fn -> list D.double -> D.double;
  strtod : string -> D.double * nat
}.

(** ** Nodes

    [te_expr] of the header: a type code, the union of [value], [bound]
    and [function], and the children.  A child slot past the end of
    [parameters] is a null pointer.  The context of a closure, which C
    stores in the slot after the last child, is the field [context]. *)

Inductive payload : Type :=
  | Value (d : D.double)
  | Bound (p : Z)
  | Function (f : fnptr).

#[local] Unset Elimination Schemes.
Inductive te_expr : Type :=
  mk_expr { type : Z; u : payload; parameters : list te_expr; context : Z }.
#[local] Set Elimination Schemes.

(** Reading a member of the union.  The parser stores [value] in
    constants, [bound] in variables and array lookups, [function] in
    calls; the other readings are of a zeroed union. *)
Definition value_of (p : payload) : D.double :=
  match p with Value d => d | _ => D.NAN end.
Definition bound_of (p : payload) : Z :=
  match p with Bound a => a | _ => 0 end.
Definition function_of (p : payload) : fnptr :=
  match p with Function f => f | _ => p_null end.

Definition value (n : te_expr) : D.double := value_of (u n).
Definition bound (n : te_expr) : Z := bound_of (u n).
Definition function (n : te_expr) : fnptr := function_of (u n).

Definition new_expr (ty : Z) (params : list te_expr) : te_expr :=
  mk_expr ty (Bound 0) (firstn (Z.to_nat (ARITY ty)) params) 0.

(** ** The static functions of [tinyexpr.c] *)

(** 3.14159265358979323846 and 2.71828182845904523536 as binary64. *)
Definition pi : D.double := S754_finite false 7074237752028440 (-51).
Definition e : D.double := S754_finite false 6121026514868073 (-51).

Fixpoint fac_loop (cnt : nat) (i result : Z) : D.double :=
  match cnt with
  | O => D.of_Z result
  | S k =>
      if i >? D.ULONG_MAX / result then D.INFINITY
      else fac_loop k (i + 1) ((result * i) mod 2 ^ 64)
  end.

Definition fac (a : D.double) : D.double :=
  if D.ltb a (D.of_Z 0) then D.NAN
  else if D.gtb a (D.of_Z D.UINT_MAX) then D.INFINITY
  else fac_loop (Z.to_nat (D.to_uint a)) 1 1.

Fixpoint ncr_loop (cnt : nat) (un ur i result : Z) : D.double :=
  match cnt with
  | O => D.of_Z result
  | S k =>
      if result >? D.ULONG_MAX / (un - ur + i) then D.INFINITY
      else ncr_loop k un ur (i + 1) (((result * (un - ur + i)) mod 2 ^ 64) / i)
  end.

Definition ncr (n r : D.double) : D.double :=
  if D.ltb n (D.of_Z 0) || D.ltb r (D.of_Z 0) || D.ltb n r then D.NAN
  else if D.gtb n (D.of_Z D.UINT_MAX) || D.gtb r (D.of_Z D.UINT_MAX)
  then D.INFINITY
  else
    let un := D.to_uint n in
    let ur := D.to_uint r in
    let ur := if ur >? un / 2 then un - ur else ur in
    ncr_loop (Z.to_nat ur) un ur 1 1.

Definition npr (n r : D.double) : D.double := D.mul (ncr n r) (fac r).

Definition MAX_BITWISE_WIDTH : Z := 53.
Definition MAX_BITWISE_VALUE : Z := Z.shiftl 1 MAX_BITWISE_WIDTH - 1.

Definition is_valid_bitwise_operand (x : D.double) : bool :=
  if D.ltb x (D.of_Z 0) then false
  else
    let rounded := D.round x in
    D.leb rounded (D.of_Z MAX_BITWISE_VALUE).

Definition fn_bit (n i : D.double) : D.double :=
  if D.ltb n (D.of_Z 0) || D.ltb i (D.of_Z 0) then D.NAN
  else
    let iv := D.to_int64 (D.round n) in
    let bi := D.to_int64 (D.round i) in
    if (iv >? Z.shiftl 1 53 - 1) || (bi >=? 53) then D.NAN
    else if negb (Z.land iv (Z.shiftl 1 bi) =? 0) then D.of_Z 1 else D.of_Z 0.

Definition fn_xor (a b : D.double) : D.double :=
  if negb (is_valid_bitwise_operand a) || negb (is_valid_bitwise_operand b)
  then D.NAN
  else D.of_Z (Z.lxor (D.to_int64 (D.round a)) (D.to_int64 (D.round b))).

Definition add (a b : D.double) : D.double := D.add a b.
Definition sub (a b : D.double) : D.double := D.sub a b.
Definition mul (a b : D.double) : D.double := D.mul a b.
Definition divide (a b : D.double) : D.double := D.div a b.
Definition negate (a : D.double) : D.double := D.opp a.
Definition comma (a b : D.double) : D.double := b.

Definition bitwise_and (a b : D.double) : D.double :=
  if negb (is_valid_bitwise_operand a) || negb (is_valid_bitwise_operand b)
  then D.NAN
  else
    let ia := D.to_int64 (D.round a) in
    let ib := D.to_int64 (D.round b) in
    D.of_Z (Z.land ia ib).

Definition bitwise_or (a b : D.double) : D.double :=
  if negb (is_valid_bitwise_operand a) || negb (is_valid_bitwise_operand b)
  then D.NAN
  else
    let ia := D.to_int64 (D.round a) in
    let ib := D.to_int64 (D.round b) in
    D.of_Z (Z.lor ia ib).

(** *** Array aggregates: [arr[0]] is the length, [arr[1..length]] the data *)

Section Arrays.

Variable mem : Z -> D.double.

Fixpoint te_sum_loop (cnt : nat) (arr i : Z) (s : D.double) : D.double :=
  match cnt with
  | O => s
  | S k => te_sum_loop k arr (i + 1) (D.add s (mem (arr + i)))
  end.

Definition te_sum (arr : Z) : D.double :=
  let len := D.to_int (mem arr) in
  te_sum_loop (Z.to_nat len) arr 1 (D.of_Z 0).

Fixpoint te_arrmin_loop (cnt : nat) (arr i : Z) (m : D.double) : D.double :=
  match cnt with
  | O => m
  | S k =>
      te_arrmin_loop k arr (i + 1)
        (if D.ltb (mem (arr + i)) m then mem (arr + i) else m)
  end.

Definition te_arrmin (arr : Z) : D.double :=
  let len := D.to_int (mem arr) in
  if len <? 1 then D.NAN
  else te_arrmin_loop (Z.to_nat (len - 1)) arr 2 (mem (arr + 1)).

Fixpoint te_arrmax_loop (cnt : nat) (arr i : Z) (m : D.double) : D.double :=
  match cnt with
  | O => m
  | S k =>
      te_arrmax_loop k arr (i + 1)
        (if D.gtb (mem (arr + i)) m then mem (arr + i) else m)
  end.

Definition te_arrmax (arr : Z) : D.double :=
  let len := D.to_int (mem arr) in
  if len <? 1 then D.NAN
  else te_arrmax_loop (Z.to_nat (len - 1)) arr 2 (mem (arr + 1)).

Definition te_arrlen (arr : Z) : D.double := mem arr.

Fixpoint te_lerp_loop (cnt : nat) (d r i : Z) (ascending : bool)
    (x : D.double) : D.double :=
  match cnt with
  | O => D.NAN
  | S k =>
      let d0 := mem (d + i) in
      let d1 := mem (d + i + 1) in
      let r0 := mem (r + i) in
      let r1 := mem (r + i + 1) in
      let in_range :=
        if ascending then D.geb x d0 && D.leb x d1
        else D.leb x d0 && D.geb x d1 in
      if in_range then
        if D.eqb d1 d0 then D.div (D.add r0 r1) (D.of_Z 2)
        else
          let t := D.div (D.sub x d0) (D.sub d1 d0) in
          D.add r0 (D.mul t (D.sub r1 r0))
      else te_lerp_loop k d r (i + 1) ascending x
  end.

Definition te_lerp (domain range : Z) (x : D.double) : D.double :=
  let n := D.to_int (mem domain) in
  if negb (D.to_int (mem range) =? n) || (n <? 2) then D.NAN
  else
    let d := domain + 1 in
    let r := range + 1 in
    let ascending := D.gtb (mem (d + (n - 1))) (mem (d + 0)) in
    te_lerp_loop (Z.to_nat (n - 1)) d r 0 ascending x.

End Arrays.

(** ** Evaluation *)

Section Eval.

Variable h : host.

Definition apply_libm (f : libm_fn) (args : list D.double) : D.double :=
  match f, args with
  | m_fabs, [a] => D.fabs a
  | m_ceil, [a] => D.ceil a
  | m_floor, [a] => D.floor a
  | m_sqrt, [a] => D.sqrt a
  | _, _ => libm h f args
  end.

(** The call [TE_FUN(...)(M(0), ..., M(k-1))] through the pointer stored
    in a function node, and through the pointer and context stored in a
    closure node.  The parser pairs each static function with the type
    code of its own signature; the remaining pairings cast a pointer to
    a signature the function does not have and are given NaN here.  The
    array aggregates are never reached through this path by a node of
    their declared type. *)
Definition apply_fn (f : fnptr) (ctx : option Z) (args : list D.double)
    (w : world h) : D.double * world h :=
  match ctx, f, args with
  | _, p_host a, _ => call h a ctx args w
  | None, p_add, [a; b] => (add a b, w)
  | None, p_sub, [a; b] => (sub a b, w)
  | None, p_mul, [a; b] => (mul a b, w)
  | None, p_divide, [a; b] => (divide a b, w)
  | None, p_negate, [a] => (negate a, w)
  | None, p_comma, [a; b] => (comma a b, w)
  | None, p_bitwise_and, [a; b] => (bitwise_and a b, w)
  | None, p_bitwise_or, [a; b] => (bitwise_or a b, w)
  | None, p_pi, [] => (pi, w)
  | None, p_e, [] => (e, w)
  | None, p_fac, [a] => (fac a, w)
  | None, p_ncr, [a; b] => (ncr a b, w)
  | None, p_npr, [a; b] => (npr a b, w)
  | None, p_fn_bit, [a; b] => (fn_bit a b, w)
  | None, p_fn_xor, [a; b] => (fn_xor a b, w)
  | None, p_libm m, _ => (apply_libm m args, w)
  | _, _, _ => (D.NAN, w)
  end.

Definition is_array_fn1 (f : fnptr) : bool :=
  fnptr_eqb f p_te_sum || fnptr_eqb f p_te_arrlen
  || fnptr_eqb f p_te_arrmin || fnptr_eqb f p_te_arrmax.

Fixpoint te_eval (n : te_expr) (w : world h) {struct n}
    : D.double * world h :=
  match n with
  | mk_expr ty un ps cx =>
      (* M(0) ... M(k-1), left to right; a null child evaluates to NaN *)
      let fix eval_params (l : list te_expr) (k : nat) (w : world h)
          {struct l} : list D.double * world h :=
        match k with
        | O => ([], w)
        | S k' =>
            match l with
            | [] => (repeat D.NAN (S k'), w)
            | p :: l' =>
                let (d, w1) := te_eval p w in
                let (ds, w2) := eval_params l' k' w1 in
                (d :: ds, w2)
            end
        end in
      let generic (cx : option Z) :=
        let (args, w') := eval_params ps (Z.to_nat (ARITY ty)) w in
        apply_fn (function_of un) cx args w' in
      let m := TYPE_MASK ty in
      if m =? TE_CONSTANT then (value_of un, w)
      else if m =? TE_VARIABLE then (load h w (bound_of un), w)
      else if m =? TE_ARRAY then
        let arrv := bound_of un in
        let len := D.to_int (load h w arrv) in
        let (d, w') :=
          match ps with
          | p :: _ => te_eval p w
          | [] => (D.NAN, w)
          end in
        let idx := D.to_int d in
        if (idx <? 0) || (idx >=? len) then (D.NAN, w')
        else (load h w' (arrv + (idx + 1)), w')
      else if (m =? TE_FUNCTION 3) && fnptr_eqb (function_of un) p_te_lerp then
        match ps with
        | d :: r :: rest =>
            let (x, w') :=
              match rest with
              | p :: _ => te_eval p w
              | [] => (D.NAN, w)
              end in
            if (type d =? TE_VARIABLE) && (type r =? TE_VARIABLE)
            then (te_lerp (load h w') (bound d) (bound r) x, w')
            else (D.NAN, w')
        | _ => (D.NAN, w)
        end
      else if (m =? TE_FUNCTION 1) && is_array_fn1 (function_of un) then
        match ps with
        | arg :: _ =>
            if type arg =? TE_VARIABLE then
              let arrp := bound arg in
              if fnptr_eqb (function_of un) p_te_sum
              then (te_sum (load h w) arrp, w)
              else if fnptr_eqb (function_of un) p_te_arrmin
              then (te_arrmin (load h w) arrp, w)
              else if fnptr_eqb (function_of un) p_te_arrlen
              then (te_arrlen (load h w) arrp, w)
              else (te_arrmax (load h w) arrp, w)
            else (D.NAN, w)
        | [] => (D.NAN, w)
        end
      else if (TE_FUNCTION 0 <=? m) && (m <=? TE_FUNCTION 7) then generic None
      else if (TE_CLOSURE 0 <=? m) && (m <=? TE_CLOSURE 7) then generic (Some cx)
      else (D.NAN, w)
  end.

(** ** Constant folding *)

Definition fold_constant (n : te_expr) (v : D.double) : te_expr :=
  mk_expr TE_CONSTANT (Value v) [] (context n).

Fixpoint optimize (n : te_expr) (w : world h) {struct n}
    : te_expr * world h :=
  match n with
  | mk_expr ty un ps cx =>
      if ty =? TE_CONSTANT then (n, w)
      else if ty =? TE_VARIABLE then (n, w)
      else if IS_PURE ty then
        (* the loop over [parameters[0 .. arity-1]]; [known] stays 1
           while every child is a constant after its own pass *)
        let fix opt_params (l : list te_expr) (k : nat) (w : world h)
            {struct l} : list te_expr * bool * world h :=
          match k with
          | O => (l, true, w)
          | S k' =>
              match l with
              | [] => ([], false, w)
              | p :: l' =>
                  let (p', w1) := optimize p w in
                  let '(l'', known, w2) := opt_params l' k' w1 in
                  (p' :: l'', (type p' =? TE_CONSTANT) && known, w2)
              end
          end in
        let '(ps', known, w') := opt_params ps (Z.to_nat (ARITY ty)) w in
        let n' := mk_expr ty un ps' cx in
        if known then
          let (v, w'') := te_eval n' w' in
          (fold_constant n' v, w'')
        else (n', w')
      else (n, w)
  end.

End Eval.

(** ** Symbol tables *)

Open Scope string_scope.

(** An entry of the caller's table ([te_variable] of the header): for a
    variable [address] points to its [double] cells, for a function or
    a closure it is the address of the callable. *)
Record te_variable : Type := mk_var {
  name : string;
  address : Z;
  vtype : Z;
  vcontext : Z
}.

(** An entry of the built-in table; its address is one of the file's
    own functions or a libm function. *)
Record builtin : Type := mk_builtin {
  bname : string;
  baddress : fnptr;
  btype : Z
}.

Definition functions : list builtin :=
  let f1 := Z.lor (TE_FUNCTION 1) TE_FLAG_PURE in
  let f2 := Z.lor (TE_FUNCTION 2) TE_FLAG_PURE in
  [ mk_builtin "abs" (p_libm m_fabs) f1;
    mk_builtin "acos" (p_libm m_acos) f1;
    mk_builtin "arrlen" p_te_arrlen f1;
    mk_builtin "arrmax" p_te_arrmax f1;
    mk_builtin "arrmin" p_te_arrmin f1;
    mk_builtin "asin" (p_libm m_asin) f1;
    mk_builtin "atan" (p_libm m_atan) f1;
    mk_builtin "atan2" (p_libm m_atan2) f2;
    mk_builtin "bit" p_fn_bit f2;
    mk_builtin "ceil" (p_libm m_ceil) f1;
    mk_builtin "cos" (p_libm m_cos) f1;
    mk_builtin "cosh" (p_libm m_cosh) f1;
    mk_builtin "e" p_e (Z.lor (TE_FUNCTION 0) TE_FLAG_PURE);
    mk_builtin "exp" (p_libm m_exp) f1;
    mk_builtin "fac" p_fac f1;
    mk_builtin "floor" (p_libm m_floor) f1;
    mk_builtin "linear_interpolate" p_te_lerp
      (Z.lor (TE_FUNCTION 3) TE_FLAG_PURE);
    mk_builtin "ln" (p_libm m_log) f1;
    mk_builtin "log" (p_libm m_log10) f1;
    mk_builtin "log10" (p_libm m_log10) f1;
    mk_builtin "ncr" p_ncr f2;
    mk_builtin "npr" p_npr f2;
    mk_builtin "pi" p_pi (Z.lor (TE_FUNCTION 0) TE_FLAG_PURE);
    mk_builtin "pow" (p_libm m_pow) f2;
    mk_builtin "sin" (p_libm m_sin) f1;
    mk_builtin "sinh" (p_libm m_sinh) f1;
    mk_builtin "sqrt" (p_libm m_sqrt) f1;
    mk_builtin "sum" p_te_sum f1;
    mk_builtin "tan" (p_libm m_tan) f1;
    mk_builtin "tanh" (p_libm m_tanh) f1;
    mk_builtin "xor" p_fn_xor f2 ].

Close Scope string_scope.

(** *** C strings: a [string] is the characters before the terminator *)

Definition NUL : ascii := "000"%char.

Definition char_at (s : string) (i : nat) : ascii :=
  match String.get i s with Some c => c | None => NUL end.

Definition code (c : ascii) : Z := Z.of_N (N_of_ascii c).

Fixpoint drop (n : nat) (s : string) : string :=
  match n, s with
  | S k, String _ r => drop k r
  | _, _ => s
  end.

Fixpoint strncmp (a b : string) (n : nat) : Z :=
  match n with
  | O => 0
  | S k =>
      let ca := char_at a 0 in
      let cb := char_at b 0 in
      if negb (code ca =? code cb) then code ca - code cb
      else if code ca =? 0 then 0
      else strncmp (drop 1 a) (drop 1 b) k
  end.

Definition isdigit (c : ascii) : bool :=
  (code "0"%char <=? code c) && (code c <=? code "9"%char).

Definition isalpha (c : ascii) : bool :=
  ((code "a"%char <=? code c) && (code c <=? code "z"%char))
  || ((code "A"%char <=? code c) && (code c <=? code "Z"%char)).

(** The binary search of [find_builtin]; [fuel] bounds the number of
    halvings. *)
Fixpoint find_builtin_loop (fuel : nat) (nm : string) (len : nat)
    (imin imax : Z) : option builtin :=
  match fuel with
  | O => None
  | S k =>
      if imax >=? imin then
        let i := imin + (imax - imin) / 2 in
        match nth_error functions (Z.to_nat i) with
        | None => None
        | Some fi =>
            let c := strncmp nm (bname fi) len in
            let c := if c =? 0 then code NUL - code (char_at (bname fi) len)
                     else c in
            if c =? 0 then Some fi
            else if c >? 0 then find_builtin_loop k nm len (i + 1) imax
            else find_builtin_loop k nm len imin (i - 1)
        end
      else None
  end.

Definition find_builtin (nm : string) (len : nat) : option builtin :=
  find_builtin_loop (S (List.length functions)) nm len 0
    (Z.of_nat (List.length functions) - 1).

Fixpoint find_lookup (lookup : list te_variable) (nm : string) (len : nat)
    : option te_variable :=
  match lookup with
  | [] => None
  | var :: rest =>
      if (strncmp nm (name var) len =? 0)
         && (code (char_at (name var) len) =? 0)
      then Some var
      else find_lookup rest nm len
  end.

(** ** The lexer *)

(** [state] of the source.  [next] is the unread suffix of [start]; the
    offset [s->next - s->start] is the difference of their lengths. *)
Record state : Type := mk_state {
  start : string;
  next : string;
  stype : Z;
  su : payload;
  scontext : Z;
  lookup : list te_variable
}.

Definition set_type (s : state) (t : Z) : state :=
  mk_state (start s) (next s) t (su s) (scontext s) (lookup s).

Definition set_next (s : state) (nx : string) : state :=
  mk_state (start s) nx (stype s) (su s) (scontext s) (lookup s).

Definition set_token (s : state) (t : Z) (p : payload) : state :=
  mk_state (start s) (next s) t p (scontext s) (lookup s).

Definition set_context (s : state) (c : Z) : state :=
  mk_state (start s) (next s) (stype s) (su s) c (lookup s).

(** What an identifier resolved to: type code, address read as a data
    pointer, address read as a callable, and context. *)
Record symbol : Type := mk_symbol {
  sym_type : Z;
  sym_bound : Z;
  sym_function : fnptr;
  sym_context : Z
}.

Definition symbol_of_var (var : te_variable) : symbol :=
  mk_symbol (vtype var) (address var) (p_host (address var)) (vcontext var).

Definition symbol_of_builtin (b : builtin) : symbol :=
  mk_symbol (btype b) 0 (baddress b) 0.

Definition resolve (lk : list te_variable) (nm : string) (len : nat)
    : option symbol :=
  match find_lookup lk nm len with
  | Some var => Some (symbol_of_var var)
  | None =>
      match find_builtin nm len with
      | Some b => Some (symbol_of_builtin b)
      | None => None
      end
  end.

Fixpoint ident_len (s : string) : nat :=
  match s with
  | String c r =>
      if isalpha c || isdigit c || (code c =? code "_"%char)
      then S (ident_len r) else O
  | EmptyString => O
  end.

Definition infix_of (c : ascii) : option fnptr :=
  if code c =? code "+"%char then Some p_add
  else if code c =? code "-"%char then Some p_sub
  else if code c =? code "*"%char then Some p_mul
  else if code c =? code "/"%char then Some p_divide
  else if code c =? code "^"%char then Some (p_libm m_pow)
  else if code c =? code "%"%char then Some (p_libm m_fmod)
  else if code c =? code "&"%char then Some p_bitwise_and
  else if code c =? code "|"%char then Some p_bitwise_or
  else None.

Definition isspace4 (c : ascii) : bool :=
  (code c =? 32) || (code c =? 9) || (code c =? 10) || (code c =? 13).

Section Parser.

Variable h : host.

(** One pass of the body of the [do ... while] of [next_token]. *)
Definition next_token_step (s : state) : state :=
  let c := char_at (next s) 0 in
  if isdigit c || (code c =? code "."%char) then
    let (v, n) := strtod h (next s) in
    set_token (set_next s (drop n (next s))) TOK_NUMBER (Value v)
  else if isalpha c then
    let nm := next s in
    let len := ident_len nm in
    let s := set_next s (drop len nm) in
    match resolve (lookup s) nm len with
    | None => set_type s TOK_ERROR
    | Some var =>
        let m := TYPE_MASK (sym_type var) in
        if m =? TE_VARIABLE then
          set_token s TOK_VARIABLE (Bound (sym_bound var))
        else if (TE_CLOSURE 0 <=? m) && (m <=? TE_CLOSURE 7) then
          set_token (set_context s (sym_context var))
            (sym_type var) (Function (sym_function var))
        else if (TE_FUNCTION 0 <=? m) && (m <=? TE_FUNCTION 7) then
          set_token s (sym_type var) (Function (sym_function var))
        else s
    end
  else
    let s := set_next s (drop 1 (next s)) in
    match infix_of c with
    | Some f => set_token s TOK_INFIX (Function f)
    | None =>
        if code c =? code "("%char then set_type s TOK_OPEN
        else if code c =? code ")"%char then set_type s TOK_CLOSE
        else if code c =? code "["%char then set_type s TOK_OPEN_BRACKET
        else if code c =? code "]"%char then set_type s TOK_CLOSE_BRACKET
        else if code c =? code ","%char then set_type s TOK_SEP
        else if isspace4 c then s
        else set_type s TOK_ERROR
    end.

Fixpoint next_token_loop (fuel : nat) (s : state) : state :=
  match fuel with
  | O => s
  | S k =>
      if code (char_at (next s) 0) =? 0 then set_type s TOK_END
      else
        let s' := next_token_step s in
        if stype s' =? TOK_NULL then next_token_loop k s' else s'
  end.

(** Every pass that leaves [TOK_NULL] in place has consumed a
    character, so one pass more than the unread length is enough. *)
Definition next_token (s : state) : state :=
  next_token_loop (S (String.length (next s))) (set_type s TOK_NULL).

(** ** The parser

    A parsing function of the source takes the state by reference and
    returns a node or a null pointer.  Here it returns the node, if any,
    with the state it leaves, wrapped in an option that is [None] only
    when the recursion budget [fuel] is exhausted.  Allocation is taken
    never to fail. *)

Definition result : Type := option (option te_expr * state).

Definition with_value (n : te_expr) (v : D.double) : te_expr :=
  mk_expr (type n) (Value v) (parameters n) (context n).
Definition with_bound (n : te_expr) (p : Z) : te_expr :=
  mk_expr (type n) (Bound p) (parameters n) (context n).
Definition with_function (n : te_expr) (f : fnptr) : te_expr :=
  mk_expr (type n) (Function f) (parameters n) (context n).
Definition with_parameters (n : te_expr) (ps : list te_expr) : te_expr :=
  mk_expr (type n) (u n) ps (context n).
Definition with_context (n : te_expr) (c : Z) : te_expr :=
  mk_expr (type n) (u n) (parameters n) c.

(** [ret = new_expr(s->type, 0); ret->function = s->function;
    if (IS_CLOSURE(s->type)) ret->parameters[arity] = s->context;] *)
Definition call_node (s : state) : te_expr :=
  let ret := with_function (new_expr (stype s) []) (function_of (su s)) in
  if IS_CLOSURE (stype s) then with_context ret (scontext s) else ret.

(** [NEW_EXPR(TE_FUNCTION2 | TE_FLAG_PURE, a, b)] with its function set. *)
Definition binary_node (t : fnptr) (a b : te_expr) : te_expr :=
  with_function (new_expr (Z.lor (TE_FUNCTION 2) TE_FLAG_PURE) [a; b]) t.

Definition is_infix (s : state) (ok : fnptr -> bool) : option fnptr :=
  if (stype s =? TOK_INFIX) && ok (function_of (su s))
  then Some (function_of (su s)) else None.

(** The loop shared by [list], [expr], [term] and [factor]: while the
    current token is accepted, read the next operand with [operand] and
    join it to what was read so far. *)
Fixpoint binary_loop (operand : state -> result)
    (accept : state -> option fnptr) (fuel : nat) (ret : te_expr)
    (s : state) : result :=
  match accept s with
  | None => Some (Some ret, s)
  | Some t =>
      match fuel with
      | O => None
      | S k =>
          match operand (next_token s) with
          | None => None
          | Some (None, s') => Some (None, s')
          | Some (Some f, s') =>
              binary_loop operand accept k (binary_node t ret f) s'
          end
      end
  end.

(** The [while] of [parse_postfix], over [list]. *)
Fixpoint parse_postfix_loop (list_ : state -> result) (fuel : nat)
    (s : state) (left : te_expr) : result :=
  if stype s =? TOK_OPEN_BRACKET then
    match fuel with
    | O => None
    | S k =>
        if negb (TYPE_MASK (type left) =? TE_VARIABLE)
        then Some (None, set_type s TOK_ERROR)
        else
          match list_ (next_token s) with
          | None => None
          | Some (idx, s') =>
              match idx with
              | Some idx =>
                  if negb (stype s' =? TOK_CLOSE_BRACKET)
                  then Some (None, set_type s' TOK_ERROR)
                  else
                    let node :=
                      with_bound (new_expr TE_ARRAY [idx]) (bound left) in
                    parse_postfix_loop list_ k (next_token s') node
              | None => Some (None, set_type s' TOK_ERROR)
              end
          end
    end
  else Some (Some left, s).

(** The [while] of [power] over the leading signs. *)
Fixpoint sign_loop (fuel : nat) (sign : Z) (s : state)
    : option (Z * state) :=
  match is_infix s (fun f => fnptr_eqb f p_add || fnptr_eqb f p_sub) with
  | None => Some (sign, s)
  | Some f =>
      match fuel with
      | O => None
      | S k =>
          sign_loop k (if fnptr_eqb f p_sub then - sign else sign)
            (next_token s)
      end
  end.

(** The [for] of [base] over the arguments of a call of arity two or
    more.  It returns the children read, the value of [i] on exit and
    the state; [cnt] is the number of passes left before [i] reaches
    [arity]. *)
Fixpoint args_loop (expr : state -> result) (cnt : nat) (i : Z)
    (ps : list te_expr) (s : state)
    : option (option (list te_expr) * Z * state) :=
  match cnt with
  | O => Some (Some ps, i, s)
  | S c =>
      match expr (next_token s) with
      | None => None
      | Some (None, s') => Some (None, i, s')
      | Some (Some a, s') =>
          if negb (stype s' =? TOK_SEP) then Some (Some (ps ++ [a]), i, s')
          else args_loop expr c (i + 1) (ps ++ [a]) s'
      end
  end.

Definition is_add_sub (f : fnptr) : bool :=
  fnptr_eqb f p_add || fnptr_eqb f p_sub.
Definition is_pow (f : fnptr) : bool := fnptr_eqb f (p_libm m_pow).
Definition is_term_op (f : fnptr) : bool :=
  fnptr_eqb f p_mul || fnptr_eqb f p_divide || fnptr_eqb f (p_libm m_fmod)
  || fnptr_eqb f p_bitwise_or || fnptr_eqb f p_bitwise_and.
Definition is_sep (s : state) : option fnptr :=
  if stype s =? TOK_SEP then Some p_comma else None.

(** [list_] is [list] of the source, whose name is the type of lists. *)
Fixpoint list_ (fuel : nat) (s : state) {struct fuel} : result :=
  match fuel with
  | O => None
  | S k =>
      (* <list> = <expr> {"," <expr>} *)
      match expr k s with
      | None => None
      | Some (None, s') => Some (None, s')
      | Some (Some ret, s') => binary_loop (expr k) is_sep k ret s'
      end
  end

with expr (fuel : nat) (s : state) {struct fuel} : result :=
  match fuel with
  | O => None
  | S k =>
      (* <expr> = <term> {("+" | "-") <term>} *)
      match term k s with
      | None => None
      | Some (None, s') => Some (None, s')
      | Some (Some ret, s') =>
          binary_loop (term k) (fun s => is_infix s is_add_sub) k ret s'
      end
  end

with term (fuel : nat) (s : state) {struct fuel} : result :=
  match fuel with
  | O => None
  | S k =>
      (* <term> = <factor> {("*" | "/" | "%" | "|" | "&") <factor>} *)
      match factor k s with
      | None => None
      | Some (None, s') => Some (None, s')
      | Some (Some ret, s') =>
          binary_loop (factor k) (fun s => is_infix s is_term_op) k ret s'
      end
  end

with factor (fuel : nat) (s : state) {struct fuel} : result :=
  match fuel with
  | O => None
  | S k =>
      (* <factor> = <power> {"^" <power>}, left to right *)
      match power k s with
      | None => None
      | Some (None, s') => Some (None, s')
      | Some (Some ret, s') =>
          binary_loop (power k) (fun s => is_infix s is_pow) k ret s'
      end
  end

with power (fuel : nat) (s : state) {struct fuel} : result :=
  match fuel with
  | O => None
  | S k =>
      (* <power> = {("-" | "+")} <base> *)
      match sign_loop k 1 s with
      | None => None
      | Some (sign, s) =>
          if sign =? 1 then base k s
          else
            match base k s with
            | None => None
            | Some (None, s') => Some (None, s')
            | Some (Some b, s') =>
                Some (Some (with_function
                              (new_expr (Z.lor (TE_FUNCTION 1) TE_FLAG_PURE)
                                 [b])
                              p_negate), s')
            end
      end
  end

with base (fuel : nat) (s : state) {struct fuel} : result :=
  match fuel with
  | O => None
  | S k =>
      let m := TYPE_MASK (stype s) in
      if m =? TOK_NUMBER then
        let ret := with_value (new_expr TE_CONSTANT []) (value_of (su s)) in
        Some (Some ret, next_token s)
      else if m =? TOK_VARIABLE then
        let ret := with_bound (new_expr TE_VARIABLE []) (bound_of (su s)) in
        parse_postfix_loop (list_ k) k (next_token s) ret
      else if (m =? TE_FUNCTION 0) || (m =? TE_CLOSURE 0) then
        let ret := call_node s in
        let s := next_token s in
        if stype s =? TOK_OPEN then
          let s := next_token s in
          if negb (stype s =? TOK_CLOSE)
          then Some (Some ret, set_type s TOK_ERROR)
          else Some (Some ret, next_token s)
        else Some (Some ret, s)
      else if (m =? TE_FUNCTION 1) || (m =? TE_CLOSURE 1) then
        let ret := call_node s in
        match power k (next_token s) with
        | None => None
        | Some (None, s') => Some (None, s')
        | Some (Some p, s') => Some (Some (with_parameters ret [p]), s')
        end
      else if ((TE_FUNCTION 2 <=? m) && (m <=? TE_FUNCTION 7))
              || ((TE_CLOSURE 2 <=? m) && (m <=? TE_CLOSURE 7)) then
        let arity := ARITY (stype s) in
        let ret := call_node s in
        let s := next_token s in
        if negb (stype s =? TOK_OPEN)
        then Some (Some ret, set_type s TOK_ERROR)
        else
          match args_loop (expr k) (Z.to_nat arity) 0 [] s with
          | None => None
          | Some (None, _, s') => Some (None, s')
          | Some (Some ps, i, s') =>
              let ret := with_parameters ret ps in
              if negb (stype s' =? TOK_CLOSE) || negb (i =? arity - 1)
              then Some (Some ret, set_type s' TOK_ERROR)
              else Some (Some ret, next_token s')
          end
      else if m =? TOK_OPEN then
        match list_ k (next_token s) with
        | None => None
        | Some (None, s') => Some (None, s')
        | Some (Some ret, s') =>
            if negb (stype s' =? TOK_CLOSE)
            then Some (Some ret, set_type s' TOK_ERROR)
            else Some (Some ret, next_token s')
        end
      else
        let ret := with_value (new_expr 0 []) D.NAN in
        Some (Some ret, set_type s TOK_ERROR)
  end.

Definition parse_postfix (fuel : nat) (s : state) (left : te_expr) : result :=
  parse_postfix_loop (list_ fuel) fuel s left.

(** ** The entry point *)

(** Enough budget for an input of this length (see [list__total]). *)
Definition parse_fuel (expression : string) : nat :=
  6 * String.length expression + 6.

Definition initial_state (expression : string)
    (variables : list te_variable) : state :=
  mk_state expression expression 0 (Bound 0) 0 variables.

(** [s.next - s.start] *)
Definition offset (s : state) : Z :=
  Z.of_nat (String.length (start s)) - Z.of_nat (String.length (next s)).

(** [te_compile] with a non-null [error]: the tree or null, the value
    stored in [*error], and the caller's state after the folding pass.
    The outer option is [None] only when the budget is exhausted. *)
Definition te_compile (expression : string) (variables : list te_variable)
    (w : world h) : option (option te_expr * Z * world h) :=
  let s := next_token (initial_state expression variables) in
  match list_ (parse_fuel expression) s with
  | None => None
  | Some (None, _) => Some (None, -1, w)
  | Some (Some root, s) =>
      if negb (stype s =? TOK_END) then
        let error := offset s in
        Some (None, (if error =? 0 then 1 else error), w)
      else
        let (root', w') := optimize h root w in
        Some (Some root', 0, w')
  end.

(** [te_interp]: compile with an empty table, evaluate, free. *)
Definition te_interp (expression : string) (w : world h)
    : option (D.double * Z * world h) :=
  match te_compile expression [] w with
  | None => None
  | Some (Some n, error, w') =>
      let (ret, w'') := te_eval h n w' in Some (ret, error, w'')
  | Some (None, error, w') => Some (D.NAN, error, w')
  end.

End Parser.

(** ** A host for closed examples *)

(** Modelled from the spec: [strtod] belongs to the C library, not to
    this repository.  This is its decimal notation, the one the
    specification names: digits with an optional fractional part and an
    optional decimal exponent, correctly rounded; when no digit is
    present nothing is consumed and the value is zero. *)
Fixpoint read_digits (s : string) (acc : Z) (n : nat) : Z * nat * string :=
  match s with
  | String c r =>
      if isdigit c then read_digits r (10 * acc + (code c - code "0"%char)) (S n)
      else (acc, n, s)
  | EmptyString => (acc, n, s)
  end.

Definition decimal_to_double (m e10 : Z) : D.double :=
  if m =? 0 then S754_zero false
  else if 0 <=? e10 then D.of_Z (m * 10 ^ e10)
  else
    let d := 10 ^ (- e10) in
    let sh := Z.max 0 (Z.log2 d - Z.log2 m + 64) in
    let q := (m * 2 ^ sh) / d in
    let sticky := if (m * 2 ^ sh) mod d =? 0 then 0 else 1 in
    binary_normalize D.prec D.emax (2 * q + sticky) (- sh - 1) false.

Definition strtod_decimal (s : string) : D.double * nat :=
  let '(ip, n1, r1) := read_digits s 0 0 in
  let '(m, n2, r2, dot) :=
    match r1 with
    | String c r =>
        if code c =? code "."%char then
          let '(m, n2, r2) := read_digits r ip 0 in (m, n2, r2, 1%nat)
        else (ip, O, r1, O)
    | EmptyString => (ip, O, r1, O)
    end in
  if (n1 + n2 =? 0)%nat then (S754_zero false, O)
  else
    let '(ex, nexp) :=
      match r2 with
      | String c r =>
          if (code c =? code "e"%char) || (code c =? code "E"%char) then
            let '(neg, nsign, r') :=
              match r with
              | String c' r' =>
                  if code c' =? code "-"%char then (true, 1%nat, r')
                  else if code c' =? code "+"%char then (false, 1%nat, r')
                  else (false, O, r)
              | EmptyString => (false, O, r)
              end in
            let '(ev, ne, _) := read_digits r' 0 0 in
            if (ne =? 0)%nat then (0, O)
            else (if neg then - ev else ev, (1 + nsign + ne)%nat)
          else (0, O)
      | EmptyString => (0, O)
      end in
    (decimal_to_double m (ex - Z.of_nat n2), (n1 + dot * (1 + n2) + nexp)%nat).

(** A caller whose state is its memory, the list of its [double] cells
    from address 0 on.  Address 500 is a pure callable that doubles its
    argument; address 600 is an impure one that returns cell 0 and then
    adds one to it.  The transcendental functions are not part of any
    closed example and are left without a value. *)
Definition example_load (w : Datatypes.list D.double) (p : Z) : D.double :=
  if p <? 0 then S754_zero false else nth (Z.to_nat p) w (S754_zero false).

Definition example_call (a : Z) (ctx : option Z)
    (args : Datatypes.list D.double) (w : Datatypes.list D.double)
    : D.double * Datatypes.list D.double :=
  if a =? 500 then
    match args with
    | [x] => (D.add x x, w)
    | _ => (D.NAN, w)
    end
  else if a =? 600 then
    (example_load w 0, D.add (example_load w 0) (D.of_Z 1) :: tl w)
  else (D.NAN, w).

Definition example_host : host :=
  Host (Datatypes.list D.double) example_load example_call
    (fun _ _ => D.NAN) strtod_decimal.

(** Memory holding the arrays of the repository's array test from cell
    10 on: [arr1 = {4, 10, 20, 30, 2}] at 10, [arr2 = {2, 100, 200}] at
    20, an empty array [{0}] at 30 and an array [{1, NaN}] of one
    missing measurement at 40. *)
Definition example_memory : Datatypes.list D.double :=
  map D.of_Z
    [0; 0; 0; 0; 0; 0; 0; 0; 0; 0; 4; 10; 20; 30; 2; 0; 0; 0; 0; 0;
     2; 100; 200; 0; 0; 0; 0; 0; 0; 0; 0; 0; 0; 0; 0; 0; 0; 0; 0; 0; 1]
  ++ [D.NAN].

Definition example_vars : Datatypes.list te_variable :=
  [ mk_var "arr1" 10 TE_VARIABLE 0;
    mk_var "arr2" 20 TE_VARIABLE 0;
    mk_var "empty" 30 TE_VARIABLE 0;
    mk_var "gaps" 40 TE_VARIABLE 0;
    mk_var "twice" 500 (Z.lor (TE_FUNCTION 1) TE_FLAG_PURE) 0;
    mk_var "tick" 600 (TE_FUNCTION 0) 0 ].

(** ** Evaluation, unfolded

    The pieces of [te_eval] as functions of their own, for stating what
    a node evaluates to. *)

Section EvalPieces.

Variable h : host.

(** The children [M(0) .. M(k-1)] of a node, left to right. *)
Fixpoint eval_params (l : Datatypes.list te_expr) (k : nat) (w : world h)
    {struct l} : Datatypes.list D.double * world h :=
  match k with
  | O => ([], w)
  | S k' =>
      match l with
      | [] => (repeat D.NAN (S k'), w)
      | p :: l' =>
          let (d, w1) := te_eval h p w in
          let (ds, w2) := eval_params l' k' w1 in
          (d :: ds, w2)
      end
  end.

Definition eval_generic (n : te_expr) (cx : option Z) (w : world h)
    : D.double * world h :=
  let (args, w') := eval_params (parameters n) (Z.to_nat (ARITY (type n))) w in
  apply_fn h (function n) cx args w'.

Definition eval_index (n : te_expr) (w : world h) : D.double * world h :=
  let arrv := bound n in
  let len := D.to_int (load h w arrv) in
  let (d, w') :=
    match parameters n with
    | p :: _ => te_eval h p w
    | [] => (D.NAN, w)
    end in
  let idx := D.to_int d in
  if (idx <? 0) || (idx >=? len) then (D.NAN, w')
  else (load h w' (arrv + (idx + 1)), w').

End EvalPieces.

(** The aggregate a pointer of the built-in table denotes. *)
Definition aggregate_of (f : fnptr)
    : option ((Z -> D.double) -> Z -> D.double) :=
  match f with
  | p_te_sum => Some te_sum
  | p_te_arrlen => Some te_arrlen
  | p_te_arrmin => Some te_arrmin
  | p_te_arrmax => Some te_arrmax
  | _ => None
  end.

(** Nodes as [base] builds them. *)
Definition constant_node (v : D.double) : te_expr :=
  mk_expr TE_CONSTANT (Value v) [] 0.
Definition variable_node (p : Z) : te_expr :=
  mk_expr TE_VARIABLE (Bound p) [] 0.
Definition array_node (p : Z) (idx : te_expr) : te_expr :=
  mk_expr TE_ARRAY (Bound p) [idx] 0.
Definition negate_node (a : te_expr) : te_expr :=
  mk_expr (Z.lor (TE_FUNCTION 1) TE_FLAG_PURE) (Function p_negate) [a] 0.

(** A call of a one-argument built-in on a variable. *)
Definition builtin_call1 (f : fnptr) (arg : te_expr) : te_expr :=
  mk_expr (Z.lor (TE_FUNCTION 1) TE_FLAG_PURE) (Function f) [arg] 0.

Definition is_zero (x : D.double) : bool :=
  match x with S754_zero _ => true | _ => false end.

(** ** Folding, unfolded *)

Section FoldPieces.

Variable h : host.

(** The loop of [optimize] over the children of a pure node. *)
Fixpoint opt_params (l : Datatypes.list te_expr) (k : nat)
    (w : world h) {struct l} : Datatypes.list te_expr * bool * world h :=
  match k with
  | O => (l, true, w)
  | S k' =>
      match l with
      | [] => ([], false, w)
      | p :: l' =>
          let (p', w1) := optimize h p w in
          let '(l'', known, w2) := opt_params l' k' w1 in
          (p' :: l'', (type p' =? TE_CONSTANT) && known, w2)
      end
  end.

End FoldPieces.

(** ** What is assumed of a tree and of the host *)

Fixpoint every_node (P : te_expr -> Prop) (n : te_expr) {struct n} : Prop :=
  match n with
  | mk_expr _ _ ps _ =>
      P n /\
      (fix all (l : Datatypes.list te_expr) : Prop :=
         match l with
         | [] => True
         | p :: l' => every_node P p /\ all l'
         end) ps
  end.

(** A callable is pure when its result does not depend on the caller's
    state and it leaves that state as it was. *)
Definition pure_callable (h : host) (a : Z) (cx : option Z) : Prop :=
  forall args w w', call h a cx args w = (fst (call h a cx args w'), w).

(** The context a node passes to its callable: none for a function, the
    stored one for a closure. *)
Definition call_context (ty cx : Z) : option Z :=
  if (TE_CLOSURE 0 <=? TYPE_MASK ty) && (TYPE_MASK ty <=? TE_CLOSURE 7)
  then Some cx else None.

Definition context_passed (n : te_expr) : option Z :=
  call_context (type n) (context n).

(** Only calls carry the purity flag. *)
Definition flag_on_call (n : te_expr) : Prop :=
  IS_PURE (type n) = true ->
  TE_FUNCTION 0 <= TYPE_MASK (type n) <= TE_CLOSURE 7.

(** The caller's contract: a callable registered with the purity flag
    is pure. *)
Definition flag_honoured (h : host) (n : te_expr) : Prop :=
  IS_PURE (type n) = true ->
  forall a, function n = p_host a -> pure_callable h a (context_passed n).

(** What [te_eval] sees of a child: its value, whether it is a
    variable node, and then its bound pointer. *)
Definition same_child (h : host) (p p' : te_expr) : Prop :=
  (forall w, te_eval h p' w = te_eval h p w)
  /\ (type p' =? TE_VARIABLE) = (type p =? TE_VARIABLE)
  /\ (type p = TE_VARIABLE -> bound p' = bound p).

(** ** The trees the parser builds

    [built vars t]: [t] is made of literal constants, of variables and
    array lookups bound to entries of [vars], of calls of callables of
    [vars] or of the built-in table with as many children as the
    declared arity, and of the operator nodes of the grammar. *)

Definition resolved (vars : Datatypes.list te_variable) (sym : symbol) : Prop :=
  (exists var, In var vars /\ sym = symbol_of_var var)
  \/ (exists b, In b functions /\ sym = symbol_of_builtin b).

Definition binary_operator (f : fnptr) : bool :=
  is_add_sub f || is_pow f || is_term_op f || fnptr_eqb f p_comma.

Inductive built (vars : Datatypes.list te_variable) : te_expr -> Prop :=
  | built_constant v : built vars (constant_node v)
  | built_variable var :
      In var vars -> TYPE_MASK (vtype var) = TE_VARIABLE ->
      built vars (variable_node (address var))
  | built_array var idx :
      In var vars -> TYPE_MASK (vtype var) = TE_VARIABLE ->
      built vars idx ->
      built vars (array_node (address var) idx)
  | built_call sym args :
      resolved vars sym ->
      TE_FUNCTION 0 <= TYPE_MASK (sym_type sym) <= TE_CLOSURE 7 ->
      Z.of_nat (List.length args) = ARITY (sym_type sym) ->
      Forall (built vars) args ->
      built vars
        (mk_expr (sym_type sym) (Function (sym_function sym)) args
           (if IS_CLOSURE (sym_type sym) then sym_context sym else 0))
  | built_binary t a b :
      binary_operator t = true -> built vars a -> built vars b ->
      built vars (binary_node t a b)
  | built_negate a : built vars a -> built vars (negate_node a).

(** ** What the lexer leaves in the state *)

(** A variable token carries the address of a variable of the table; a
    function or closure token carries the type, callable and context of
    an entry of the table or of the built-in table. *)
Definition tok_ok (vars : Datatypes.list te_variable) (s : state) : Prop :=
  lookup s = vars
  /\ (TYPE_MASK (stype s) = TOK_VARIABLE ->
      exists var, In var vars /\ TYPE_MASK (vtype var) = TE_VARIABLE
                  /\ su s = Bound (address var))
  /\ (TE_FUNCTION 0 <= TYPE_MASK (stype s) <= TE_CLOSURE 7 ->
      exists sym, resolved vars sym /\ stype s = sym_type sym
                  /\ su s = Function (sym_function sym)
                  /\ (IS_CLOSURE (stype s) = true ->
                      scontext s = sym_context sym)).

(** ** Progress through the input *)

(** Tokens other than the end, a number and the error mark were read
    from at least one character. *)
Definition consuming (t : Z) : bool :=
  negb ((t =? TOK_END) || (t =? TOK_NUMBER) || (t =? TOK_ERROR)).

Definition weight (s : state) : nat :=
  String.length (next s) + (if consuming (stype s) then 1 else 0).

(** [s'] is [s] after some tokens were read. *)
Definition advances (s s' : state) : Prop :=
  lookup s' = lookup s
  /\ start s' = start s
  /\ (String.length (next s') <= String.length (next s))%nat
  /\ (weight s' <= weight s)%nat.

(** What a parsing function promises of its result. *)
Definition parsed (vars : Datatypes.list te_variable) (s : state)
    (r : option te_expr) (s' : state) : Prop :=
  tok_ok vars s' /\ advances s s'
  /\ (stype s' <> TOK_ERROR -> exists t, r = Some t /\ built vars t).

(** A parsing function keeps its promise on every state that is in
    order, whenever it returns. *)
Definition sound (vars : Datatypes.list te_variable)
    (f : state -> result) : Prop :=
  forall s r s', tok_ok vars s -> f s = Some (r, s') -> parsed vars s r s'.

(** [first] followed by the loop over [operand], as [list], [expr],
    [term] and [factor] are written. *)
Definition chain (h : host) (first operand : state -> result)
    (accept : state -> option fnptr) (fuel : nat) (s : state) : result :=
  match first s with
  | None => None
  | Some (None, s') => Some (None, s')
  | Some (Some ret, s') => binary_loop h operand accept fuel ret s'
  end.

(** The caller's side of the purity flag: an entry registered with the
    flag is a pure callable. *)
Definition purity_honoured (h : host) (vars : Datatypes.list te_variable)
    : Prop :=
  forall var, In var vars -> IS_PURE (vtype var) = true ->
    pure_callable h (address var) (call_context (vtype var) (vcontext var)).

(** A table without variables and without impure callables. *)
Definition purely_constant (vars : Datatypes.list te_variable) : Prop :=
  forall var, In var vars ->
    TYPE_MASK (vtype var) <> TE_VARIABLE /\ IS_PURE (vtype var) = true.

(** The state [te_compile] parses from. *)
Definition first_state (h : host) (expression : string)
    (variables : Datatypes.list te_variable) : state :=
  next_token h (initial_state expression variables).

(** ** Argument lists, in the words of the grammar

    [arguments ex n s args s']: starting at the state [s] whose token is
    the opening parenthesis, exactly [n] expressions [args] were read
    by [ex], each from the token after the parenthesis or after a
    separator, every one but the last followed by a separator, and
    [s'] is the state after the last expression. *)
Inductive arguments (h : host) (ex : state -> result)
    : nat -> state -> Datatypes.list te_expr -> state -> Prop :=
  | arguments_last s a s' :
      ex (next_token h s) = Some (Some a, s') ->
      arguments h ex 1 s [a] s'
  | arguments_more n s a s1 args s' :
      ex (next_token h s) = Some (Some a, s1) ->
      stype s1 = TOK_SEP ->
      arguments h ex n s1 args s' ->
      arguments h ex (S n) s (a :: args) s'.

(** A token of a function or closure of two or more arguments. *)
Definition call_of_many (s : state) : Prop :=
  TE_FUNCTION 2 <= TYPE_MASK (stype s) <= TE_FUNCTION 7
  \/ TE_CLOSURE 2 <= TYPE_MASK (stype s) <= TE_CLOSURE 7.

(** [n] expressions were supplied where [arity] are required, or the
    list does not end at the closing parenthesis. *)
Definition arity_mismatch (arity : Z) (n : nat) (s_end : state) : Prop :=
  (Z.of_nat n < arity /\ stype s_end <> TOK_SEP)
  \/ (Z.of_nat n = arity /\ stype s_end <> TOK_CLOSE).

(** ** Operands of the bitwise operators

    The integer a [double] stands for as an operand of [&], [|] and
    [xor]: defined when the value is not NaN, is not below zero (a zero
    of either sign is not) and, rounded to the nearest integer, does not
    exceed 2^53 - 1. *)
Definition bitwise_operand (x : D.double) : option Z :=
  match x with
  | S754_zero _ => Some 0
  | S754_finite false m e =>
      if D.round_mag m e <=? MAX_BITWISE_VALUE then Some (D.round_mag m e)
      else None
  | _ => None
  end.

(** The value the source computes for two operands, given the integer
    operation. *)
Definition bitwise_result (op : Z -> Z -> Z) (a b : D.double) : D.double :=
  match bitwise_operand a, bitwise_operand b with
  | Some x, Some y => D.of_Z (op x y)
  | _, _ => D.NAN
  end.

(** The condition as the documentation words it: the operand, rounded to
    nearest, is negative or exceeds [2^53 - 1]. *)
Definition rounded_out_of_range (x : D.double) : bool :=
  D.ltb (D.round x) (D.of_Z 0) || D.gtb (D.round x) (D.of_Z MAX_BITWISE_VALUE).

(** [-0.25], a valid double above [-0.5]: [round] maps it to [-0.0]. *)
Definition minus_quarter : D.double := S754_finite true 4503599627370496 (-54).

(** ** Factorials and binomial coefficients

    The integers [fac], [ncr] and [npr] are compared with. *)

Fixpoint factorial (n : nat) : Z :=
  match n with
  | O => 1
  | S k => Z.of_nat (S k) * factorial k
  end.

(** Pascal's triangle. *)
Fixpoint binomial (n k : nat) {struct n} : Z :=
  match k with
  | O => 1
  | S k' =>
      match n with
      | O => 0
      | S n' => binomial n' k' + binomial n' k
      end
  end.

(** ** Names

    A C string ends at its first terminator: a name that stands for one
    holds no character of code 0. *)
Fixpoint c_string (s : string) : bool :=
  match s with
  | EmptyString => true
  | String c r => negb (code c =? 0) && c_string r
  end.

(** A run of the four characters the lexer skips. *)
Fixpoint blank (s : string) : bool :=
  match s with
  | EmptyString => true
  | String c r => isspace4 c && blank r
  end.

(** ** Shape of a node

    A node has as many children as its type code gives it slots, so that
    no slot the evaluator reads is a null pointer. *)
Definition well_formed (n : te_expr) : Prop :=
  Z.of_nat (List.length (parameters n)) = ARITY (type n).

(** ** Identifiers

    The characters [next_token] reads as one name: a letter, then
    letters, digits and underscores. *)
Definition ident_char (c : ascii) : bool :=
  isalpha c || isdigit c || (code c =? code "_"%char).

Fixpoint ident_tail (s : string) : bool :=
  match s with
  | EmptyString => true
  | String c r => ident_char c && ident_tail r
  end.

Definition identifier (s : string) : bool :=
  match s with
  | EmptyString => false
  | String c r => isalpha c && ident_tail r
  end.

(** What follows a name does not continue it. *)
Definition ends_identifier (rest : string) : bool :=
  match rest with
  | EmptyString => true
  | String c _ => negb (ident_char c)
  end.

(** ** Tables of pure callables *)

(** The callable of a call node is pure. *)
Definition callable_pure (h : host) (n : te_expr) : Prop :=
  forall a, function n = p_host a -> pure_callable h a (context_passed n).

(** Every function and closure of the table is pure, flagged or not. *)
Definition all_pure (h : host) (vars : Datatypes.list te_variable) : Prop :=
  forall var, In var vars ->
    TE_FUNCTION 0 <= TYPE_MASK (vtype var) <= TE_CLOSURE 7 ->
    pure_callable h (address var) (call_context (vtype var) (vcontext var)).

(** ** Releasing a tree

    [te_free_parameters] and [te_free], read as the list of the nodes
    they hand to [free], in the order of the calls.  The [switch] of
    [te_free_parameters] falls through from the case of the node's type
    code down to the first child; a type code that is no case of it
    releases no child, and a null child is skipped. *)

(** The number of children the [switch] reaches. *)
Definition free_slots (ty : Z) : nat :=
  let m := TYPE_MASK ty in
  if ((TE_FUNCTION 1 <=? m) && (m <=? TE_FUNCTION 7))
     || ((TE_CLOSURE 1 <=? m) && (m <=? TE_CLOSURE 7))
  then Z.to_nat (Z.land m 7) else 0.

Fixpoint te_free (n : te_expr) {struct n} : Datatypes.list te_expr :=
  match n with
  | mk_expr ty _ ps _ =>
      (fix free_first (l : Datatypes.list te_expr) (k : nat) {struct l}
           : Datatypes.list te_expr :=
         match k, l with
         | S k', p :: l' => free_first l' k' ++ te_free p
         | _, _ => []
         end) ps (free_slots ty) ++ [n]
  end.

(** The first [k] children, last first. *)
Fixpoint free_first (l : Datatypes.list te_expr) (k : nat) {struct l}
    : Datatypes.list te_expr :=
  match k, l with
  | S k', p :: l' => free_first l' k' ++ te_free p
  | _, _ => []
  end.

Definition te_free_parameters (n : te_expr) : Datatypes.list te_expr :=
  free_first (parameters n) (free_slots (type n)).

(** All the nodes of a tree, in the order [te_free] visits them. *)
Fixpoint nodes (n : te_expr) {struct n} : Datatypes.list te_expr :=
  match n with
  | mk_expr _ _ ps _ =>
      (fix all (l : Datatypes.list te_expr) : Datatypes.list te_expr :=
         match l with
         | [] => []
         | p :: l' => all l' ++ nodes p
         end) ps ++ [n]
  end.

Fixpoint nodes_of (l : Datatypes.list te_expr) : Datatypes.list te_expr :=
  match l with
  | [] => []
  | p :: l' => nodes_of l' ++ nodes p
  end.

Definition is_lookup (n : te_expr) : Prop := type n = TE_ARRAY.

(** A node of one of the type codes the parser and the folding pass
    produce, with the children that code announces. *)
Definition regular (n : te_expr) : Prop :=
  well_formed n /\ TYPE_MASK (type n) <= TE_CLOSURE 7.

(** ** Levels of the binary operators

    The function of the grammar that accepts an operator: 3 for
    [factor] ([^]), 2 for [term] ([*], [/], [%], [|], [&]), 1 for
    [expr] ([+], [-]). *)
Definition level (f : fnptr) : nat :=
  if is_pow f then 3 else if is_term_op f then 2
  else if is_add_sub f then 1 else 0.

(** ** Leading signs *)

(** A run of [+] and [-]. *)
Fixpoint is_signs (s : string) : bool :=
  match s with
  | EmptyString => true
  | String c r =>
      ((code c =? code "+"%char) || (code c =? code "-"%char)) && is_signs r
  end.

(** [-1] for an odd number of [-], [1] otherwise. *)
Fixpoint sign_of (s : string) : Z :=
  match s with
  | EmptyString => 1
  | String c r => if code c =? code "-"%char then - sign_of r else sign_of r
  end.
(** * Properties *)

(** ** Nodes and type codes *)

(** Decide the comparisons of closed type codes in the goal. *)
Ltac decide_tests :=
  repeat match goal with
  | |- context [Z.eqb ?a ?b] =>
      let v := eval compute in (Z.eqb a b) in
      first [constr_eq v true | constr_eq v false];
      change (Z.eqb a b) with v
  | |- context [Z.leb ?a ?b] =>
      let v := eval compute in (Z.leb a b) in
      first [constr_eq v true | constr_eq v false];
      change (Z.leb a b) with v
  end;
  cbn [andb orb negb].


(** Induction on a tree with the hypothesis available for every child. *)
Lemma te_expr_ind (P : te_expr -> Prop) :
  (forall ty un ps cx, Forall P ps -> P (mk_expr ty un ps cx)) ->
  forall n, P n.
Proof.
  intros step. fix IH 1. intros [ty un ps cx]. apply step.
  induction ps as [|p ps IHps]; constructor; [apply IH | exact IHps].
Qed.

Lemma fnptr_eqb_eq (a b : fnptr) : fnptr_eqb a b = true <-> a = b.
Proof.
  split.
  - destruct a, b; simpl; try discriminate; try reflexivity.
    + destruct f, f0; simpl; try discriminate; reflexivity.
    + intros H. apply Z.eqb_eq in H. now subst.
  - intros ->. destruct b; simpl; try reflexivity.
    + now destruct f.
    + apply Z.eqb_refl.
Qed.

Lemma fnptr_eqb_refl (a : fnptr) : fnptr_eqb a a = true.
Proof. now apply fnptr_eqb_eq. Qed.

Section EvalFacts.

Variable h : host.

Lemma te_eval_constant n w :
  TYPE_MASK (type n) = TE_CONSTANT -> te_eval h n w = (value n, w).
Proof. destruct n as [ty un ps cx]; simpl. intros ->. reflexivity. Qed.

Lemma te_eval_variable n w :
  TYPE_MASK (type n) = TE_VARIABLE ->
  te_eval h n w = (load h w (bound n), w).
Proof. destruct n as [ty un ps cx]; simpl. intros ->. reflexivity. Qed.

Lemma te_eval_array n w :
  TYPE_MASK (type n) = TE_ARRAY -> te_eval h n w = eval_index h n w.
Proof. destruct n as [ty un ps cx]; simpl. intros ->. reflexivity. Qed.

End EvalFacts.

(** ** Array lookups and aggregates *)

Section ArrayFacts.

Variable h : host.

Lemma te_eval_aggregate n w f agg arg rest :
  TYPE_MASK (type n) = TE_FUNCTION 1 ->
  function n = f ->
  aggregate_of f = Some agg ->
  parameters n = arg :: rest ->
  te_eval h n w =
    (if type arg =? TE_VARIABLE then agg (load h w) (bound arg) else D.NAN, w).
Proof.
  destruct n as [ty un ps cx]; unfold function; simpl.
  intros Hm Hf Hagg Hps. subst ps. rewrite Hm, Hf.
  destruct f; try discriminate Hagg; simpl;
    injection Hagg as <-; now destruct (type arg =? TE_VARIABLE).
Qed.

Lemma te_eval_lerp n w d r x rest :
  TYPE_MASK (type n) = TE_FUNCTION 3 ->
  function n = p_te_lerp ->
  parameters n = d :: r :: x :: rest ->
  te_eval h n w =
    (if (type d =? TE_VARIABLE) && (type r =? TE_VARIABLE)
     then te_lerp (load h (snd (te_eval h x w))) (bound d) (bound r)
            (fst (te_eval h x w))
     else D.NAN,
     snd (te_eval h x w)).
Proof.
  destruct n as [ty un ps cx]; unfold function; simpl.
  intros Hm Hf Hps. subst ps. rewrite Hm, Hf. simpl.
  destruct (te_eval h x w) as [xv w']; simpl.
  now destruct ((type d =? TE_VARIABLE) && (type r =? TE_VARIABLE)).
Qed.

End ArrayFacts.

(** C6.  A call of [sum], [arrlen], [arrmin] or [arrmax] whose argument
    is a variable node hands the bound pointer of that node to the
    callable and evaluates nothing (the caller's state is returned as it
    was); whose argument is any other node, it is NaN.  A call of
    [linear_interpolate] evaluates its third argument only, hands the
    bound pointers of the first two to the callable when both are
    variable nodes, and is NaN otherwise. *)
Theorem array_arguments_by_reference (h : host) (n : te_expr) (w : world h) :
  (forall f agg arg rest,
      TYPE_MASK (type n) = TE_FUNCTION 1 ->
      function n = f ->
      aggregate_of f = Some agg ->
      parameters n = arg :: rest ->
      te_eval h n w =
        (if type arg =? TE_VARIABLE then agg (load h w) (bound arg)
         else D.NAN, w))
  /\
  (forall d r x rest,
      TYPE_MASK (type n) = TE_FUNCTION 3 ->
      function n = p_te_lerp ->
      parameters n = d :: r :: x :: rest ->
      te_eval h n w =
        (if (type d =? TE_VARIABLE) && (type r =? TE_VARIABLE)
         then te_lerp (load h (snd (te_eval h x w))) (bound d) (bound r)
                (fst (te_eval h x w))
         else D.NAN,
         snd (te_eval h x w))).
Proof.
  split; intros.
  - eapply te_eval_aggregate; eauto.
  - eapply te_eval_lerp; eauto.
Qed.

Lemma array_arguments_by_reference_witness :
  te_eval example_host (builtin_call1 p_te_sum (variable_node 10))
    example_memory
  = (te_sum (load example_host example_memory) 10, example_memory).
Proof.
  exact (proj1 (array_arguments_by_reference example_host
                  (builtin_call1 p_te_sum (variable_node 10)) example_memory)
           p_te_sum te_sum (variable_node 10) [] eq_refl eq_refl eq_refl
           eq_refl).
Defined.

(** C4, as the code has it.  Over an array whose length field is 0,
    [arrmin] and [arrmax] are NaN, and [sum] is the empty sum 0. *)
Theorem aggregate_of_empty_array (h : host) (w : world h)
    (n arg : te_expr) (rest : Datatypes.list te_expr) :
  TYPE_MASK (type n) = TE_FUNCTION 1 ->
  parameters n = arg :: rest ->
  type arg = TE_VARIABLE ->
  D.to_int (load h w (bound arg)) = 0 ->
  (function n = p_te_arrmin -> te_eval h n w = (D.NAN, w))
  /\ (function n = p_te_arrmax -> te_eval h n w = (D.NAN, w))
  /\ (function n = p_te_sum -> te_eval h n w = (S754_zero false, w)).
Proof.
  intros Hm Hps Harg Hlen.
  repeat split; intros Hf;
    rewrite (te_eval_aggregate h n w _ _ arg rest Hm Hf eq_refl Hps);
    rewrite Harg; simpl.
  - unfold te_arrmin. now rewrite Hlen.
  - unfold te_arrmax. now rewrite Hlen.
  - unfold te_sum. now rewrite Hlen.
Qed.

Lemma aggregate_of_empty_array_witness :
  te_eval example_host (builtin_call1 p_te_arrmin (variable_node 30))
    example_memory = (D.NAN, example_memory)
  /\ te_eval example_host (builtin_call1 p_te_sum (variable_node 30))
       example_memory = (S754_zero false, example_memory).
Proof.
  split.
  - exact (proj1 (aggregate_of_empty_array example_host example_memory
                    (builtin_call1 p_te_arrmin (variable_node 30))
                    (variable_node 30) [] eq_refl eq_refl eq_refl eq_refl)
             eq_refl).
  - exact (proj2 (proj2 (aggregate_of_empty_array example_host example_memory
                    (builtin_call1 p_te_sum (variable_node 30))
                    (variable_node 30) [] eq_refl eq_refl eq_refl eq_refl))
             eq_refl).
Defined.

(** C4 as stated fails for [sum]: the expression [sum(empty)], over the
    array whose length field is 0, compiles and evaluates to 0, which is
    not NaN. *)
Lemma sum_of_empty_array_is_not_nan :
  match te_compile example_host "sum(empty)" example_vars example_memory with
  | Some (Some t, _, w) =>
      t = builtin_call1 p_te_sum (variable_node 30)
      /\ D.to_int (load example_host w (bound (variable_node 30))) = 0
      /\ fst (te_eval example_host t w) = S754_zero false
      /\ D.is_nan (fst (te_eval example_host t w)) = false
  | _ => False
  end.
Proof. vm_compute. repeat split. Qed.

(** Truncation is toward zero: the magnitude of [trunc x] is the integer
    part of the magnitude of [x], and the sign is kept. *)
Lemma trunc_toward_zero (s : bool) (m : positive) (e z : Z) :
  D.trunc (S754_finite s m e) = Some z ->
  (if s then z <= 0 else 0 <= z)
  /\ (0 <= e -> Z.abs z = Z.pos m * 2 ^ e)
  /\ (e < 0 ->
      Z.abs z * 2 ^ (- e) <= Z.pos m < (Z.abs z + 1) * 2 ^ (- e)).
Proof.
  unfold D.trunc. intros H.
  set (a := if 0 <=? e then Z.pos m * 2 ^ e else Z.pos m / 2 ^ (- e)) in H.
  assert (Hz : z = if s then - a else a) by congruence.
  subst z. clear H. unfold a. clear a.
  destruct (Z.leb_spec 0 e) as [He|He].
  - assert (0 < 2 ^ e) by (apply Z.pow_pos_nonneg; lia).
    assert (0 < Z.pos m * 2 ^ e) by nia.
    destruct s; repeat split; intros; try lia.
  - assert (Hp : 0 < 2 ^ (- e)) by (apply Z.pow_pos_nonneg; lia).
    pose proof (Z.div_pos (Z.pos m) (2 ^ (- e)) ltac:(lia) Hp) as Hq.
    pose proof (Z.mul_div_le (Z.pos m) (2 ^ (- e)) Hp) as Hlo.
    pose proof (Z.mul_succ_div_gt (Z.pos m) (2 ^ (- e)) Hp) as Hhi.
    assert (Ha : forall q, 0 <= q -> Z.abs (if s then - q else q) = q)
      by (intros q Hq0; destruct s; lia).
    rewrite (Ha _ Hq).
    destruct s; repeat split; intros; try lia.
Qed.

(** C2, as the code has it.  An array lookup reads the length [L] from
    element 0, evaluates the index to [d], casts it to the integer [i],
    which is [d] truncated toward zero whenever that fits an [int],
    and returns NaN when [i] is outside [0, L) and element [i+1]
    otherwise; so the result is NaN exactly when [i] is outside [0, L)
    or element [i+1] is itself NaN. *)
Theorem array_lookup (h : host) (n idx : te_expr)
    (rest : Datatypes.list te_expr) (w w' : world h) (d : D.double) :
  TYPE_MASK (type n) = TE_ARRAY ->
  parameters n = idx :: rest ->
  te_eval h idx w = (d, w') ->
  let L := D.to_int (load h w (bound n)) in
  let i := D.to_int d in
  te_eval h n w =
    (if (0 <=? i) && (i <? L) then load h w' (bound n + (i + 1)) else D.NAN,
     w')
  /\ (forall z, D.trunc d = Some z -> D.INT_MIN <= z <= D.INT_MAX -> i = z)
  /\ (D.is_nan (fst (te_eval h n w)) = true <->
      ~ (0 <= i < L) \/ D.is_nan (load h w' (bound n + (i + 1))) = true).
Proof.
  intros Hm Hps Hidx L i.
  assert (Heval : te_eval h n w =
    (if (0 <=? i) && (i <? L) then load h w' (bound n + (i + 1)) else D.NAN,
     w')).
  { rewrite te_eval_array by exact Hm. unfold eval_index.
    rewrite Hps, Hidx. fold i. fold L.
    destruct (Z.leb_spec 0 i), (Z.ltb_spec i L), (Z.ltb_spec i 0),
      (Z.geb_spec i L); simpl; try reflexivity; lia. }
  split; [exact Heval|]. split.
  - intros z Hz [Hlo Hhi]. unfold i, D.to_int. rewrite Hz.
    apply Z.leb_le in Hlo, Hhi. now rewrite Hlo, Hhi.
  - rewrite Heval. simpl.
    destruct (Z.leb_spec 0 i), (Z.ltb_spec i L); simpl; split;
      try (intros _; left; lia); try (intros; reflexivity);
      try (intros Hn; now right); intros [Hout|Hn]; try lia; exact Hn.
Qed.

Lemma array_lookup_witness :
  te_eval example_host (array_node 10 (constant_node (D.of_Z 1)))
    example_memory = (D.of_Z 20, example_memory).
Proof.
  exact (proj1 (array_lookup example_host
                  (array_node 10 (constant_node (D.of_Z 1)))
                  (constant_node (D.of_Z 1)) [] example_memory example_memory
                  (D.of_Z 1) eq_refl eq_refl eq_refl)).
Defined.

(** C2 as stated fails in the direction "NaN only if out of range":
    [gaps] has length 1 and its only element is NaN, so [gaps[0]] is
    NaN although the index 0 lies in [0, 1). *)
Lemma array_lookup_in_range_nan :
  match te_compile example_host "gaps[0]" example_vars example_memory with
  | Some (Some t, _, w) =>
      t = array_node 40 (constant_node (D.of_Z 0))
      /\ D.to_int (load example_host w (bound t)) = 1
      /\ D.to_int (fst (te_eval example_host (constant_node (D.of_Z 0)) w)) = 0
      /\ D.is_nan (fst (te_eval example_host t w)) = true
  | _ => False
  end.
Proof. vm_compute. repeat split. Qed.

(** ** Division *)

(** C10.  ["1/0"] compiles, the folding pass leaves the single literal
    +Infinity, and evaluation returns it.  In general a quotient by a
    zero is NaN only when the numerator is NaN or itself a zero; any
    other numerator gives an infinity. *)
Theorem division_by_zero (h : host) (w : world h) :
  strtod h = strtod_decimal ->
  te_compile h "1/0" [] w = Some (Some (constant_node D.INFINITY), 0, w)
  /\ te_eval h (constant_node D.INFINITY) w = (D.INFINITY, w)
  /\ (forall a s,
        D.is_nan (divide a (S754_zero s)) = D.is_nan a || is_zero a)
  /\ (forall a s, D.is_nan a = false -> is_zero a = false ->
        exists s', divide a (S754_zero s) = S754_infinity s').
Proof.
  intros Hstrtod. repeat split.
  - destruct h as [W ld cl lm st]. simpl in *. subst st.
    vm_compute. reflexivity.
  - now destruct a.
  - intros a s Hn Hz. destruct a as [sa|sa| |sa m e]; try discriminate;
      simpl; eauto.
Qed.

Lemma division_by_zero_witness :
  te_compile example_host "1/0" [] example_memory
  = Some (Some (constant_node D.INFINITY), 0, example_memory).
Proof.
  exact (proj1 (division_by_zero example_host example_memory eq_refl)).
Defined.

(** ** Constant folding preserves evaluation *)

Section Folding.

Variable h : host.

Lemma te_eval_unfold ty un ps cx w :
  te_eval h (mk_expr ty un ps cx) w =
    let n := mk_expr ty un ps cx in
    let m := TYPE_MASK ty in
    if m =? TE_CONSTANT then (value_of un, w)
    else if m =? TE_VARIABLE then (load h w (bound_of un), w)
    else if m =? TE_ARRAY then eval_index h n w
    else if (m =? TE_FUNCTION 3) && fnptr_eqb (function_of un) p_te_lerp then
      match ps with
      | d :: r :: rest =>
          let (x, w') :=
            match rest with
            | p :: _ => te_eval h p w
            | [] => (D.NAN, w)
            end in
          if (type d =? TE_VARIABLE) && (type r =? TE_VARIABLE)
          then (te_lerp (load h w') (bound d) (bound r) x, w')
          else (D.NAN, w')
      | _ => (D.NAN, w)
      end
    else if (m =? TE_FUNCTION 1) && is_array_fn1 (function_of un) then
      match ps with
      | arg :: _ =>
          if type arg =? TE_VARIABLE then
            let arrp := bound arg in
            if fnptr_eqb (function_of un) p_te_sum
            then (te_sum (load h w) arrp, w)
            else if fnptr_eqb (function_of un) p_te_arrmin
            then (te_arrmin (load h w) arrp, w)
            else if fnptr_eqb (function_of un) p_te_arrlen
            then (te_arrlen (load h w) arrp, w)
            else (te_arrmax (load h w) arrp, w)
          else (D.NAN, w)
      | [] => (D.NAN, w)
      end
    else if (TE_FUNCTION 0 <=? m) && (m <=? TE_FUNCTION 7)
    then eval_generic h n None w
    else if (TE_CLOSURE 0 <=? m) && (m <=? TE_CLOSURE 7)
    then eval_generic h n (Some cx) w
    else (D.NAN, w).
Proof. reflexivity. Qed.

Lemma optimize_unfold ty un ps cx w :
  optimize h (mk_expr ty un ps cx) w =
    let n := mk_expr ty un ps cx in
    if ty =? TE_CONSTANT then (n, w)
    else if ty =? TE_VARIABLE then (n, w)
    else if IS_PURE ty then
      let '(ps', known, w') := opt_params h ps (Z.to_nat (ARITY ty)) w in
      let n' := mk_expr ty un ps' cx in
      if known then
        let (v, w'') := te_eval h n' w' in (fold_constant n' v, w'')
      else (n', w')
    else (n, w).
Proof. reflexivity. Qed.


Lemma every_node_unfold (P : te_expr -> Prop) ty un ps cx :
  every_node P (mk_expr ty un ps cx) <->
  P (mk_expr ty un ps cx) /\ Forall (every_node P) ps.
Proof.
  simpl. split; intros [Hn Hps]; split; try exact Hn.
  - clear Hn. induction ps as [|p ps IHps]; constructor; destruct Hps; auto.
  - clear Hn. induction Hps; simpl; auto.
Qed.

Lemma land_mask (ty k : Z) :
  Z.land 31 k = k -> Z.land ty k = Z.land (TYPE_MASK ty) k.
Proof.
  intros Hk. unfold TYPE_MASK. now rewrite <- Z.land_assoc, Hk.
Qed.

Lemma ARITY_of_call ty :
  TE_FUNCTION 0 <= TYPE_MASK ty <= TE_CLOSURE 7 ->
  ARITY ty = Z.land (TYPE_MASK ty) 7.
Proof.
  intros Hm. unfold ARITY.
  rewrite (land_mask ty (Z.lor TE_FUNCTION0 TE_CLOSURE0)) by reflexivity.
  rewrite (land_mask ty 7) by reflexivity.
  set (m := TYPE_MASK ty) in *. unfold TE_FUNCTION, TE_CLOSURE in Hm.
  assert (Hcases : m = 8 \/ m = 9 \/ m = 10 \/ m = 11 \/ m = 12 \/ m = 13
                   \/ m = 14 \/ m = 15 \/ m = 16 \/ m = 17 \/ m = 18
                   \/ m = 19 \/ m = 20 \/ m = 21 \/ m = 22 \/ m = 23)
    by (unfold TE_FUNCTION0, TE_CLOSURE0 in Hm; lia).
  repeat (destruct Hcases as [->|Hcases]; [reflexivity|]).
  now subst m; rewrite Hcases.
Qed.

Lemma same_child_refl p : same_child h p p.
Proof. repeat split. Qed.

Lemma eval_params_same ps ps' :
  Forall2 (same_child h) ps ps' ->
  forall k w, eval_params h ps' k w = eval_params h ps k w.
Proof.
  induction 1 as [|p p' ps ps' [Hp _] _ IH]; intros [|k] w; simpl; auto.
  rewrite Hp. destruct (te_eval h p w) as [d w1]. now rewrite IH.
Qed.

Lemma te_eval_same ty un cx ps ps' :
  Forall2 (same_child h) ps ps' ->
  forall w, te_eval h (mk_expr ty un ps' cx) w
            = te_eval h (mk_expr ty un ps cx) w.
Proof.
  intros HR w. rewrite !te_eval_unfold. cbv zeta.
  unfold eval_index, eval_generic. simpl.
  rewrite !(eval_params_same _ _ HR).
  destruct HR as [|d d' ps ps' [Hd [Hdt Hdb]] HR]; [reflexivity|].
  rewrite Hd. rewrite Hdt.
  destruct HR as [|r r' ps ps' [Hr [Hrt Hrb]] HR].
  { destruct (type d =? TE_VARIABLE) eqn:E; [|reflexivity].
    apply Z.eqb_eq in E. now rewrite (Hdb E). }
  rewrite Hrt.
  assert (Hx : forall w,
    match ps' with p :: _ => te_eval h p w | [] => (D.NAN, w) end
    = match ps with p :: _ => te_eval h p w | [] => (D.NAN, w) end).
  { destruct HR as [|x x' ps ps' [Hx _] _]; auto. }
  rewrite Hx.
  destruct (type d =? TE_VARIABLE) eqn:Ed;
    [apply Z.eqb_eq in Ed; rewrite (Hdb Ed)|reflexivity].
  destruct (type r =? TE_VARIABLE) eqn:Er;
    [apply Z.eqb_eq in Er; rewrite (Hrb Er)|]; reflexivity.
Qed.


Lemma Forall2_same_child_refl ps : Forall2 (same_child h) ps ps.
Proof. induction ps; constructor; auto using same_child_refl. Qed.

Lemma te_eval_of_constant p w :
  type p = TE_CONSTANT -> te_eval h p w = (value p, w).
Proof. intros Hp. apply te_eval_constant. now rewrite Hp. Qed.

Lemma eval_params_constants ps :
  forall k w,
    (k <= List.length ps)%nat ->
    Forall (fun p => type p = TE_CONSTANT) (firstn k ps) ->
    eval_params h ps k w = (map value (firstn k ps), w).
Proof.
  induction ps as [|p ps IH]; intros [|k] w Hk Hc; simpl in *;
    try reflexivity; try lia.
  inversion Hc as [|? ? Hp Hc']; subst.
  rewrite (te_eval_of_constant p w Hp).
  rewrite (IH k w) by (auto; lia). reflexivity.
Qed.

Lemma opt_params_spec ps :
  Forall (fun p => forall w0, same_child h p (fst (optimize h p w0))) ps ->
  forall k w0,
    Forall2 (same_child h) ps (fst (fst (opt_params h ps k w0)))
    /\ (snd (fst (opt_params h ps k w0)) = true ->
        (k <= List.length (fst (fst (opt_params h ps k w0))))%nat
        /\ Forall (fun p => type p = TE_CONSTANT)
             (firstn k (fst (fst (opt_params h ps k w0))))).
Proof.
  induction 1 as [|p ps Hp _ IH]; intros [|k] w0; simpl.
  - split; [constructor|]. intros _. split; [lia|constructor].
  - split; [constructor|]. discriminate.
  - split; [apply Forall2_same_child_refl|].
    intros _. split; [lia|constructor].
  - specialize (Hp w0). destruct (optimize h p w0) as [p' w1].
    specialize (IH k w1).
    destruct (opt_params h ps k w1) as [[ps' known] w2]. simpl in *.
    destruct IH as [IH2 IHk]. split; [constructor; assumption|].
    intros Hknown. apply andb_prop in Hknown as [Hc Hknown].
    apply Z.eqb_eq in Hc. destruct (IHk Hknown) as [Hlen Hall].
    split; [lia|constructor; assumption].
Qed.

Lemma apply_fn_pure f cx args w1 w2 :
  (forall a, f = p_host a -> pure_callable h a cx) ->
  apply_fn h f cx args w1 = (fst (apply_fn h f cx args w2), w1).
Proof.
  intros Hpure.
  destruct f; try (destruct cx; simpl; [reflexivity|];
    destruct args as [|a [|b [|c args]]]; reflexivity).
  assert (Hcall : forall w, apply_fn h (p_host addr) cx args w
                            = call h addr cx args w)
    by (intros w; now destruct cx).
  rewrite !Hcall. apply (Hpure addr eq_refl).
Qed.

Lemma eval_generic_known n cx w1 w2 :
  (Z.to_nat (ARITY (type n)) <= List.length (parameters n))%nat ->
  Forall (fun p => type p = TE_CONSTANT)
    (firstn (Z.to_nat (ARITY (type n))) (parameters n)) ->
  (forall a, function n = p_host a -> pure_callable h a cx) ->
  eval_generic h n cx w1 = (fst (eval_generic h n cx w2), w1).
Proof.
  intros Hlen Hc Hpure. unfold eval_generic.
  rewrite !eval_params_constants by assumption.
  now apply apply_fn_pure.
Qed.

Lemma te_eval_known ty un ps cx w1 w2 :
  TE_FUNCTION 0 <= TYPE_MASK ty <= TE_CLOSURE 7 ->
  (Z.to_nat (ARITY ty) <= List.length ps)%nat ->
  Forall (fun p => type p = TE_CONSTANT) (firstn (Z.to_nat (ARITY ty)) ps) ->
  (forall a, function_of un = p_host a ->
             pure_callable h a (context_passed (mk_expr ty un ps cx))) ->
  te_eval h (mk_expr ty un ps cx) w1
  = (fst (te_eval h (mk_expr ty un ps cx) w2), w1).
Proof.
  intros Hm Hlen Hc Hpure.
  assert (Hgen : forall cxo, cxo = context_passed (mk_expr ty un ps cx) ->
            eval_generic h (mk_expr ty un ps cx) cxo w1
            = (fst (eval_generic h (mk_expr ty un ps cx) cxo w2), w1)).
  { intros cxo ->. apply eval_generic_known; assumption. }
  rewrite !te_eval_unfold. cbv zeta.
  rewrite (ARITY_of_call ty Hm) in Hlen, Hc.
  unfold context_passed, call_context in Hgen. simpl type in Hgen.
  simpl context in Hgen.
  clear Hpure.
  set (n := mk_expr ty un ps cx) in *.
  set (m := TYPE_MASK ty) in *.
  assert (Hcases : m = 8 \/ m = 9 \/ m = 10 \/ m = 11 \/ m = 12 \/ m = 13
                   \/ m = 14 \/ m = 15 \/ m = 16 \/ m = 17 \/ m = 18
                   \/ m = 19 \/ m = 20 \/ m = 21 \/ m = 22 \/ m = 23)
    by (unfold TE_FUNCTION, TE_CLOSURE, TE_FUNCTION0, TE_CLOSURE0 in Hm; lia).
  clearbody m.
  repeat (destruct Hcases as [->|Hcases]); try subst m; decide_tests;
    try (apply Hgen; reflexivity).
  - (* one argument: the array aggregates *)
    destruct (is_array_fn1 (function_of un)); [|apply Hgen; reflexivity].
    change (Z.to_nat (Z.land 9 7)) with 1%nat in *.
    destruct ps as [|arg ps]; [simpl in Hlen; lia|].
    inversion Hc as [|? ? Harg _]; subst. rewrite Harg. reflexivity.
  - (* three arguments: the interpolation *)
    destruct (fnptr_eqb (function_of un) p_te_lerp);
      [|apply Hgen; reflexivity].
    change (Z.to_nat (Z.land 11 7)) with 3%nat in *.
    destruct ps as [|d [|r [|x ps]]]; simpl in Hlen; try lia.
    inversion Hc as [|? ? Hd Hc1]; subst.
    inversion Hc1 as [|? ? Hr Hc2]; subst.
    inversion Hc2 as [|? ? Hx _]; subst.
    rewrite !(te_eval_of_constant x) by exact Hx.
    rewrite Hd. reflexivity.
Qed.

(** The folding pass keeps, of every node, what its parent reads. *)
Lemma optimize_same_child n :
  every_node flag_on_call n ->
  every_node (flag_honoured h) n ->
  forall w0, same_child h n (fst (optimize h n w0)).
Proof.
  induction n as [ty un ps cx IH] using te_expr_ind.
  intros Hcode Hcontract w0.
  apply every_node_unfold in Hcode as [Hcode Hcodes].
  apply every_node_unfold in Hcontract as [Hcontract Hcontracts].
  rewrite optimize_unfold. cbv zeta.
  destruct (ty =? TE_CONSTANT); [apply same_child_refl|].
  destruct (Z.eqb_spec ty TE_VARIABLE) as [|Hvar]; [apply same_child_refl|].
  destruct (IS_PURE ty) eqn:Hpure; [|apply same_child_refl].
  assert (Hchildren :
    Forall (fun p => forall w0, same_child h p (fst (optimize h p w0))) ps).
  { rewrite Forall_forall in *. intros p Hp. apply IH; auto. }
  pose proof (opt_params_spec ps Hchildren (Z.to_nat (ARITY ty)) w0) as Hspec.
  destruct (opt_params h ps (Z.to_nat (ARITY ty)) w0) as [[ps' known] w'].
  simpl in Hspec. destruct Hspec as [Hsame Hknown].
  pose proof (te_eval_same ty un cx ps ps' Hsame) as Heq.
  destruct known.
  - destruct (Hknown eq_refl) as [Hlen Hconst].
    assert (Hfold : forall w, te_eval h (mk_expr ty un ps' cx) w
              = (fst (te_eval h (mk_expr ty un ps' cx) w'), w)).
    { intros w. apply te_eval_known;
        [apply Hcode; exact Hpure | exact Hlen | exact Hconst
        | intros a Ha; apply (Hcontract Hpure a Ha)]. }
    destruct (te_eval h (mk_expr ty un ps' cx) w') as [v w''] eqn:Hv.
    simpl. repeat split.
    + intros w. rewrite <- Heq, Hfold. reflexivity.
    + simpl. symmetry. now apply Z.eqb_neq.
    + simpl. intros Hty. contradiction.
  - simpl. repeat split. exact Heq.
Qed.

End Folding.

(** ** The lexer *)

Lemma length_drop n s : String.length (drop n s) = (String.length s - n)%nat.
Proof.
  revert s. induction n as [|n IH]; intros [|c r]; simpl; auto; lia.
Qed.

Lemma ident_len_pos c r :
  isalpha c = true -> (1 <= ident_len (String c r))%nat.
Proof. intros Hc. simpl. rewrite Hc. simpl. lia. Qed.

Lemma char_at_nonempty s :
  code (char_at s 0) <> 0 -> exists c r, s = String c r /\ char_at s 0 = c.
Proof.
  destruct s as [|c r]; unfold char_at; simpl.
  - intros H. now contradiction H.
  - intros _. now exists c, r.
Qed.

Lemma find_lookup_In lk nm len var :
  find_lookup lk nm len = Some var -> In var lk.
Proof.
  induction lk as [|v lk IH]; simpl; [discriminate|].
  destruct ((strncmp nm (name v) len =? 0)
            && (code (char_at (name v) len) =? 0)).
  - intros [= ->]. now left.
  - intros H. right. now apply IH.
Qed.

Lemma find_builtin_loop_In fuel nm len :
  forall imin imax b,
    find_builtin_loop fuel nm len imin imax = Some b -> In b functions.
Proof.
  induction fuel as [|k IH]; intros imin imax b; cbn [find_builtin_loop];
    [discriminate|].
  destruct (imax >=? imin); [|discriminate].
  destruct (nth_error functions (Z.to_nat (imin + (imax - imin) / 2)))
    as [fi|] eqn:Hnth; [|discriminate].
  match goal with |- context [if ?c =? 0 then Some fi else _] =>
    destruct (c =? 0); [|destruct (c >? 0)] end.
  - intros [= <-]. eapply nth_error_In; eauto.
  - apply IH.
  - apply IH.
Qed.

Lemma find_builtin_In nm len b :
  find_builtin nm len = Some b -> In b functions.
Proof. apply find_builtin_loop_In. Qed.

Lemma resolve_resolved lk nm len sym :
  resolve lk nm len = Some sym -> resolved lk sym.
Proof.
  unfold resolve.
  destruct (find_lookup lk nm len) as [var|] eqn:Hl.
  - intros [= <-]. left. exists var. split; [|reflexivity].
    eapply find_lookup_In; eauto.
  - destruct (find_builtin nm len) as [b|] eqn:Hb; [|discriminate].
    intros [= <-]. right. exists b. split; [|reflexivity].
    eapply find_builtin_In; eauto.
Qed.

(** Every built-in is a pure function of arity at most three. *)
Lemma builtins_are_pure_functions b :
  In b functions ->
  IS_PURE (btype b) = true
  /\ TE_FUNCTION 0 <= TYPE_MASK (btype b) <= TE_FUNCTION 3.
Proof.
  assert (H : Forall (fun b => IS_PURE (btype b) = true
              /\ TE_FUNCTION 0 <= TYPE_MASK (btype b) <= TE_FUNCTION 3)
              functions).
  { unfold functions. repeat constructor; vm_compute; congruence. }
  rewrite Forall_forall in H. apply H.
Qed.

(** The binary search finds every name of the table. *)
Lemma find_builtin_complete :
  Forall (fun b => find_builtin (bname b) (String.length (bname b)) = Some b)
    functions.
Proof. unfold functions. repeat constructor. Qed.

(** Replace [TYPE_MASK] of a closed code by its value and finish by
    linear arithmetic over the codes. *)
Ltac mask_lia :=
  repeat match goal with
  | H : context [TYPE_MASK ?t] |- _ =>
      let v := eval vm_compute in (TYPE_MASK t) in
      match v with
      | Z0 => idtac | Zpos _ => idtac | Zneg _ => idtac
      end;
      progress change (TYPE_MASK t) with v in H
  end;
  unfold TE_FUNCTION, TE_CLOSURE, TE_FUNCTION0, TE_CLOSURE0, TE_VARIABLE,
    TE_CONSTANT, TE_ARRAY, TOK_VARIABLE, TOK_NUMBER, TOK_OPEN, TOK_CLOSE,
    TOK_SEP, TOK_END, TOK_ERROR, TOK_INFIX, TOK_OPEN_BRACKET,
    TOK_CLOSE_BRACKET, TOK_NULL, TE_CLOSURE, TE_CLOSURE0 in *;
  first [lia | discriminate | congruence].

(** [lia] after dropping what is known of character codes, which it
    does not digest. *)
Ltac nlia :=
  repeat match goal with H : context [code _] |- _ => clear H end; lia.

(** A state whose token is a structural one is in order. *)
Ltac tok_ok_structural :=
  unfold tok_ok; cbn [stype su scontext lookup set_type set_token set_next
                      set_context];
  split; [assumption|]; split; intros Hmask; exfalso; mask_lia.

Section Lexer.

Variable h : host.
Variable vars : Datatypes.list te_variable.

Lemma IS_CLOSURE_of_function ty :
  TE_FUNCTION 0 <= TYPE_MASK ty <= TE_FUNCTION 7 -> IS_CLOSURE ty = false.
Proof.
  intros Hm. unfold IS_CLOSURE.
  rewrite (land_mask ty TE_CLOSURE0) by reflexivity.
  set (m := TYPE_MASK ty) in *.
  assert (Hcases : m = 8 \/ m = 9 \/ m = 10 \/ m = 11 \/ m = 12 \/ m = 13
                   \/ m = 14 \/ m = 15) by mask_lia.
  clearbody m.
  repeat (destruct Hcases as [->|Hcases]; [reflexivity|]).
  now subst m.
Qed.

Lemma tok_ok_set_next s nx : tok_ok vars s -> tok_ok vars (set_next s nx).
Proof. exact (fun H => H). Qed.

Lemma tok_ok_error s : lookup s = vars -> tok_ok vars (set_type s TOK_ERROR).
Proof. intros Hl. tok_ok_structural. Qed.

Lemma next_token_step_ok s :
  tok_ok vars s -> tok_ok vars (next_token_step h s).
Proof.
  intros Hs. pose proof Hs as [Hl _]. unfold next_token_step.
  destruct (isdigit (char_at (next s) 0)
            || (code (char_at (next s) 0) =? code "."%char)).
  { destruct (strtod h (next s)) as [v n]. tok_ok_structural. }
  destruct (isalpha (char_at (next s) 0)).
  { cbn [lookup set_next].
    destruct (resolve (lookup s) (next s) (ident_len (next s)))
      as [sym|] eqn:Hres; [|tok_ok_structural].
    rewrite Hl in Hres. apply resolve_resolved in Hres.
    destruct (Z.eqb_spec (TYPE_MASK (sym_type sym)) TE_VARIABLE) as [Hv|Hv].
    { unfold tok_ok. cbn [stype su scontext lookup set_token set_next].
      split; [assumption|]. split; [|intros Hm; exfalso; mask_lia].
      intros _. destruct Hres as [(var & Hin & ->)|(b & Hin & ->)].
      - exists var. now repeat split.
      - apply builtins_are_pure_functions in Hin as [_ Hb].
        cbn [sym_type symbol_of_builtin] in Hv. exfalso. mask_lia. }
    destruct ((TE_CLOSURE 0 <=? TYPE_MASK (sym_type sym))
              && (TYPE_MASK (sym_type sym) <=? TE_CLOSURE 7)) eqn:Hc.
    { unfold tok_ok.
      cbn [stype su scontext lookup set_token set_next set_context].
      split; [assumption|]. apply andb_prop in Hc as [Hc1 Hc2].
      apply Z.leb_le in Hc1, Hc2.
      split; [intros Hm; exfalso; mask_lia|].
      intros _. exists sym. now repeat split. }
    destruct ((TE_FUNCTION 0 <=? TYPE_MASK (sym_type sym))
              && (TYPE_MASK (sym_type sym) <=? TE_FUNCTION 7)) eqn:Hf.
    { unfold tok_ok.
      cbn [stype su scontext lookup set_token set_next set_context].
      split; [assumption|]. apply andb_prop in Hf as [Hf1 Hf2].
      apply Z.leb_le in Hf1, Hf2.
      split; [intros Hm; exfalso; mask_lia|].
      intros _. exists sym. repeat split; auto.
      rewrite IS_CLOSURE_of_function by lia. discriminate. }
    exact Hs. }
  destruct (infix_of (char_at (next s) 0)); [tok_ok_structural|].
  repeat match goal with
  | |- tok_ok _ (if ?c then _ else _) => destruct c; [tok_ok_structural|]
  end.
  destruct (isspace4 (char_at (next s) 0)); [exact Hs|tok_ok_structural].
Qed.

Lemma next_token_step_progress s :
  code (char_at (next s) 0) <> 0 ->
  lookup (next_token_step h s) = lookup s
  /\ start (next_token_step h s) = start s
  /\ ((stype (next_token_step h s) = TOK_NUMBER
       /\ (String.length (next (next_token_step h s))
            <= String.length (next s))%nat)
      \/ (String.length (next (next_token_step h s)) + 1
          <= String.length (next s))%nat).
Proof.
  intros Hc. destruct (char_at_nonempty _ Hc) as (c & r & Hnext & Hch).
  unfold next_token_step. rewrite Hch.
  destruct (isdigit c || (code c =? code "."%char)).
  { destruct (strtod h (next s)) as [v n].
    cbn [stype su scontext lookup start next set_type set_token set_next].
    repeat split. left. split; [reflexivity|]. rewrite length_drop. apply Nat.le_sub_l. }
  assert (Hdrop : forall n, (1 <= n)%nat ->
            (String.length (drop n (next s)) + 1 <= String.length (next s))%nat).
  { intros n Hn. rewrite length_drop, Hnext. cbn [String.length]. clear - Hn. lia. }
  destruct (isalpha c) eqn:Halpha.
  { pose proof (ident_len_pos c r Halpha) as Hlen. rewrite <- Hnext in Hlen.
    cbn [lookup set_next].
    destruct (resolve (lookup s) (next s) (ident_len (next s))) as [sym|];
      repeat match goal with
      | |- context [if ?b then _ else _] => destruct b
      end;
      cbn [stype su scontext lookup start next set_type set_token set_next
           set_context];
      repeat split; right; now apply Hdrop. }
  destruct (infix_of c);
    repeat match goal with
    | |- context [if ?b then _ else _] => destruct b
    end;
    cbn [stype su scontext lookup start next set_type set_token set_next
         set_context];
    repeat split; right; now apply Hdrop.
Qed.

Lemma weight_le_succ s : (weight s <= String.length (next s) + 1)%nat.
Proof. unfold weight. destruct (consuming (stype s)); lia. Qed.

Lemma next_token_loop_spec fuel :
  forall s,
    (String.length (next s) < fuel)%nat ->
    stype s = TOK_NULL ->
    tok_ok vars s ->
    tok_ok vars (next_token_loop h fuel s)
    /\ lookup (next_token_loop h fuel s) = lookup s
    /\ start (next_token_loop h fuel s) = start s
    /\ (String.length (next (next_token_loop h fuel s))
        <= String.length (next s))%nat
    /\ (weight (next_token_loop h fuel s) <= String.length (next s))%nat
    /\ stype (next_token_loop h fuel s) <> TOK_NULL.
Proof.
  induction fuel as [|k IH]; intros s Hlen Hnull Hok; [lia|].
  cbn [next_token_loop].
  destruct (Z.eqb_spec (code (char_at (next s) 0)) 0) as [Hc|Hc].
  { destruct Hok as [Hl _]. split; [tok_ok_structural|].
    unfold weight. cbn [stype next lookup start set_type].
    change (consuming TOK_END) with false. cbv iota.
    split; [reflexivity|]. split; [reflexivity|]. split; [nlia|].
    split; [nlia|mask_lia]. }
  pose proof (next_token_step_ok s Hok) as Hok1.
  destruct (next_token_step_progress s Hc) as (Hl1 & Hs1 & Hprog).
  set (s1 := next_token_step h s) in *. clearbody s1.
  destruct (Z.eqb_spec (stype s1) TOK_NULL) as [Hn|Hn].
  - assert (Hlt : (String.length (next s1) < k)%nat).
    { destruct Hprog as [[Hnum _]|Hstrict].
      - rewrite Hnum in Hn. discriminate.
      - clear - Hstrict Hlen. lia. }
    destruct (IH s1 Hlt Hn Hok1) as (H1 & H2 & H3 & H4 & H5 & H6).
    assert (Hle : (String.length (next s1) <= String.length (next s))%nat).
    { destruct Hprog as [[_ Hle]|Hstrict]; [exact Hle|].
      clear - Hstrict. lia. }
    split; [exact H1|]. split; [congruence|]. split; [congruence|].
    split; [clear - H4 Hle; lia|]. split; [clear - H5 Hle; lia|exact H6].
  - split; [exact Hok1|]. split; [exact Hl1|]. split; [exact Hs1|].
    split; [|split; [|exact Hn]].
    + destruct Hprog as [[_ Hle]|Hstrict]; [exact Hle|].
      clear - Hstrict. lia.
    + destruct Hprog as [[Hnum Hle]|Hstrict].
      * unfold weight. rewrite Hnum.
        change (consuming TOK_NUMBER) with false. cbv iota.
        clear - Hle. lia.
      * pose proof (weight_le_succ s1) as Hw. clear - Hstrict Hw. lia.
Qed.

(** The lexer reads forward, leaves a token that is in order, and
    never leaves [TOK_NULL]. *)
Lemma next_token_spec s :
  lookup s = vars ->
  tok_ok vars (next_token h s)
  /\ lookup (next_token h s) = lookup s
  /\ start (next_token h s) = start s
  /\ (String.length (next (next_token h s)) <= String.length (next s))%nat
  /\ (weight (next_token h s) <= String.length (next s))%nat
  /\ stype (next_token h s) <> TOK_NULL.
Proof.
  intros Hl. unfold next_token.
  apply (next_token_loop_spec _ (set_type s TOK_NULL)).
  - cbn [next set_type]. lia.
  - reflexivity.
  - tok_ok_structural.
Qed.

End Lexer.

(** ** The parser builds well-formed trees *)

Section ParserSound.

Variable h : host.
Variable vars : Datatypes.list te_variable.

Lemma advances_refl s : advances s s.
Proof. repeat split; auto. Qed.

Lemma advances_trans s1 s2 s3 :
  advances s1 s2 -> advances s2 s3 -> advances s1 s3.
Proof.
  intros (A1 & A2 & A3 & A4) (B1 & B2 & B3 & B4).
  split; [congruence|]. split; [congruence|]. split; lia.
Qed.

Lemma advances_next_token s : tok_ok vars s -> advances s (next_token h s).
Proof.
  intros [Hl _].
  destruct (next_token_spec h vars s Hl) as (_ & H2 & H3 & H4 & H5 & _).
  split; [exact H2|]. split; [exact H3|]. split; [exact H4|].
  unfold weight in *. destruct (consuming (stype s)); lia.
Qed.

Lemma tok_ok_next_token s : tok_ok vars s -> tok_ok vars (next_token h s).
Proof. intros [Hl _]. now apply next_token_spec. Qed.

Lemma advances_error s : advances s (set_type s TOK_ERROR).
Proof.
  unfold advances, weight. cbn [lookup start next stype set_type].
  change (consuming TOK_ERROR) with false.
  repeat split; auto. destruct (consuming (stype s)); lia.
Qed.

Lemma parsed_error s0 s r :
  tok_ok vars s -> advances s0 s -> parsed vars s0 r (set_type s TOK_ERROR).
Proof.
  intros [Hl _] Hadv. split; [now apply tok_ok_error|].
  split; [eapply advances_trans; [exact Hadv|apply advances_error]|].
  intros Hne. now contradiction Hne.
Qed.

Lemma parsed_trans s0 s1 r s2 :
  advances s0 s1 -> parsed vars s1 r s2 -> parsed vars s0 r s2.
Proof.
  intros Hadv (Hok & Hadv' & Hb). split; [exact Hok|].
  split; [eapply advances_trans; eauto|exact Hb].
Qed.


Lemma binary_node_built t a b :
  binary_operator t = true -> built vars a -> built vars b ->
  built vars (binary_node t a b).
Proof. apply built_binary. Qed.

Lemma binary_loop_sound operand accept :
  sound vars operand ->
  (forall s t, accept s = Some t ->
               binary_operator t = true /\ stype s <> TOK_ERROR) ->
  forall fuel ret s r s',
    tok_ok vars s ->
    (stype s <> TOK_ERROR -> built vars ret) ->
    binary_loop h operand accept fuel ret s = Some (r, s') ->
    parsed vars s r s'.
Proof.
  intros Hop Hacc. induction fuel as [|k IH]; intros ret s r s' Hok Hret;
    cbn [binary_loop]; destruct (accept s) as [t|] eqn:Ht;
    try discriminate;
    try (intros [= <- <-]; split; [exact Hok|];
         split; [apply advances_refl|]; intros Hne; eauto).
  destruct (Hacc s t Ht) as [Hbin Hne].
  destruct (operand (next_token h s)) as [[[f|] s2]|] eqn:Hf;
    try discriminate.
  - pose proof (Hop _ _ _ (tok_ok_next_token s Hok) Hf) as (Hok2 & Hadv2 & Hb2).
    intros Hloop. apply (parsed_trans s s2).
    { eapply advances_trans; [apply advances_next_token; exact Hok|exact Hadv2]. }
    apply (IH (binary_node t ret f) s2 r s' Hok2); [|exact Hloop].
    intros Hne2. destruct (Hb2 Hne2) as (f' & [= <-] & Hbf).
    apply binary_node_built; auto.
  - intros [= <- <-].
    pose proof (Hop _ _ _ (tok_ok_next_token s Hok) Hf) as (Hok2 & Hadv2 & Hb2).
    split; [exact Hok2|]. split.
    { eapply advances_trans; [apply advances_next_token; exact Hok|exact Hadv2]. }
    intros Hne2. destruct (Hb2 Hne2) as (f' & Habs & _). discriminate.
Qed.

Lemma chain_sound first operand accept fuel :
  sound vars first -> sound vars operand ->
  (forall s t, accept s = Some t ->
               binary_operator t = true /\ stype s <> TOK_ERROR) ->
  sound vars (chain h first operand accept fuel).
Proof.
  intros Hfirst Hop Hacc s r s' Hok. unfold chain.
  destruct (first s) as [[[ret|] s1]|] eqn:H1; try discriminate.
  - pose proof (Hfirst _ _ _ Hok H1) as (Hok1 & Hadv1 & Hb1).
    intros Hloop. apply (parsed_trans s s1 r s' Hadv1).
    apply (binary_loop_sound operand accept Hop Hacc fuel ret s1 r s' Hok1);
      [|exact Hloop].
    intros Hne. destruct (Hb1 Hne) as (t & [= <-] & Ht). exact Ht.
  - intros [= <- <-]. exact (Hfirst _ _ _ Hok H1).
Qed.

Lemma is_sep_accepts s t :
  is_sep s = Some t -> binary_operator t = true /\ stype s <> TOK_ERROR.
Proof.
  unfold is_sep. destruct (Z.eqb_spec (stype s) TOK_SEP) as [E|]; [|discriminate].
  intros [= <-]. split; [reflexivity|]. rewrite E. discriminate.
Qed.

Lemma is_infix_accepts ok s t :
  (forall f, ok f = true -> binary_operator f = true) ->
  is_infix s ok = Some t -> binary_operator t = true /\ stype s <> TOK_ERROR.
Proof.
  intros Hok. unfold is_infix.
  destruct (Z.eqb_spec (stype s) TOK_INFIX) as [E|]; [|discriminate].
  destruct (ok (function_of (su s))) eqn:Hf; [|discriminate].
  intros [= <-]. split; [now apply Hok|]. rewrite E. discriminate.
Qed.

Lemma add_sub_is_operator f : is_add_sub f = true -> binary_operator f = true.
Proof. unfold binary_operator. now intros ->. Qed.

Lemma pow_is_operator f : is_pow f = true -> binary_operator f = true.
Proof. unfold binary_operator. intros ->. now rewrite orb_true_r. Qed.

Lemma term_op_is_operator f : is_term_op f = true -> binary_operator f = true.
Proof. unfold binary_operator. intros ->. now rewrite !orb_true_r. Qed.

Lemma parse_postfix_loop_sound lst :
  sound vars lst ->
  forall fuel s left r s',
    tok_ok vars s ->
    built vars left ->
    (TYPE_MASK (type left) = TE_VARIABLE ->
     exists var, In var vars /\ TYPE_MASK (vtype var) = TE_VARIABLE
                 /\ bound left = address var) ->
    parse_postfix_loop h lst fuel s left = Some (r, s') ->
    parsed vars s r s'.
Proof.
  intros Hlst. induction fuel as [|k IH]; intros s left r s' Hok Hleft Hvar;
    cbn [parse_postfix_loop];
    destruct (stype s =? TOK_OPEN_BRACKET); try discriminate;
    try (intros [= <- <-]; split; [exact Hok|];
         split; [apply advances_refl|]; intros _; eauto).
  destruct (Z.eqb_spec (TYPE_MASK (type left)) TE_VARIABLE) as [Hm|Hm];
    cbn [negb].
  2: { intros [= <- <-]. apply parsed_error; [exact Hok|apply advances_refl]. }
  destruct (Hvar Hm) as (var & Hin & Hvm & Hb).
  destruct (lst (next_token h s)) as [[[idx|] s1]|] eqn:Hidx; try discriminate.
  - pose proof (Hlst _ _ _ (tok_ok_next_token s Hok) Hidx) as (Hok1 & Hadv1 & Hb1).
    assert (Hadv : advances s s1).
    { eapply advances_trans; [apply advances_next_token; exact Hok|exact Hadv1]. }
    destruct (Z.eqb_spec (stype s1) TOK_CLOSE_BRACKET) as [Hc|Hc]; cbn [negb].
    2: { intros [= <- <-]. now apply parsed_error. }
    intros Hloop. apply (parsed_trans s (next_token h s1)).
    { eapply advances_trans; [exact Hadv|now apply advances_next_token]. }
    apply (IH _ _ _ _ (tok_ok_next_token s1 Hok1)) in Hloop; [exact Hloop| |].
    + assert (Hne : stype s1 <> TOK_ERROR) by (rewrite Hc; discriminate).
      destruct (Hb1 Hne) as (t & [= <-] & Ht).
      rewrite Hb. now apply (built_array vars var idx).
    + intros Habs. exfalso. cbn in Habs. discriminate.
  - intros [= <- <-].
    pose proof (Hlst _ _ _ (tok_ok_next_token s Hok) Hidx) as (Hok1 & Hadv1 & _).
    apply parsed_error; [exact Hok1|].
    eapply advances_trans; [apply advances_next_token; exact Hok|exact Hadv1].
Qed.

Lemma sign_loop_sound fuel :
  forall sign s sg s1,
    tok_ok vars s ->
    sign_loop h fuel sign s = Some (sg, s1) ->
    tok_ok vars s1 /\ advances s s1.
Proof.
  induction fuel as [|k IH]; intros sign s sg s1 Hok; cbn [sign_loop];
    destruct (is_infix s (fun f => fnptr_eqb f p_add || fnptr_eqb f p_sub));
    try discriminate;
    try (intros [= <- <-]; split; [exact Hok|apply advances_refl]).
  intros Hloop. apply IH in Hloop; [|now apply tok_ok_next_token].
  destruct Hloop as [Hok1 Hadv1]. split; [exact Hok1|].
  eapply advances_trans; [apply advances_next_token; exact Hok|exact Hadv1].
Qed.

Lemma args_loop_sound ex :
  sound vars ex ->
  forall cnt i ps s r i' s',
    tok_ok vars s ->
    Forall (built vars) ps ->
    Z.of_nat (List.length ps) = i ->
    args_loop h ex cnt i ps s = Some (r, i', s') ->
    tok_ok vars s' /\ advances s s'
    /\ (stype s' <> TOK_ERROR ->
        exists ps', r = Some ps' /\ Forall (built vars) ps'
                    /\ (Z.of_nat (List.length ps') = i' + 1
                        \/ i' = i + Z.of_nat cnt)).
Proof.
  intros Hex. induction cnt as [|c IH]; intros i ps s r i' s' Hok Hps Hlen;
    cbn [args_loop].
  { intros [= <- <- <-]. split; [exact Hok|]. split; [apply advances_refl|].
    intros _. exists ps. split; [reflexivity|]. split; [exact Hps|].
    right. lia. }
  destruct (ex (next_token h s)) as [[[a|] s1]|] eqn:Ha; try discriminate.
  - pose proof (Hex _ _ _ (tok_ok_next_token s Hok) Ha) as (Hok1 & Hadv1 & Hb1).
    assert (Hadv : advances s s1).
    { eapply advances_trans; [apply advances_next_token; exact Hok|exact Hadv1]. }
    assert (Hbuilt : stype s1 <> TOK_ERROR -> Forall (built vars) (ps ++ [a])).
    { intros Hne. destruct (Hb1 Hne) as (t & [= <-] & Ht).
      apply Forall_app. split; [exact Hps|]. now constructor. }
    assert (Hl : Z.of_nat (List.length (ps ++ [a])) = i + 1).
    { rewrite length_app. simpl. lia. }
    destruct (Z.eqb_spec (stype s1) TOK_SEP) as [Hsep|Hsep]; cbn [negb].
    + intros Hloop.
      assert (Hne : stype s1 <> TOK_ERROR) by (rewrite Hsep; discriminate).
      apply (IH _ _ _ _ _ _ Hok1 (Hbuilt Hne) Hl) in Hloop.
      destruct Hloop as (Hok' & Hadv' & Hb').
      split; [exact Hok'|]. split; [eapply advances_trans; eauto|].
      intros Hne'. destruct (Hb' Hne') as (ps' & Hr & Hall & Hcount).
      exists ps'. split; [exact Hr|]. split; [exact Hall|].
      destruct Hcount as [Hc|Hc]; [now left|right; lia].
    + intros [= <- <- <-]. split; [exact Hok1|]. split; [exact Hadv|].
      intros Hne. exists (ps ++ [a]). split; [reflexivity|].
      split; [now apply Hbuilt|]. left. exact Hl.
  - intros [= <- <- <-].
    pose proof (Hex _ _ _ (tok_ok_next_token s Hok) Ha) as (Hok1 & Hadv1 & Hb1).
    split; [exact Hok1|]. split.
    { eapply advances_trans; [apply advances_next_token; exact Hok|exact Hadv1]. }
    intros Hne. destruct (Hb1 Hne) as (t & Habs & _). discriminate.
Qed.

Lemma call_node_built s args :
  tok_ok vars s ->
  TE_FUNCTION 0 <= TYPE_MASK (stype s) <= TE_CLOSURE 7 ->
  Forall (built vars) args ->
  Z.of_nat (List.length args) = ARITY (stype s) ->
  built vars (with_parameters (call_node s) args).
Proof.
  intros (_ & _ & Hcall) Hm Hargs Hlen.
  destruct (Hcall Hm) as (sym & Hres & Hty & Hsu & Hcx).
  pose proof (built_call vars sym args Hres) as Hb.
  rewrite <- Hty in Hb. specialize (Hb Hm Hlen Hargs).
  unfold call_node, with_parameters, with_function, with_context, new_expr.
  rewrite Hsu. cbn [function_of].
  destruct (IS_CLOSURE (stype s)) eqn:Hc; cbn [type u context parameters];
    [rewrite (Hcx eq_refl)|]; exact Hb.
Qed.

Lemma call_node_parameters s : with_parameters (call_node s) [] = call_node s.
Proof.
  unfold call_node, with_parameters, with_function, with_context, new_expr.
  rewrite firstn_nil. now destruct (IS_CLOSURE (stype s)).
Qed.

Theorem parser_sound n :
  sound vars (list_ h n) /\ sound vars (expr h n) /\ sound vars (term h n)
  /\ sound vars (factor h n) /\ sound vars (power h n)
  /\ sound vars (base h n).
Proof.
  induction n as [|k (Hlist & Hexpr & Hterm & Hfactor & Hpower & Hbase)].
  { repeat match goal with |- _ /\ _ => split end;
      intros s r s' _ H; discriminate H. }
  split; [|split; [|split; [|split; [|split]]]].
  - intros s r s' Hok H.
    exact (chain_sound (expr h k) (expr h k) is_sep k Hexpr Hexpr
             is_sep_accepts s r s' Hok H).
  - intros s r s' Hok H.
    exact (chain_sound (term h k) (term h k) _ k Hterm Hterm
             (fun s t => is_infix_accepts _ s t add_sub_is_operator)
             s r s' Hok H).
  - intros s r s' Hok H.
    exact (chain_sound (factor h k) (factor h k) _ k Hfactor Hfactor
             (fun s t => is_infix_accepts _ s t term_op_is_operator)
             s r s' Hok H).
  - intros s r s' Hok H.
    exact (chain_sound (power h k) (power h k) _ k Hpower Hpower
             (fun s t => is_infix_accepts _ s t pow_is_operator)
             s r s' Hok H).
  - intros s r s' Hok. cbn [power].
    destruct (sign_loop h k 1 s) as [[sg s1]|] eqn:Hsign; [|discriminate].
    destruct (sign_loop_sound k 1 s sg s1 Hok Hsign) as [Hok1 Hadv1].
    destruct (sg =? 1).
    { intros H. exact (parsed_trans s s1 r s' Hadv1 (Hbase _ _ _ Hok1 H)). }
    destruct (base h k s1) as [[[b|] s2]|] eqn:Hb; try discriminate;
      intros [= <- <-]; apply (parsed_trans s s1 _ _ Hadv1);
      destruct (Hbase _ _ _ Hok1 Hb) as (Hok2 & Hadv2 & Hb2);
      (split; [exact Hok2|]; split; [exact Hadv2|]); intros Hne;
      destruct (Hb2 Hne) as (t & [= <-] & Ht).
    exists (negate_node b). split; [reflexivity|]. now apply built_negate.
  - intros s r s' Hok. cbn [base].
    set (m := TYPE_MASK (stype s)).
    assert (Hnext := tok_ok_next_token s Hok).
    assert (Hadv := advances_next_token s Hok).
    destruct (Z.eqb_spec m TOK_NUMBER) as [Hnum|Hnum].
    { intros [= <- <-]. split; [exact Hnext|]. split; [exact Hadv|].
      intros _. eexists. split; [reflexivity|]. apply built_constant. }
    destruct (Z.eqb_spec m TOK_VARIABLE) as [Hvar|Hvar].
    { destruct Hok as (Hl & Hv & Hc).
      destruct (Hv Hvar) as (var & Hin & Hvm & Hsu).
      intros H. apply (parsed_trans s (next_token h s) r s' Hadv).
      apply (parse_postfix_loop_sound (list_ h k) Hlist k _ _ _ _ Hnext)
        in H; [exact H| |].
      - rewrite Hsu. now apply (built_variable vars var).
      - intros _. exists var. rewrite Hsu. now repeat split. }
    destruct ((m =? TE_FUNCTION 0) || (m =? TE_CLOSURE 0)) eqn:H0.
    { assert (Hm : TE_FUNCTION 0 <= m <= TE_CLOSURE 7).
      { apply orb_prop in H0 as [E|E]; apply Z.eqb_eq in E;
          rewrite E; clear; mask_lia. }
      assert (Hret : built vars (call_node s)).
      { rewrite <- call_node_parameters.
        apply call_node_built; auto.
        rewrite (ARITY_of_call _ Hm). fold m.
        apply orb_prop in H0 as [E|E]; apply Z.eqb_eq in E; now rewrite E. }
      destruct (stype (next_token h s) =? TOK_OPEN).
      2: { intros [= <- <-]. split; [exact Hnext|]. split; [exact Hadv|].
           intros _. eauto. }
      assert (Hnext2 := tok_ok_next_token _ Hnext).
      assert (Hadv2 : advances s (next_token h (next_token h s))).
      { eapply advances_trans; [exact Hadv|now apply advances_next_token]. }
      destruct (stype (next_token h (next_token h s)) =? TOK_CLOSE);
        cbn [negb]; intros [= <- <-].
      - split; [now apply tok_ok_next_token|]. split.
        { eapply advances_trans; [exact Hadv2|now apply advances_next_token]. }
        intros _. eauto.
      - now apply parsed_error. }
    destruct ((m =? TE_FUNCTION 1) || (m =? TE_CLOSURE 1)) eqn:H1.
    { assert (Hm : TE_FUNCTION 0 <= m <= TE_CLOSURE 7).
      { apply orb_prop in H1 as [E|E]; apply Z.eqb_eq in E;
          rewrite E; clear; mask_lia. }
      destruct (power h k (next_token h s)) as [[[p|] s1]|] eqn:Hp;
        try discriminate; intros [= <- <-];
        destruct (Hpower _ _ _ Hnext Hp) as (Hok1 & Hadv1 & Hb1);
        (split; [exact Hok1|]; split;
         [eapply advances_trans; [exact Hadv|exact Hadv1]|]);
        intros Hne; destruct (Hb1 Hne) as (t & [= <-] & Ht).
      eexists. split; [reflexivity|].
      apply call_node_built; auto.
      rewrite (ARITY_of_call _ Hm). fold m.
      apply orb_prop in H1 as [E|E]; apply Z.eqb_eq in E; now rewrite E. }
    destruct (((TE_FUNCTION 2 <=? m) && (m <=? TE_FUNCTION 7))
              || ((TE_CLOSURE 2 <=? m) && (m <=? TE_CLOSURE 7))) eqn:HN.
    { assert (Hm : TE_FUNCTION 0 <= m <= TE_CLOSURE 7).
      { apply orb_prop in HN as [E|E]; apply andb_prop in E as [E1 E2];
          apply Z.leb_le in E1, E2; clear - E1 E2; mask_lia. }
      destruct (Z.eqb_spec (stype (next_token h s)) TOK_OPEN) as [Ho|Ho];
        cbn [negb].
      2: { intros [= <- <-]. now apply parsed_error. }
      destruct (args_loop h (expr h k) (Z.to_nat (ARITY (stype s))) 0 []
                  (next_token h s)) as [[[[ps|] i] s1]|] eqn:Hargs;
        try discriminate;
        destruct (args_loop_sound (expr h k) Hexpr _ _ _ _ _ _ _ Hnext
                    (Forall_nil _) eq_refl Hargs) as (Hok1 & Hadv1 & Hb1).
      - assert (Hadv' : advances s s1)
          by (eapply advances_trans; [exact Hadv|exact Hadv1]).
        destruct (Z.eqb_spec (stype s1) TOK_CLOSE) as [Hc|Hc]; cbn [negb];
          [|intros [= <- <-]; now apply parsed_error].
        destruct (Z.eqb_spec i (ARITY (stype s) - 1)) as [Hi|Hi]; cbn [negb];
          [|intros [= <- <-]; now apply parsed_error].
        intros [= <- <-]. split; [now apply tok_ok_next_token|]. split.
        { eapply advances_trans; [exact Hadv'|now apply advances_next_token]. }
        intros _.
        assert (Hne : stype s1 <> TOK_ERROR) by (rewrite Hc; discriminate).
        destruct (Hb1 Hne) as (ps' & [= <-] & Hall & Hcount).
        eexists. split; [reflexivity|].
        apply call_node_built; auto.
        assert (0 <= ARITY (stype s)).
        { rewrite (ARITY_of_call _ Hm). apply Z.land_nonneg. lia. }
        destruct Hcount as [Hcount|Hcount]; lia.
      - intros [= <- <-]. split; [exact Hok1|]. split.
        { eapply advances_trans; [exact Hadv|exact Hadv1]. }
        intros Hne. destruct (Hb1 Hne) as (ps' & Habs & _). discriminate. }
    destruct (m =? TOK_OPEN).
    { destruct (list_ h k (next_token h s)) as [[[ret|] s1]|] eqn:Hl;
        try discriminate;
        destruct (Hlist _ _ _ Hnext Hl) as (Hok1 & Hadv1 & Hb1);
        assert (Hadv' : advances s s1)
          by (eapply advances_trans; [exact Hadv|exact Hadv1]).
      - destruct (Z.eqb_spec (stype s1) TOK_CLOSE) as [Hc|Hc]; cbn [negb];
          intros [= <- <-]; [|now apply parsed_error].
        split; [now apply tok_ok_next_token|]. split.
        { eapply advances_trans; [exact Hadv'|now apply advances_next_token]. }
        intros _.
        assert (Hne : stype s1 <> TOK_ERROR) by (rewrite Hc; discriminate).
        destruct (Hb1 Hne) as (t & [= <-] & Ht). eauto.
      - intros [= <- <-]. split; [exact Hok1|]. split; [exact Hadv'|].
        intros Hne. destruct (Hb1 Hne) as (t & Habs & _). discriminate. }
    intros [= <- <-]. apply parsed_error; [exact Hok|apply advances_refl].
Qed.

End ParserSound.

(** ** The parser returns *)

Section ParserTotal.

Variable h : host.
Variable vars : Datatypes.list te_variable.

Lemma consuming_of_mask t :
  TYPE_MASK t <> TOK_ERROR -> TYPE_MASK t <> TOK_END ->
  TYPE_MASK t <> TOK_NUMBER -> consuming t = true.
Proof.
  intros H1 H2 H3. unfold consuming.
  destruct (Z.eqb_spec t TOK_END) as [->|_]; [now contradiction H2|].
  destruct (Z.eqb_spec t TOK_NUMBER) as [->|_]; [now contradiction H3|].
  destruct (Z.eqb_spec t TOK_ERROR) as [->|_]; [now contradiction H1|].
  reflexivity.
Qed.

Lemma weight_next_token s :
  tok_ok vars s -> consuming (stype s) = true ->
  (weight (next_token h s) + 1 <= weight s)%nat.
Proof.
  intros [Hl _] Hc.
  destruct (next_token_spec h vars s Hl) as (_ & _ & _ & _ & H5 & _).
  unfold weight in *. rewrite Hc. lia.
Qed.

Lemma weight_next_token_le s :
  tok_ok vars s -> (weight (next_token h s) <= weight s)%nat.
Proof. intros Hok. now destruct (advances_next_token h vars s Hok) as (_ & _ & _ & H). Qed.

Lemma binary_loop_total operand accept (W : nat) :
  sound vars operand ->
  (forall s t, accept s = Some t -> consuming (stype s) = true) ->
  (forall s, tok_ok vars s -> (weight s + 1 <= W)%nat -> operand s <> None) ->
  forall fuel ret s,
    tok_ok vars s -> (weight s <= W)%nat -> (weight s <= fuel)%nat ->
    binary_loop h operand accept fuel ret s <> None.
Proof.
  intros Hsound Hacc Htotal.
  induction fuel as [|k IH]; intros ret s Hok HW Hfuel; cbn [binary_loop];
    destruct (accept s) as [t|] eqn:Ht; try discriminate;
    pose proof (weight_next_token s Hok (Hacc s t Ht)) as Hw; [lia|].
  destruct (operand (next_token h s)) as [[[f|] s2]|] eqn:Hf;
    try discriminate.
  - destruct (Hsound _ _ _ (tok_ok_next_token h vars s Hok) Hf)
      as (Hok2 & (_ & _ & _ & Hw2) & _).
    apply IH; [exact Hok2|lia|lia].
  - exfalso. apply (Htotal (next_token h s)); [|lia|exact Hf].
    now apply tok_ok_next_token.
Qed.

Lemma chain_total first operand accept (W fuel : nat) s :
  sound vars first -> sound vars operand ->
  (forall s t, accept s = Some t -> consuming (stype s) = true) ->
  (forall s, tok_ok vars s -> (weight s <= W)%nat -> first s <> None) ->
  (forall s, tok_ok vars s -> (weight s + 1 <= W)%nat -> operand s <> None) ->
  tok_ok vars s -> (weight s <= W)%nat -> (W <= fuel)%nat ->
  chain h first operand accept fuel s <> None.
Proof.
  intros Hf Ho Hacc Hft Hot Hok HW Hfuel. unfold chain.
  destruct (first s) as [[[ret|] s1]|] eqn:H1; try discriminate.
  - destruct (Hf _ _ _ Hok H1) as (Hok1 & (_ & _ & _ & Hw1) & _).
    apply (binary_loop_total operand accept W); auto; lia.
  - exfalso. exact (Hft s Hok HW H1).
Qed.

Lemma is_sep_consuming s t : is_sep s = Some t -> consuming (stype s) = true.
Proof.
  unfold is_sep. destruct (Z.eqb_spec (stype s) TOK_SEP) as [->|];
    [reflexivity|discriminate].
Qed.

Lemma is_infix_consuming ok s t :
  is_infix s ok = Some t -> consuming (stype s) = true.
Proof.
  unfold is_infix. destruct (Z.eqb_spec (stype s) TOK_INFIX) as [->|];
    [reflexivity|discriminate].
Qed.

Lemma sign_loop_total fuel :
  forall sign s,
    tok_ok vars s -> (weight s <= fuel)%nat ->
    sign_loop h fuel sign s <> None.
Proof.
  induction fuel as [|k IH]; intros sign s Hok Hfuel; cbn [sign_loop];
    destruct (is_infix s (fun f => fnptr_eqb f p_add || fnptr_eqb f p_sub))
      as [f|] eqn:Hf; try discriminate;
    pose proof (weight_next_token s Hok (is_infix_consuming _ _ _ Hf)) as Hw;
    [lia|].
  apply IH; [now apply tok_ok_next_token|lia].
Qed.

Lemma parse_postfix_loop_total lst (W : nat) :
  sound vars lst ->
  (forall s, tok_ok vars s -> (weight s + 1 <= W)%nat -> lst s <> None) ->
  forall fuel s left,
    tok_ok vars s -> (weight s <= W)%nat -> (weight s <= fuel)%nat ->
    parse_postfix_loop h lst fuel s left <> None.
Proof.
  intros Hsound Htotal.
  induction fuel as [|k IH]; intros s left Hok HW Hfuel;
    cbn [parse_postfix_loop];
    destruct (Z.eqb_spec (stype s) TOK_OPEN_BRACKET) as [Hb|Hb];
    try discriminate;
    assert (Hc : consuming (stype s) = true) by (now rewrite Hb);
    pose proof (weight_next_token s Hok Hc) as Hw; [lia|].
  destruct (negb (TYPE_MASK (type left) =? TE_VARIABLE)); [discriminate|].
  destruct (lst (next_token h s)) as [[[idx|] s1]|] eqn:Hidx;
    try discriminate.
  - destruct (negb (stype s1 =? TOK_CLOSE_BRACKET)); [discriminate|].
    destruct (Hsound _ _ _ (tok_ok_next_token h vars s Hok) Hidx)
      as (Hok1 & (_ & _ & _ & Hw1) & _).
    pose proof (weight_next_token_le s1 Hok1) as Hw2.
    apply IH; [now apply tok_ok_next_token|lia|lia].
  - exfalso. apply (Htotal (next_token h s)); [|lia|exact Hidx].
    now apply tok_ok_next_token.
Qed.

Lemma args_loop_total ex (W : nat) :
  sound vars ex ->
  (forall s, tok_ok vars s -> (weight s <= W)%nat -> ex s <> None) ->
  forall cnt i ps s,
    tok_ok vars s -> (weight s <= W)%nat ->
    args_loop h ex cnt i ps s <> None.
Proof.
  intros Hsound Htotal.
  induction cnt as [|c IH]; intros i ps s Hok HW; cbn [args_loop];
    [discriminate|].
  pose proof (weight_next_token_le s Hok) as Hw.
  destruct (ex (next_token h s)) as [[[a|] s1]|] eqn:Ha; try discriminate.
  - destruct (negb (stype s1 =? TOK_SEP)); [discriminate|].
    destruct (Hsound _ _ _ (tok_ok_next_token h vars s Hok) Ha)
      as (Hok1 & (_ & _ & _ & Hw1) & _).
    apply IH; [exact Hok1|lia].
  - exfalso. apply (Htotal (next_token h s)); [|lia|exact Ha].
    now apply tok_ok_next_token.
Qed.

(** Six units of budget per unit of weight are enough, plus the depth
    of the function in the chain from [list_] down to [base]. *)
Theorem parser_total n :
  forall s, tok_ok vars s ->
    ((6 * weight s + 6 <= n)%nat -> list_ h n s <> None)
    /\ ((6 * weight s + 5 <= n)%nat -> expr h n s <> None)
    /\ ((6 * weight s + 4 <= n)%nat -> term h n s <> None)
    /\ ((6 * weight s + 3 <= n)%nat -> factor h n s <> None)
    /\ ((6 * weight s + 2 <= n)%nat -> power h n s <> None)
    /\ ((6 * weight s + 1 <= n)%nat -> base h n s <> None).
Proof.
  induction n as [|k IH]; intros s Hok.
  { repeat match goal with |- _ /\ _ => split end; intros Hn; lia. }
  destruct (parser_sound h vars k)
    as (Slist & Sexpr & Sterm & Sfactor & Spower & Sbase).
  assert (Tlist : forall s', tok_ok vars s' ->
            (6 * weight s' + 6 <= k)%nat -> list_ h k s' <> None)
    by (intros s' Hs'; apply (IH s' Hs')).
  assert (Texpr : forall s', tok_ok vars s' ->
            (6 * weight s' + 5 <= k)%nat -> expr h k s' <> None)
    by (intros s' Hs'; apply (IH s' Hs')).
  assert (Tterm : forall s', tok_ok vars s' ->
            (6 * weight s' + 4 <= k)%nat -> term h k s' <> None)
    by (intros s' Hs'; apply (IH s' Hs')).
  assert (Tfactor : forall s', tok_ok vars s' ->
            (6 * weight s' + 3 <= k)%nat -> factor h k s' <> None)
    by (intros s' Hs'; apply (IH s' Hs')).
  assert (Tpower : forall s', tok_ok vars s' ->
            (6 * weight s' + 2 <= k)%nat -> power h k s' <> None)
    by (intros s' Hs'; apply (IH s' Hs')).
  assert (Tbase : forall s', tok_ok vars s' ->
            (6 * weight s' + 1 <= k)%nat -> base h k s' <> None)
    by (intros s' Hs'; apply (IH s' Hs')).
  clear IH.
  split; [|split; [|split; [|split; [|split]]]]; intros Hn.
  - apply (chain_total (expr h k) (expr h k) is_sep (weight s) k s);
      [exact Sexpr|exact Sexpr|exact is_sep_consuming
      |intros s' Hs' Hw; apply Texpr; auto; lia
      |intros s' Hs' Hw; apply Texpr; auto; lia|exact Hok|lia|lia].
  - apply (chain_total (term h k) (term h k) _ (weight s) k s);
      [exact Sterm|exact Sterm|intros s' t; apply is_infix_consuming
      |intros s' Hs' Hw; apply Tterm; auto; lia
      |intros s' Hs' Hw; apply Tterm; auto; lia|exact Hok|lia|lia].
  - apply (chain_total (factor h k) (factor h k) _ (weight s) k s);
      [exact Sfactor|exact Sfactor|intros s' t; apply is_infix_consuming
      |intros s' Hs' Hw; apply Tfactor; auto; lia
      |intros s' Hs' Hw; apply Tfactor; auto; lia|exact Hok|lia|lia].
  - apply (chain_total (power h k) (power h k) _ (weight s) k s);
      [exact Spower|exact Spower|intros s' t; apply is_infix_consuming
      |intros s' Hs' Hw; apply Tpower; auto; lia
      |intros s' Hs' Hw; apply Tpower; auto; lia|exact Hok|lia|lia].
  - cbn [power].
    destruct (sign_loop h k 1 s) as [[sg s1]|] eqn:Hsign.
    2: { exfalso. apply (sign_loop_total k 1 s Hok); [lia|exact Hsign]. }
    destruct (sign_loop_sound h vars k 1 s sg s1 Hok Hsign)
      as [Hok1 (_ & _ & _ & Hw1)].
    assert (Hb : base h k s1 <> None) by (apply Tbase; auto; lia).
    destruct (sg =? 1); [exact Hb|].
    destruct (base h k s1) as [[[b|] s2]|]; try discriminate.
    now contradiction Hb.
  - cbn [base]. set (m := TYPE_MASK (stype s)).
    assert (Hnext := tok_ok_next_token h vars s Hok).
    assert (Hle := weight_next_token_le s Hok).
    destruct (Z.eqb_spec m TOK_NUMBER) as [Hnum|Hnum]; [discriminate|].
    assert (Hcons : m <> TOK_ERROR -> m <> TOK_END ->
              (weight (next_token h s) + 1 <= weight s)%nat).
    { intros H1 H2. apply weight_next_token; [exact Hok|].
      now apply consuming_of_mask. }
    destruct (Z.eqb_spec m TOK_VARIABLE) as [Hvar|Hvar].
    { assert (Hw : (weight (next_token h s) + 1 <= weight s)%nat)
        by (apply Hcons; rewrite Hvar; discriminate).
      apply (parse_postfix_loop_total (list_ h k) (weight (next_token h s)));
        auto; try lia.
      intros s' Hs' Hw'. apply Tlist; auto. lia. }
    destruct ((m =? TE_FUNCTION 0) || (m =? TE_CLOSURE 0)).
    { destruct (stype (next_token h s) =? TOK_OPEN); [|discriminate].
      destruct (negb (stype (next_token h (next_token h s)) =? TOK_CLOSE));
        discriminate. }
    destruct ((m =? TE_FUNCTION 1) || (m =? TE_CLOSURE 1)) eqn:H1.
    { assert (Hw : (weight (next_token h s) + 1 <= weight s)%nat).
      { apply Hcons; apply orb_prop in H1 as [E|E]; apply Z.eqb_eq in E;
          rewrite E; discriminate. }
      assert (Hp : power h k (next_token h s) <> None)
        by (apply Tpower; auto; lia).
      destruct (power h k (next_token h s)) as [[[p|] s1]|];
        try discriminate. now contradiction Hp. }
    destruct (((TE_FUNCTION 2 <=? m) && (m <=? TE_FUNCTION 7))
              || ((TE_CLOSURE 2 <=? m) && (m <=? TE_CLOSURE 7))) eqn:HN.
    { assert (Hw : (weight (next_token h s) + 1 <= weight s)%nat).
      { apply Hcons; apply orb_prop in HN as [E|E];
          apply andb_prop in E as [E1 E2]; apply Z.leb_le in E1, E2;
          clear - E1 E2; mask_lia. }
      destruct (negb (stype (next_token h s) =? TOK_OPEN)); [discriminate|].
      assert (Ha : args_loop h (expr h k) (Z.to_nat (ARITY (stype s))) 0 []
                     (next_token h s) <> None).
      { apply (args_loop_total (expr h k) (weight (next_token h s)));
          auto. intros s' Hs' Hw'. apply Texpr; auto. lia. }
      destruct (args_loop h (expr h k) (Z.to_nat (ARITY (stype s))) 0 []
                  (next_token h s)) as [[[[ps|] i] s1]|];
        try discriminate; [|now contradiction Ha].
      destruct (negb (stype s1 =? TOK_CLOSE) || negb (i =? ARITY (stype s) - 1));
        discriminate. }
    destruct (Z.eqb_spec m TOK_OPEN) as [Ho|Ho]; [|discriminate].
    assert (Hw : (weight (next_token h s) + 1 <= weight s)%nat)
      by (apply Hcons; rewrite Ho; discriminate).
    assert (Hl : list_ h k (next_token h s) <> None)
      by (apply Tlist; auto; lia).
    destruct (list_ h k (next_token h s)) as [[[ret|] s1]|];
      try discriminate; [|now contradiction Hl].
    destruct (negb (stype s1 =? TOK_CLOSE)); discriminate.
Qed.

End ParserTotal.

(** ** Compiled trees *)

(** Induction on a built tree, with the hypothesis for the children of
    a call. *)
Lemma built_induction (vars : Datatypes.list te_variable)
    (P : te_expr -> Prop) :
  (forall v, P (constant_node v)) ->
  (forall var, In var vars -> TYPE_MASK (vtype var) = TE_VARIABLE ->
               P (variable_node (address var))) ->
  (forall var idx, In var vars -> TYPE_MASK (vtype var) = TE_VARIABLE ->
                   built vars idx -> P idx ->
                   P (array_node (address var) idx)) ->
  (forall sym args,
      resolved vars sym ->
      TE_FUNCTION 0 <= TYPE_MASK (sym_type sym) <= TE_CLOSURE 7 ->
      Z.of_nat (List.length args) = ARITY (sym_type sym) ->
      Forall (built vars) args -> Forall P args ->
      P (mk_expr (sym_type sym) (Function (sym_function sym)) args
           (if IS_CLOSURE (sym_type sym) then sym_context sym else 0))) ->
  (forall t a b, binary_operator t = true ->
                 built vars a -> P a -> built vars b -> P b ->
                 P (binary_node t a b)) ->
  (forall a, built vars a -> P a -> P (negate_node a)) ->
  forall t, built vars t -> P t.
Proof.
  intros Hc Hv Ha Hcall Hb Hn. fix IH 2. intros t Ht.
  destruct Ht as [v|var Hin Hm|var idx Hin Hm Hidx|sym args Hres Hm Hlen Hargs
                 |f a b Hop Hba Hbb|a Hba].
  - apply Hc.
  - now apply Hv.
  - apply Ha; auto.
  - apply Hcall; auto.
    clear Hlen.
    induction Hargs as [|x l Hx Hl IHl]; constructor; [apply IH; exact Hx|].
    exact IHl.
  - apply Hb; auto.
  - apply Hn; auto.
Qed.

Lemma IS_CLOSURE_of_closure ty :
  TE_CLOSURE 0 <= TYPE_MASK ty <= TE_CLOSURE 7 -> IS_CLOSURE ty = true.
Proof.
  intros Hm. unfold IS_CLOSURE.
  rewrite (land_mask ty TE_CLOSURE0) by reflexivity.
  set (m := TYPE_MASK ty) in *.
  assert (Hcases : m = 16 \/ m = 17 \/ m = 18 \/ m = 19 \/ m = 20 \/ m = 21
                   \/ m = 22 \/ m = 23) by mask_lia.
  clearbody m.
  repeat (destruct Hcases as [->|Hcases]; [reflexivity|]).
  now subst m.
Qed.

Lemma binary_node_eq t a b :
  binary_node t a b
  = mk_expr (Z.lor (TE_FUNCTION 2) TE_FLAG_PURE) (Function t) [a; b] 0.
Proof. reflexivity. Qed.

Lemma builtins_are_static b a : In b functions -> baddress b <> p_host a.
Proof.
  assert (H : Forall (fun b => forall a, baddress b <> p_host a) functions).
  { unfold functions. repeat constructor; discriminate. }
  rewrite Forall_forall in H. intros Hin. now apply H.
Qed.

Lemma built_flag_on_call vars t : built vars t -> every_node flag_on_call t.
Proof.
  induction 1 as [v|var Hin Hm|var idx Hin Hm Hidx IH
                 |sym args Hres Hm Hlen Hargs IH|f a b Hop Hba IHa Hbb IHb
                 |a Hba IHa] using built_induction;
    try rewrite binary_node_eq;
    apply every_node_unfold; (split; [|auto]);
    try (intros Hp; discriminate Hp);
    try (intros _; cbn; clear; mask_lia).
  intros _. exact Hm.
Qed.

Lemma built_flag_honoured h vars t :
  purity_honoured h vars -> built vars t -> every_node (flag_honoured h) t.
Proof.
  intros Hpure.
  induction 1 as [v|var Hin Hm|var idx Hin Hm Hidx IH
                 |sym args Hres Hm Hlen Hargs IH|f a b Hop Hba IHa Hbb IHb
                 |a Hba IHa] using built_induction;
    try rewrite binary_node_eq;
    apply every_node_unfold; (split; [|auto]);
    try (intros Hp; discriminate Hp).
  - intros Hp a Ha. cbn in Ha.
    destruct Hres as [(var & Hin & ->)|(b & Hin & ->)].
    + cbn in Ha. injection Ha as <-. cbn in Hp, Hm.
      unfold context_passed. cbn [type context symbol_of_var sym_type
                                  sym_context].
      pose proof (Hpure var Hin Hp) as Hvar.
      unfold call_context in *.
      destruct ((TE_CLOSURE 0 <=? TYPE_MASK (vtype var))
                && (TYPE_MASK (vtype var) <=? TE_CLOSURE 7)) eqn:Hc;
        [|exact Hvar].
      apply andb_prop in Hc as [Hc1 Hc2]. apply Z.leb_le in Hc1, Hc2.
      rewrite IS_CLOSURE_of_closure by lia. exact Hvar.
    + cbn in Ha. exfalso. exact (builtins_are_static b a Hin Ha).
  - intros _ x Hx. cbn in Hx. subst f. discriminate Hop.
  - intros _ x Hx. discriminate Hx.
Qed.

Lemma first_state_ok h expression variables :
  tok_ok variables (first_state h expression variables)
  /\ start (first_state h expression variables) = expression
  /\ (String.length (next (first_state h expression variables))
      <= String.length expression)%nat
  /\ (weight (first_state h expression variables)
      <= String.length expression)%nat.
Proof.
  unfold first_state.
  destruct (next_token_spec h variables (initial_state expression variables)
              eq_refl) as (H1 & _ & H3 & H4 & H5 & _).
  split; [exact H1|]. split; [exact H3|]. split; [exact H4|exact H5].
Qed.

(** The parser returns on every input. *)
Lemma list__total h expression variables :
  list_ h (parse_fuel expression) (first_state h expression variables)
  <> None.
Proof.
  destruct (first_state_ok h expression variables) as (Hok & _ & _ & Hw).
  apply (parser_total h variables); [exact Hok|]. unfold parse_fuel. lia.
Qed.

(** What the parser returns without error is a built tree. *)
Lemma list__built h expression variables root s :
  list_ h (parse_fuel expression) (first_state h expression variables)
  = Some (Some root, s) ->
  stype s = TOK_END ->
  built variables root.
Proof.
  intros Hparse Hend.
  destruct (first_state_ok h expression variables) as (Hok & _).
  destruct (parser_sound h variables (parse_fuel expression)) as (Hlist & _).
  destruct (Hlist _ _ _ Hok Hparse) as (_ & _ & Hb).
  destruct Hb as (t & [= <-] & Ht); [rewrite Hend; discriminate|exact Ht].
Qed.

(** C1.  On every tree the parser hands to the folding pass, and for
    every state of the caller at compile time and at evaluation time,
    the folded tree evaluates to what the tree evaluated to, provided
    the callables registered as pure are pure. *)
Theorem constant_folding_preserves_evaluation (h : host)
    (expression : string) (variables : Datatypes.list te_variable)
    (root : te_expr) (s : state) (w0 w : world h) :
  purity_honoured h variables ->
  list_ h (parse_fuel expression) (first_state h expression variables)
  = Some (Some root, s) ->
  stype s = TOK_END ->
  te_eval h (fst (optimize h root w0)) w = te_eval h root w.
Proof.
  intros Hpure Hparse Hend.
  pose proof (list__built h expression variables root s Hparse Hend) as Hb.
  apply (optimize_same_child h root).
  - now apply (built_flag_on_call variables).
  - now apply (built_flag_honoured h variables).
Qed.

Lemma example_purity_honoured : purity_honoured example_host example_vars.
Proof.
  intros var Hin Hp.
  repeat (destruct Hin as [<-|Hin]; [try discriminate Hp|]);
    [|contradiction].
  intros args w w'. cbn. now destruct args as [|x [|y args]].
Defined.

Lemma constant_folding_preserves_evaluation_witness :
  exists root s,
    list_ example_host (parse_fuel "twice(4)+tick+arr1[1]")
      (first_state example_host "twice(4)+tick+arr1[1]" example_vars)
    = Some (Some root, s)
    /\ te_eval example_host
         (fst (optimize example_host root example_memory)) example_memory
       = te_eval example_host root example_memory.
Proof.
  eexists. eexists. split.
  - vm_compute. reflexivity.
  - eapply (constant_folding_preserves_evaluation example_host
              "twice(4)+tick+arr1[1]" example_vars).
    + exact example_purity_honoured.
    + vm_compute. reflexivity.
    + reflexivity.
Defined.

(** ** Folding of purely constant input *)

Section FoldTotal.

Variable h : host.

Lemma opt_params_known args :
  Forall (fun p => forall w, type (fst (optimize h p w)) = TE_CONSTANT) args ->
  forall k w, k = List.length args ->
    snd (fst (opt_params h args k w)) = true.
Proof.
  induction 1 as [|p args Hp _ IH]; intros [|k] w Hk; simpl in *;
    try reflexivity; try discriminate.
  specialize (Hp w). destruct (optimize h p w) as [p' w1].
  specialize (IH k w1 ltac:(lia)).
  destruct (opt_params h args k w1) as [[l known] w2]. simpl in *.
  rewrite Hp, IH. reflexivity.
Qed.

Lemma optimize_folds ty un args cx w :
  ty <> TE_CONSTANT -> ty <> TE_VARIABLE -> IS_PURE ty = true ->
  Z.of_nat (List.length args) = ARITY ty ->
  Forall (fun p => forall w, type (fst (optimize h p w)) = TE_CONSTANT) args ->
  type (fst (optimize h (mk_expr ty un args cx) w)) = TE_CONSTANT
  /\ parameters (fst (optimize h (mk_expr ty un args cx) w)) = [].
Proof.
  intros Hc Hv Hp Hlen Hargs. rewrite optimize_unfold. cbv zeta.
  apply Z.eqb_neq in Hc, Hv. rewrite Hc, Hv, Hp.
  pose proof (opt_params_known args Hargs (Z.to_nat (ARITY ty)) w
                ltac:(lia)) as Hk.
  destruct (opt_params h args (Z.to_nat (ARITY ty)) w) as [[ps' known] w'].
  simpl in Hk. subst known.
  destruct (te_eval h (mk_expr ty un ps' cx) w') as [v w'']. split; reflexivity.
Qed.

Lemma call_code_not_leaf ty :
  TE_FUNCTION 0 <= TYPE_MASK ty <= TE_CLOSURE 7 ->
  ty <> TE_CONSTANT /\ ty <> TE_VARIABLE.
Proof. intros Hm. split; intros ->; mask_lia. Qed.

(** Over a table without variables and impure callables, the folding
    pass turns every built tree into a literal constant. *)
Lemma built_folds_to_constant vars t :
  purely_constant vars -> built vars t ->
  forall w, type (fst (optimize h t w)) = TE_CONSTANT
            /\ parameters (fst (optimize h t w)) = [].
Proof.
  intros Hvars.
  induction 1 as [v|var Hin Hm|var idx Hin Hm Hidx IH
                 |sym args Hres Hm Hlen Hargs IH|f a b Hop Hba IHa Hbb IHb
                 |a Hba IHa] using built_induction; intros w.
  - split; reflexivity.
  - destruct (Hvars var Hin) as [Hn _]. contradiction.
  - destruct (Hvars var Hin) as [Hn _]. contradiction.
  - destruct (call_code_not_leaf _ Hm) as [Hc Hv].
    apply optimize_folds; auto.
    + destruct Hres as [(var & Hin & ->)|(b & Hin & ->)].
      * now destruct (Hvars var Hin).
      * now destruct (builtins_are_pure_functions b Hin).
    + rewrite Forall_forall in *. intros p Hp w'. now apply IH.
  - rewrite binary_node_eq. apply optimize_folds; try discriminate;
      try reflexivity.
    repeat constructor; intros w'; [apply IHa|apply IHb].
  - apply optimize_folds; try discriminate; try reflexivity.
    repeat constructor; intros w'; apply IHa.
Qed.

End FoldTotal.



(** ** What [te_compile] reports *)



(** ** Array-index postfix *)




(** ** Argument lists *)

Section Arguments.

Variable h : host.
Variable ex : state -> result.

(** When the loop over the arguments leaves before its counter reaches
    the arity, it has read as many expressions as its counter says plus
    one, separated by commas, and stopped at a token that is not a
    comma. *)
Lemma args_loop_break cnt :
  forall i ps s ps' i' s',
    args_loop h ex cnt i ps s = Some (Some ps', i', s') ->
    i' <> i + Z.of_nat cnt ->
    exists args,
      ps' = ps ++ args
      /\ arguments h ex (List.length args) s args s'
      /\ Z.of_nat (List.length args) = i' - i + 1
      /\ stype s' <> TOK_SEP.
Proof.
  induction cnt as [|c IH]; intros i ps s ps' i' s'; cbn [args_loop].
  { intros [= <- <- <-] Hi. exfalso. apply Hi. lia. }
  destruct (ex (next_token h s)) as [[[a|] s1]|] eqn:Ha; try discriminate.
  destruct (Z.eqb_spec (stype s1) TOK_SEP) as [Hsep|Hsep]; cbn [negb].
  - intros Hloop Hi.
    destruct (IH _ _ _ _ _ _ Hloop ltac:(lia))
      as (args & -> & Hargs & Hlen & Hend).
    exists (a :: args). rewrite <- app_assoc. split; [reflexivity|].
    split; [|split; [cbn [List.length]; lia|exact Hend]].
    cbn [List.length]. eapply arguments_more; eauto.
  - intros [= <- <- <-] _. exists [a]. split; [reflexivity|].
    split; [now apply arguments_last|]. split.
    { cbn [List.length]. lia. }
    exact Hsep.
Qed.

(** Conversely the loop reads the expressions that are there: it
    leaves at the first token that is not a comma, or runs to the end
    of its count. *)
Lemma args_loop_of_arguments j s args s_end :
  arguments h ex j s args s_end ->
  forall cnt i ps,
    (j <= cnt)%nat ->
    (stype s_end <> TOK_SEP ->
     args_loop h ex cnt i ps s
     = Some (Some (ps ++ args), i + Z.of_nat j - 1, s_end))
    /\ (stype s_end = TOK_SEP -> j = cnt ->
        args_loop h ex cnt i ps s
        = Some (Some (ps ++ args), i + Z.of_nat j, s_end)).
Proof.
  induction 1 as [s a s' Ha|n s a s1 args s' Ha Hsep Hargs IH];
    intros [|c] i ps Hj; try lia; cbn [args_loop]; rewrite Ha.
  - split.
    + intros Hend. apply Z.eqb_neq in Hend. rewrite Hend. cbn [negb].
      replace (i + Z.of_nat 1 - 1) with i by lia. reflexivity.
    + intros Hend Hc. rewrite Hend, Z.eqb_refl. cbn [negb].
      assert (c = O) by lia. subst c. cbn [args_loop]. reflexivity.
  - rewrite Hsep, Z.eqb_refl. cbn [negb].
    destruct (IH c (i + 1) (ps ++ [a]) ltac:(lia)) as [IH1 IH2].
    rewrite <- app_assoc in IH1, IH2. cbn [app] in IH1, IH2. split.
    + intros Hend. rewrite (IH1 Hend).
      replace (i + 1 + Z.of_nat n - 1) with (i + Z.of_nat (S n) - 1) by lia.
      reflexivity.
    + intros Hend Hc. rewrite (IH2 Hend ltac:(lia)).
      replace (i + 1 + Z.of_nat n) with (i + Z.of_nat (S n)) by lia.
      reflexivity.
Qed.

End Arguments.
Section CallArity.

Variable h : host.

Lemma binary_loop_stops operand accept fuel ret s :
  accept s = None ->
  binary_loop h operand accept fuel ret s = Some (Some ret, s).
Proof. intros Ha. destruct fuel; cbn [binary_loop]; now rewrite Ha. Qed.

Lemma chain_stops first operand accept fuel s r s' :
  first s = Some (r, s') -> accept s' = None ->
  chain h first operand accept fuel s = Some (r, s').
Proof.
  intros Hf Ha. unfold chain. rewrite Hf.
  destruct r; [now apply binary_loop_stops|reflexivity].
Qed.

Lemma is_infix_none s ok : stype s <> TOK_INFIX -> is_infix s ok = None.
Proof.
  intros Hs. unfold is_infix. apply Z.eqb_neq in Hs. now rewrite Hs.
Qed.

(** An error that [base] meets on the first token of the input is what
    [list_] returns. *)
Lemma list__of_base_error k s r s' :
  stype s <> TOK_INFIX ->
  base h k s = Some (r, s') ->
  stype s' = TOK_ERROR ->
  list_ h (5 + k) s = Some (r, s').
Proof.
  intros Hs Hbase Herr.
  assert (Hni : forall ok, is_infix s' ok = None)
    by (intros ok; apply is_infix_none; rewrite Herr; discriminate).
  assert (Hpower : power h (S k) s = Some (r, s')).
  { cbn [power].
    assert (Hsign : sign_loop h k 1 s = Some (1, s))
      by (destruct k; cbn [sign_loop]; now rewrite is_infix_none).
    rewrite Hsign. exact Hbase. }
  assert (Hfactor : factor h (2 + k) s = Some (r, s'))
    by (apply (chain_stops (power h (S k))); auto).
  assert (Hterm : term h (3 + k) s = Some (r, s'))
    by (apply (chain_stops (factor h (2 + k))); auto).
  assert (Hexpr : expr h (4 + k) s = Some (r, s'))
    by (apply (chain_stops (term h (3 + k))); auto).
  apply (chain_stops (expr h (4 + k))); auto.
  unfold is_sep. rewrite Herr. reflexivity.
Qed.

Lemma call_of_many_arity s :
  call_of_many s ->
  2 <= ARITY (stype s) <= 7
  /\ TE_FUNCTION 0 <= TYPE_MASK (stype s) <= TE_CLOSURE 7
  /\ stype s <> TOK_INFIX.
Proof.
  intros Hm.
  assert (Hr : TE_FUNCTION 0 <= TYPE_MASK (stype s) <= TE_CLOSURE 7)
    by (destruct Hm; mask_lia).
  split; [|split; [exact Hr|]].
  - rewrite (ARITY_of_call _ Hr). unfold call_of_many in Hm.
    set (m := TYPE_MASK (stype s)) in *.
    assert (Hcases : m = 10 \/ m = 11 \/ m = 12 \/ m = 13 \/ m = 14 \/ m = 15
                     \/ m = 18 \/ m = 19 \/ m = 20 \/ m = 21 \/ m = 22
                     \/ m = 23) by (destruct Hm; mask_lia).
    clearbody m.
    repeat (destruct Hcases as [->|Hcases]; [cbn; lia|]). subst m. cbn. lia.
  - intros E. rewrite E in Hr. cbn in Hr. mask_lia.
Qed.

Lemma base_call_of_many k s :
  call_of_many s ->
  base h (S k) s =
    let arity := ARITY (stype s) in
    let ret := call_node s in
    let s1 := next_token h s in
    if negb (stype s1 =? TOK_OPEN)
    then Some (Some ret, set_type s1 TOK_ERROR)
    else
      match args_loop h (expr h k) (Z.to_nat arity) 0 [] s1 with
      | None => None
      | Some (None, _, s') => Some (None, s')
      | Some (Some ps, i, s') =>
          let ret := with_parameters ret ps in
          if negb (stype s' =? TOK_CLOSE) || negb (i =? arity - 1)
          then Some (Some ret, set_type s' TOK_ERROR)
          else Some (Some ret, next_token h s')
      end.
Proof.
  intros Hm. cbn [base]. set (m := TYPE_MASK (stype s)).
  assert (Hcases : m = 10 \/ m = 11 \/ m = 12 \/ m = 13 \/ m = 14 \/ m = 15
                   \/ m = 18 \/ m = 19 \/ m = 20 \/ m = 21 \/ m = 22
                   \/ m = 23) by (destruct Hm; mask_lia).
  clearbody m.
  repeat (destruct Hcases as [->|Hcases]; [reflexivity|]).
  subst m. reflexivity.
Qed.

End CallArity.



(** For instance a call of [atan2] with one argument, or with three,
    does not compile, and a call with two does. *)
Lemma atan2_arity_examples :
  (exists e, te_compile example_host "atan2(1)" [] example_memory
             = Some (None, e, example_memory))
  /\ (exists e, te_compile example_host "atan2(1,2,3)" [] example_memory
                = Some (None, e, example_memory))
  /\ (exists t, te_compile example_host "atan2(1,2)" [] example_memory
                = Some (Some t, 0, example_memory)).
Proof. repeat split; eexists; vm_compute; reflexivity. Qed.

(** ** Bitwise operators *)

Lemma pow2_succ (d : Z) : 0 <= d -> 2 ^ (d + 1) = 2 * 2 ^ d.
Proof. intros Hd. now rewrite Z.pow_add_r, Z.pow_1_r, Z.mul_comm by lia. Qed.

Lemma pow2_pos (d : Z) : 0 <= d -> 0 < 2 ^ d.
Proof. intros Hd. apply Z.pow_pos_nonneg; lia. Qed.

Lemma digits2_pos_bounds (p : positive) :
  2 ^ (Z.pos (digits2_pos p) - 1) <= Z.pos p < 2 ^ Z.pos (digits2_pos p).
Proof.
  assert (Hstep : forall d x y, 1 <= d -> 2 ^ (d - 1) <= x < 2 ^ d ->
            (y = 2 * x \/ y = 2 * x + 1) ->
            2 ^ (Z.succ d - 1) <= y < 2 ^ Z.succ d).
  { intros d x y Hd Hx Hy.
    replace (Z.succ d - 1) with (d - 1 + 1) by lia.
    replace (Z.succ d) with (d - 1 + 1 + 1) by lia.
    replace d with (d - 1 + 1) in Hx at 2 by lia.
    rewrite !pow2_succ by lia. rewrite pow2_succ in Hx by lia.
    pose proof (pow2_pos (d - 1)). lia. }
  induction p as [p IH|p IH|]; cbn [digits2_pos].
  - rewrite Pos2Z.inj_succ. apply (Hstep _ (Z.pos p)); [lia|exact IH|].
    right. apply Pos2Z.inj_xI.
  - rewrite Pos2Z.inj_succ. apply (Hstep _ (Z.pos p)); [lia|exact IH|].
    left. apply Pos2Z.inj_xO.
  - cbn. lia.
Qed.

Lemma iter_xO_value (k p : positive) :
  Z.pos (Pos.iter xO p k) = Z.pos p * 2 ^ Z.pos k.
Proof.
  revert p. induction k as [|k IH] using Pos.peano_ind; intros p.
  - cbn [Pos.iter]. rewrite Pos2Z.inj_xO. lia.
  - rewrite Pos.iter_succ, Pos2Z.inj_xO, IH, Pos2Z.inj_succ.
    rewrite <- Z.add_1_r, pow2_succ by lia. lia.
Qed.

Lemma iter_xO_digits (k p : positive) :
  Z.pos (digits2_pos (Pos.iter xO p k)) = Z.pos (digits2_pos p) + Z.pos k.
Proof.
  revert p. induction k as [|k IH] using Pos.peano_ind; intros p.
  - cbn [Pos.iter digits2_pos]. lia.
  - rewrite Pos.iter_succ. cbn [digits2_pos]. rewrite Pos2Z.inj_succ, IH. lia.
Qed.

(** A mantissa of 53 digits with an exponent in range is already
    rounded. *)
Lemma binary_round_aux_canonical (s : bool) (m : positive) (e : Z) :
  Z.pos (digits2_pos m) = 53 -> -1074 <= e <= 971 ->
  binary_round_aux D.prec D.emax s (Z.pos m) e loc_Exact = S754_finite s m e.
Proof.
  intros Hd He. unfold binary_round_aux, shr_fexp, Zdigits2, fexp, emin.
  rewrite Hd. unfold D.prec, D.emax.
  replace (Z.max (53 + e - 53) (3 - 1024 - 53) - e) with 0 by lia.
  cbn [shr shr_record_of_loc shr_m loc_of_shr_record round_nearest_even].
  rewrite Hd.
  replace (Z.max (53 + e - 53) (3 - 1024 - 53) - e) with 0 by lia.
  cbn [shr shr_record_of_loc shr_m].
  replace (e <=? 1024 - 53) with true by (symmetry; apply Z.leb_le; lia).
  reflexivity.
Qed.

(** The conversion of a positive integer below 2^53 is exact: a
    mantissa of 53 digits that is the integer shifted left. *)
Lemma of_Z_shape (n : positive) :
  Z.pos n < 2 ^ 53 ->
  exists m e,
    D.of_Z (Z.pos n) = S754_finite false m e
    /\ Z.pos (digits2_pos m) = 53
    /\ -52 <= e <= 0
    /\ Z.pos m = Z.pos n * 2 ^ (- e).
Proof.
  intros Hn. pose proof (digits2_pos_bounds n) as [Hlo _].
  assert (Hd : Z.pos (digits2_pos n) <= 53).
  { assert (Z.pos (digits2_pos n) - 1 < 53); [|lia].
    apply (Z.pow_lt_mono_r_iff 2); lia. }
  unfold D.of_Z, binary_normalize, binary_round, shl_align, fexp, emin.
  unfold D.prec, D.emax.
  replace (Z.max (Z.pos (digits2_pos n) + 0 - 53) (3 - 1024 - 53) - 0)
    with (Z.pos (digits2_pos n) - 53) by lia.
  replace (Z.max (Z.pos (digits2_pos n) + 0 - 53) (3 - 1024 - 53))
    with (Z.pos (digits2_pos n) - 53) by lia.
  destruct (Z.pos (digits2_pos n) - 53) as [|k|k] eqn:E; [|lia|].
  - exists n, 0. split; [|split; [lia|split; [lia|cbn; lia]]].
    apply (binary_round_aux_canonical false n 0); lia.
  - exists (Pos.iter xO n k), (Z.neg k).
    pose proof (iter_xO_digits k n) as Hk.
    split; [|split; [lia|split; [lia|]]].
    + apply binary_round_aux_canonical; lia.
    + rewrite iter_xO_value. reflexivity.
Qed.

Lemma of_Z_not_nan (n : Z) : 0 <= n < 2 ^ 53 -> D.is_nan (D.of_Z n) = false.
Proof.
  intros Hn. destruct n as [|p|p]; [reflexivity| |lia].
  destruct (of_Z_shape p) as (m & e & -> & _); [lia|reflexivity].
Qed.

Lemma trunc_of_Z (n : Z) : 0 <= n < 2 ^ 53 -> D.trunc (D.of_Z n) = Some n.
Proof.
  intros Hn. destruct n as [|p|p]; [reflexivity| |lia].
  destruct (of_Z_shape p) as (m & e & -> & _ & He & Hm); [lia|].
  unfold D.trunc. rewrite Hm. f_equal.
  destruct (Z.leb_spec 0 e) as [H0|H0].
  - replace e with 0 by lia. cbn. lia.
  - rewrite Z.div_mul; [reflexivity|]. pose proof (pow2_pos (- e)). lia.
Qed.

Lemma to_int64_of_Z (n : Z) : 0 <= n < 2 ^ 53 -> D.to_int64 (D.of_Z n) = n.
Proof.
  intros Hn. unfold D.to_int64. rewrite trunc_of_Z by exact Hn.
  replace (D.INT64_MIN <=? n) with true
    by (symmetry; apply Z.leb_le; unfold D.INT64_MIN; lia).
  replace (n <=? D.INT64_MAX) with true
    by (symmetry; apply Z.leb_le; unfold D.INT64_MAX; lia).
  reflexivity.
Qed.

(** Against the largest operand, 2^53 - 1. *)
Lemma leb_max_of_canonical (m : positive) (e : Z) :
  Z.pos (digits2_pos m) = 53 ->
  D.leb (S754_finite false m e) (D.of_Z MAX_BITWISE_VALUE) = (e <=? 0).
Proof.
  intros Hd.
  change (D.of_Z MAX_BITWISE_VALUE)
    with (S754_finite false 9007199254740991 0).
  unfold D.leb, SFleb, SFcompare.
  destruct (Z.compare_spec e 0) as [->|He|He].
  - pose proof (digits2_pos_bounds m) as [_ Hhi]. rewrite Hd in Hhi.
    rewrite Pos.compare_cont_spec. cbn [Pos.switch_Eq].
    destruct (Pos.compare_spec m 9007199254740991) as [|Hc|Hc];
      try reflexivity.
    exfalso. apply Pos2Z.pos_lt_pos in Hc. lia.
  - symmetry. apply Z.leb_le. lia.
  - symmetry. apply Z.leb_gt. lia.
Qed.

Lemma valid_digits (s : bool) (m : positive) (e : Z) :
  D.valid (S754_finite s m e) = true ->
  Z.pos (digits2_pos m) <= 53
  /\ (0 <= e -> Z.pos (digits2_pos m) = 53).
Proof.
  unfold D.valid, valid_binary, bounded, canonical_mantissa, fexp, emin.
  unfold D.prec, D.emax. intros H. apply andb_prop in H as [H _].
  apply Z.eqb_eq in H. lia.
Qed.

Lemma round_mag_small (m : positive) (e : Z) :
  Z.pos m < 2 ^ 53 -> e < 0 -> 0 <= D.round_mag m e <= 2 ^ 52.
Proof.
  intros Hm He. unfold D.round_mag.
  replace (0 <=? e) with false by (symmetry; apply Z.leb_gt; lia).
  assert (Hk : 0 <= - e - 1) by lia.
  replace (2 ^ (- e)) with (2 * 2 ^ (- e - 1))
    by (rewrite <- pow2_succ by lia; f_equal; lia).
  pose proof (pow2_pos (- e - 1) Hk) as HP.
  set (P := 2 ^ (- e - 1)) in *. clearbody P. split.
  - apply Z.div_pos; lia.
  - assert (Hq : (Z.pos m + P) / (2 * P) < 2 ^ 52 + 1).
    { apply Z.div_lt_upper_bound; [lia|].
      change (2 ^ 53) with 9007199254740992 in Hm.
      change (2 ^ 52) with 4503599627370496. nia. }
    set (q := (Z.pos m + P) / (2 * P)) in *. clearbody q.
    change (2 ^ 52) with 4503599627370496 in *. clear - Hq. lia.
Qed.

(** What [is_valid_bitwise_operand] decides, and the integer the
    operators then compute with. *)
Lemma is_valid_bitwise_operand_spec (x : D.double) :
  D.valid x = true ->
  is_valid_bitwise_operand x
  = match bitwise_operand x with Some _ => true | None => false end
  /\ (forall n, bitwise_operand x = Some n ->
        D.to_int64 (D.round x) = n /\ 0 <= n < 2 ^ 53).
Proof.
  intros Hv. destruct x as [s|s| |s m e].
  - split; [now destruct s|]. intros n [= <-]. split; [reflexivity|lia].
  - split; [now destruct s|]. discriminate.
  - split; [reflexivity|discriminate].
  - destruct s; [split; [reflexivity|discriminate]|].
    destruct (valid_digits false m e Hv) as [Hd Hd53].
    pose proof (digits2_pos_bounds m) as [_ Hhi].
    assert (Hm : Z.pos m < 2 ^ 53).
    { eapply Z.lt_le_trans; [exact Hhi|]. apply Z.pow_le_mono_r; lia. }
    unfold is_valid_bitwise_operand, bitwise_operand.
    change (D.ltb (S754_finite false m e) (D.of_Z 0)) with false. cbv iota.
    change MAX_BITWISE_VALUE with (2 ^ 53 - 1).
    destruct (Z.leb_spec 0 e) as [He|He].
    + (* already an integer *)
      assert (Hround : D.round (S754_finite false m e) = S754_finite false m e).
      { unfold D.round. now replace (0 <=? e) with true
          by (symmetry; apply Z.leb_le; lia). }
      rewrite Hround. change (2 ^ 53 - 1) with MAX_BITWISE_VALUE at 1.
      rewrite (leb_max_of_canonical m e (Hd53 He)).
      unfold D.round_mag.
      replace (0 <=? e) with true by (symmetry; apply Z.leb_le; lia).
      pose proof (digits2_pos_bounds m) as [Hlo _].
      rewrite (Hd53 He) in Hlo. change (2 ^ (53 - 1)) with (2 ^ 52) in Hlo.
      destruct (Z.leb_spec e 0) as [He0|He0].
      * replace e with 0 by lia. rewrite Z.pow_0_r, Z.mul_1_r.
        replace (Z.pos m <=? 2 ^ 53 - 1) with true
          by (symmetry; apply Z.leb_le; lia).
        split; [reflexivity|]. intros n [= <-]. split; [|lia].
        unfold D.to_int64, D.trunc. change (0 <=? 0) with true. cbv iota.
        rewrite ?Z.pow_0_r, ?Z.mul_1_r.
        replace (D.INT64_MIN <=? Z.pos m) with true
          by (symmetry; apply Z.leb_le; unfold D.INT64_MIN; lia).
        replace (Z.pos m <=? D.INT64_MAX) with true
          by (symmetry; apply Z.leb_le; unfold D.INT64_MAX; lia).
        reflexivity.
      * assert (2 ^ 53 <= Z.pos m * 2 ^ e).
        { replace e with (e - 1 + 1) by lia. rewrite pow2_succ by lia.
          pose proof (pow2_pos (e - 1) ltac:(lia)). nia. }
        replace (Z.pos m * 2 ^ e <=? 2 ^ 53 - 1) with false
          by (symmetry; apply Z.leb_gt; lia).
        split; [reflexivity|discriminate].
    + (* a fraction is rounded to an integer of at most 2^52 *)
      pose proof (round_mag_small m e Hm He) as Hn.
      replace (D.round_mag m e <=? 2 ^ 53 - 1) with true
        by (symmetry; apply Z.leb_le; lia).
      assert (Hround : D.round (S754_finite false m e)
                       = D.of_Z (D.round_mag m e)).
      { unfold D.round.
        replace (0 <=? e) with false by (symmetry; apply Z.leb_gt; lia).
        cbv zeta. destruct (Z.eqb_spec (D.round_mag m e) 0) as [->|_];
          reflexivity. }
      rewrite Hround. split.
      * destruct (D.round_mag m e) as [|p|p] eqn:E; [reflexivity| |lia].
        destruct (of_Z_shape p ltac:(lia)) as (m' & e' & -> & Hd' & He' & _).
        change (2 ^ 53 - 1) with MAX_BITWISE_VALUE.
        rewrite (leb_max_of_canonical m' e' Hd'). apply Z.leb_le. lia.
      * intros n [= <-]. split; [apply to_int64_of_Z|]; lia.
Qed.

Lemma bitwise_range (x y : Z) :
  0 <= x < 2 ^ 53 -> 0 <= y < 2 ^ 53 ->
  0 <= Z.land x y < 2 ^ 53 /\ 0 <= Z.lor x y < 2 ^ 53
  /\ 0 <= Z.lxor x y < 2 ^ 53.
Proof.
  intros Hx Hy.
  assert (Hlog : forall n, 0 <= n -> (n < 2 ^ 53 <-> n = 0 \/ Z.log2 n < 53)).
  { intros n Hn. destruct (Z.eq_dec n 0) as [->|Hne].
    - split; [now left|reflexivity].
    - rewrite (Z.log2_lt_pow2 n 53) by lia. split; [now right|].
      intros [H|H]; [contradiction|exact H]. }
  assert (Hlx : x = 0 \/ Z.log2 x < 53) by (apply Hlog; lia).
  assert (Hly : y = 0 \/ Z.log2 y < 53) by (apply Hlog; lia).
  assert (Hx' : Z.log2 x < 53)
    by (destruct Hlx as [->|H]; [reflexivity|exact H]).
  assert (Hy' : Z.log2 y < 53)
    by (destruct Hly as [->|H]; [reflexivity|exact H]).
  assert (Hand : 0 <= Z.land x y) by (apply Z.land_nonneg; lia).
  assert (Hor : 0 <= Z.lor x y) by (apply Z.lor_nonneg; lia).
  assert (Hxor : 0 <= Z.lxor x y) by (apply Z.lxor_nonneg; lia).
  pose proof (Z.log2_land x y ltac:(lia) ltac:(lia)) as Ha.
  pose proof (Z.log2_lor x y ltac:(lia) ltac:(lia)) as Ho.
  pose proof (Z.log2_lxor x y ltac:(lia) ltac:(lia)) as Hxo.
  repeat split; try assumption; apply Hlog; try assumption; right; lia.
Qed.

Lemma bitwise_result_nan (op : Z -> Z -> Z) (a b : D.double) :
  (forall x y, 0 <= x < 2 ^ 53 -> 0 <= y < 2 ^ 53 -> 0 <= op x y < 2 ^ 53) ->
  D.valid a = true -> D.valid b = true ->
  D.is_nan (bitwise_result op a b) = true
  <-> bitwise_operand a = None \/ bitwise_operand b = None.
Proof.
  intros Hop Ha Hb. unfold bitwise_result.
  destruct (is_valid_bitwise_operand_spec a Ha) as [_ Hna].
  destruct (is_valid_bitwise_operand_spec b Hb) as [_ Hnb].
  destruct (bitwise_operand a) as [x|]; [|split; [now left|reflexivity]].
  destruct (bitwise_operand b) as [y|]; [|split; [now right|reflexivity]].
  destruct (Hna x eq_refl) as [_ Hx]. destruct (Hnb y eq_refl) as [_ Hy].
  rewrite (of_Z_not_nan _ (Hop x y Hx Hy)).
  split; [discriminate|]. intros [H|H]; discriminate.
Qed.

Lemma bitwise_and_result (a b : D.double) :
  D.valid a = true -> D.valid b = true ->
  bitwise_and a b = bitwise_result Z.land a b.
Proof.
  intros Ha Hb. unfold bitwise_and, bitwise_result.
  destruct (is_valid_bitwise_operand_spec a Ha) as [-> Hna].
  destruct (is_valid_bitwise_operand_spec b Hb) as [-> Hnb].
  destruct (bitwise_operand a) as [x|]; [|reflexivity].
  destruct (bitwise_operand b) as [y|]; [|reflexivity].
  destruct (Hna x eq_refl) as [-> _]. destruct (Hnb y eq_refl) as [-> _].
  reflexivity.
Qed.

Lemma bitwise_or_result (a b : D.double) :
  D.valid a = true -> D.valid b = true ->
  bitwise_or a b = bitwise_result Z.lor a b.
Proof.
  intros Ha Hb. unfold bitwise_or, bitwise_result.
  destruct (is_valid_bitwise_operand_spec a Ha) as [-> Hna].
  destruct (is_valid_bitwise_operand_spec b Hb) as [-> Hnb].
  destruct (bitwise_operand a) as [x|]; [|reflexivity].
  destruct (bitwise_operand b) as [y|]; [|reflexivity].
  destruct (Hna x eq_refl) as [-> _]. destruct (Hnb y eq_refl) as [-> _].
  reflexivity.
Qed.

Lemma fn_xor_result (a b : D.double) :
  D.valid a = true -> D.valid b = true ->
  fn_xor a b = bitwise_result Z.lxor a b.
Proof.
  intros Ha Hb. unfold fn_xor, bitwise_result.
  destruct (is_valid_bitwise_operand_spec a Ha) as [-> Hna].
  destruct (is_valid_bitwise_operand_spec b Hb) as [-> Hnb].
  destruct (bitwise_operand a) as [x|]; [|reflexivity].
  destruct (bitwise_operand b) as [y|]; [|reflexivity].
  destruct (Hna x eq_refl) as [-> _]. destruct (Hnb y eq_refl) as [-> _].
  reflexivity.
Qed.

(** The tokens [&] and [|] and the name [xor] denote these functions. *)
Lemma bitwise_tokens :
  infix_of "&"%char = Some p_bitwise_and
  /\ infix_of "|"%char = Some p_bitwise_or
  /\ option_map baddress (find_builtin "xor"%string 3) = Some p_fn_xor.
Proof. repeat split. Qed.

(** C5, as the code has it.  For all doubles [a] and [b], each of [&], [|] and
    [xor] returns NaN if and only if one of the operands has no integer
    operand: it is NaN, or is below zero before rounding, or exceeds
    [2^53 - 1] after rounding to nearest.  Otherwise the result is the
    double of the bitwise AND, OR or XOR of the two rounded integers. *)
Theorem bitwise_operators (a b : D.double) :
  D.valid a = true -> D.valid b = true ->
  (bitwise_and a b = bitwise_result Z.land a b
   /\ bitwise_or a b = bitwise_result Z.lor a b
   /\ fn_xor a b = bitwise_result Z.lxor a b)
  /\ (forall f, In f [bitwise_and; bitwise_or; fn_xor] ->
        D.is_nan (f a b) = true
        <-> bitwise_operand a = None \/ bitwise_operand b = None).
Proof.
  intros Ha Hb.
  pose proof (bitwise_and_result a b Ha Hb) as Hand.
  pose proof (bitwise_or_result a b Ha Hb) as Hor.
  pose proof (fn_xor_result a b Ha Hb) as Hxor.
  split; [auto|].
  intros f [<-|[<-|[<-|[]]]].
  - rewrite Hand. apply bitwise_result_nan; [|assumption..].
    intros x y Hx Hy. apply (bitwise_range x y Hx Hy).
  - rewrite Hor. apply bitwise_result_nan; [|assumption..].
    intros x y Hx Hy. apply (bitwise_range x y Hx Hy).
  - rewrite Hxor. apply bitwise_result_nan; [|assumption..].
    intros x y Hx Hy. apply (bitwise_range x y Hx Hy).
Qed.

Lemma bitwise_operators_witness :
  D.valid (D.of_Z 12) = true /\ D.valid (D.of_Z 10) = true
  /\ bitwise_and (D.of_Z 12) (D.of_Z 10) = D.of_Z 8
  /\ bitwise_or (D.of_Z 12) (D.of_Z 10) = D.of_Z 14
  /\ fn_xor (D.of_Z 12) (D.of_Z 10) = D.of_Z 6.
Proof.
  split; [reflexivity|]. split; [reflexivity|].
  destruct (bitwise_operators (D.of_Z 12) (D.of_Z 10) eq_refl eq_refl)
    as [(Hand & Hor & Hxor) _].
  rewrite Hand, Hor, Hxor. repeat split.
Defined.

(** The operand [-0.25] rounds to [-0.0], which is neither negative nor
    above [2^53 - 1], and [5] rounds to itself; yet [5 & -0.25],
    [5 | -0.25] and [xor(5, -0.25)] are NaN, because the sign is tested
    before rounding. *)
Lemma negative_fraction_operand :
  D.valid minus_quarter = true
  /\ D.round minus_quarter = S754_zero true
  /\ rounded_out_of_range minus_quarter = false
  /\ rounded_out_of_range (D.of_Z 5) = false
  /\ D.is_nan (bitwise_and (D.of_Z 5) minus_quarter) = true
  /\ D.is_nan (bitwise_or (D.of_Z 5) minus_quarter) = true
  /\ D.is_nan (fn_xor (D.of_Z 5) minus_quarter) = true
  /\ te_compile example_host "5 & -0.25" [] example_memory
     = Some (Some (constant_node D.NAN), 0, example_memory).
Proof. repeat split. Qed.

(** ** Order and truncation of valid doubles *)

Lemma valid_finite (s : bool) (m : positive) (e : Z) :
  D.valid (S754_finite s m e) = true ->
  - 1074 <= e /\ Z.pos m < 2 ^ 53
  /\ (- 1074 < e -> 2 ^ 52 <= Z.pos m).
Proof.
  unfold D.valid, valid_binary, bounded, canonical_mantissa, fexp, emin.
  unfold D.prec, D.emax. intros H. apply andb_prop in H as [H _].
  apply Z.eqb_eq in H.
  pose proof (digits2_pos_bounds m) as [Hlo Hhi].
  split; [lia|]. split.
  - eapply Z.lt_le_trans; [exact Hhi|]. apply Z.pow_le_mono_r; lia.
  - intros He. replace (Z.pos (digits2_pos m)) with 53 in Hlo by lia.
    exact Hlo.
Qed.

(** Positive valid doubles compare as their values, here scaled by
    [2^1074] to integers. *)
Lemma SFcompare_valid (m1 m2 : positive) (e1 e2 : Z) :
  D.valid (S754_finite false m1 e1) = true ->
  D.valid (S754_finite false m2 e2) = true ->
  SFcompare (S754_finite false m1 e1) (S754_finite false m2 e2)
  = Some (Z.pos m1 * 2 ^ (e1 + 1074) ?= Z.pos m2 * 2 ^ (e2 + 1074)).
Proof.
  intros H1 H2.
  destruct (valid_finite _ _ _ H1) as (He1 & Hm1 & Hn1).
  destruct (valid_finite _ _ _ H2) as (He2 & Hm2 & Hn2).
  assert (Hlt : forall ma mb ea eb,
             - 1074 <= ea -> ea < eb -> Z.pos ma < 2 ^ 53 ->
             2 ^ 52 <= Z.pos mb ->
             Z.pos ma * 2 ^ (ea + 1074) < Z.pos mb * 2 ^ (eb + 1074)).
  { intros ma mb ea eb Hea Hab Hma Hmb.
    pose proof (pow2_pos (ea + 1074) ltac:(lia)) as Hp.
    assert (Hq : 2 * 2 ^ (ea + 1074) <= 2 ^ (eb + 1074)).
    { rewrite <- pow2_succ by lia. apply Z.pow_le_mono_r; lia. }
    change (2 ^ 53) with (2 * 2 ^ 52) in Hma.
    set (P := 2 ^ (ea + 1074)) in *. set (Q := 2 ^ (eb + 1074)) in *.
    set (T := 2 ^ 52) in *. clearbody P Q T. nia. }
  cbn [SFcompare]. f_equal.
  destruct (Z.compare_spec e1 e2) as [->|Hc|Hc].
  - rewrite Pos.compare_cont_spec. cbn [Pos.switch_Eq].
    pose proof (pow2_pos (e2 + 1074) ltac:(lia)) as Hp.
    set (P := 2 ^ (e2 + 1074)) in *. clearbody P.
    destruct (Pos.compare_spec m1 m2) as [->|Hc|Hc]; symmetry.
    + apply Z.compare_refl.
    + apply Z.compare_lt_iff. nia.
    + apply Z.compare_gt_iff. nia.
  - symmetry. apply Z.compare_lt_iff. apply Hlt; lia.
  - symmetry. apply Z.compare_gt_iff. apply Hlt; lia.
Qed.

Lemma trunc_scaled (m : positive) (e : Z) :
  - 1074 <= e ->
  D.trunc (S754_finite false m e)
  = Some (Z.pos m * 2 ^ (e + 1074) / 2 ^ 1074).
Proof.
  intros He. unfold D.trunc. f_equal.
  destruct (Z.leb_spec 0 e) as [H0|H0].
  - rewrite Z.pow_add_r by lia. rewrite Z.mul_assoc.
    rewrite Z.div_mul; [reflexivity|]. apply Z.pow_nonzero; lia.
  - replace 1074 with (- e + (e + 1074)) at 2 by lia.
    rewrite (Z.pow_add_r 2 (- e)) by lia.
    rewrite Z.div_mul_cancel_r; try (apply Z.pow_nonzero; lia).
    reflexivity.
Qed.

(** Truncation is monotone from a value that is not below zero. *)
Lemma trunc_monotone (x y : D.double) (a b : Z) :
  D.valid x = true -> D.valid y = true ->
  D.ltb x (D.of_Z 0) = false -> D.ltb y x = false ->
  D.trunc x = Some a -> D.trunc y = Some b ->
  0 <= a <= b.
Proof.
  intros Hx Hy H0 Hyx Ha Hb.
  destruct x as [sx|sx| |sx mx ex]; try discriminate Ha.
  - assert (Ea : a = 0) by (cbn in Ha; congruence). subst a. clear Ha.
    destruct y as [sy|sy| |sy my ey]; try discriminate Hb.
    + cbn in Hb. assert (b = 0) by congruence. lia.
    + destruct sy; [discriminate Hyx|].
      destruct (valid_finite _ _ _ Hy) as (He & _).
      rewrite trunc_scaled in Hb by exact He.
      assert (Eb : b = Z.pos my * 2 ^ (ey + 1074) / 2 ^ 1074) by congruence.
      subst b. clear Hb.
      split; [lia|]. apply Z.div_pos; [|now apply Z.pow_pos_nonneg].
      apply Z.mul_nonneg_nonneg; [lia|apply Z.pow_nonneg; lia].
  - destruct sx; [discriminate H0|].
    destruct (valid_finite _ _ _ Hx) as (Hex & _).
    rewrite trunc_scaled in Ha by exact Hex.
    assert (Ea : a = Z.pos mx * 2 ^ (ex + 1074) / 2 ^ 1074) by congruence.
    subst a. clear Ha.
    assert (Hpos : 0 <= Z.pos mx * 2 ^ (ex + 1074) / 2 ^ 1074).
    { apply Z.div_pos; [|now apply Z.pow_pos_nonneg].
      apply Z.mul_nonneg_nonneg; [lia|apply Z.pow_nonneg; lia]. }
    split; [exact Hpos|].
    destruct y as [sy|sy| |sy my ey]; try discriminate Hb.
    + discriminate Hyx.
    + destruct sy; [discriminate Hyx|].
      destruct (valid_finite _ _ _ Hy) as (Hey & _).
      rewrite trunc_scaled in Hb by exact Hey.
      assert (Eb : b = Z.pos my * 2 ^ (ey + 1074) / 2 ^ 1074) by congruence.
      subst b. clear Hb.
      unfold D.ltb, SFltb in Hyx. rewrite (SFcompare_valid _ _ _ _ Hy Hx) in Hyx.
      apply Z.div_le_mono; [now apply Z.pow_pos_nonneg|].
      destruct (Z.compare_spec (Z.pos my * 2 ^ (ey + 1074))
                  (Z.pos mx * 2 ^ (ex + 1074))) as [E|E|E];
        try lia; discriminate Hyx.
Qed.

Lemma to_uint_of_trunc (x : D.double) (n : Z) :
  D.trunc x = Some n -> 0 <= n <= D.UINT_MAX -> D.to_uint x = n.
Proof.
  intros Hx Hn. unfold D.to_uint, D.to_int64. rewrite Hx.
  unfold D.UINT_MAX in Hn.
  replace (D.INT64_MIN <=? n) with true
    by (symmetry; apply Z.leb_le; unfold D.INT64_MIN; lia).
  replace (n <=? D.INT64_MAX) with true
    by (symmetry; apply Z.leb_le; unfold D.INT64_MAX; lia).
  cbn [andb]. apply Z.mod_small. lia.
Qed.

(** The integer part of an argument that passed the guards of [fac] and
    [ncr]. *)
Lemma guarded_argument (x : D.double) (n : Z) :
  D.valid x = true ->
  D.ltb x (D.of_Z 0) = false -> D.gtb x (D.of_Z D.UINT_MAX) = false ->
  D.trunc x = Some n ->
  0 <= n <= D.UINT_MAX /\ D.to_uint x = n.
Proof.
  intros Hv H0 Hmax Hn.
  assert (Hb : 0 <= n <= D.UINT_MAX).
  { apply (trunc_monotone x (D.of_Z D.UINT_MAX)); try assumption;
      reflexivity. }
  split; [exact Hb|]. now apply to_uint_of_trunc.
Qed.

(** ** Factorial *)

Lemma factorial_step (j : nat) :
  (j < 20)%nat ->
  (Z.of_nat (S j) >? D.ULONG_MAX / factorial j) = false
  /\ (factorial j * Z.of_nat (S j)) mod 2 ^ 64 = factorial (S j).
Proof.
  intros Hj.
  do 20 (destruct j as [|j]; [vm_compute; split; reflexivity|]).
  lia.
Qed.

Lemma fac_loop_small (cnt j : nat) :
  (j + cnt <= 20)%nat ->
  fac_loop cnt (Z.of_nat (S j)) (factorial j) = D.of_Z (factorial (j + cnt)).
Proof.
  revert j. induction cnt as [|cnt IH]; intros j Hj.
  - now rewrite Nat.add_0_r.
  - cbn [fac_loop]. destruct (factorial_step j ltac:(lia)) as [-> ->].
    replace (Z.of_nat (S j) + 1) with (Z.of_nat (S (S j))) by lia.
    rewrite IH by lia. do 2 f_equal. lia.
Qed.

Lemma fac_loop_large (cnt j : nat) :
  (j <= 20)%nat -> (20 < j + cnt)%nat ->
  fac_loop cnt (Z.of_nat (S j)) (factorial j) = D.INFINITY.
Proof.
  revert j. induction cnt as [|cnt IH]; intros j Hj Hc; [lia|].
  cbn [fac_loop]. destruct (Nat.eq_dec j 20) as [->|Hne].
  - reflexivity.
  - destruct (factorial_step j ltac:(lia)) as [-> ->].
    replace (Z.of_nat (S j) + 1) with (Z.of_nat (S (S j))) by lia.
    apply IH; lia.
Qed.

(** [fac] is NaN below zero and +Infinity above [UINT_MAX]; between
    them, with [n] the integer part of the argument, it is the double
    nearest to [n!] up to [n = 20], the last factorial that fits 64
    bits, and +Infinity from [n = 21] on. *)
Theorem fac_is_factorial (a : D.double) :
  D.valid a = true ->
  (D.ltb a (D.of_Z 0) = true -> fac a = D.NAN)
  /\ (D.ltb a (D.of_Z 0) = false ->
      D.gtb a (D.of_Z D.UINT_MAX) = true -> fac a = D.INFINITY)
  /\ (D.ltb a (D.of_Z 0) = false ->
      D.gtb a (D.of_Z D.UINT_MAX) = false ->
      forall n, D.trunc a = Some n ->
        0 <= n <= D.UINT_MAX
        /\ fac a = if n <=? 20 then D.of_Z (factorial (Z.to_nat n))
                   else D.INFINITY).
Proof.
  intros Hv. unfold fac. split; [now intros ->|].
  split; [now intros -> ->|]. intros H0 Hmax n Hn. rewrite H0, Hmax.
  destruct (guarded_argument a n Hv H0 Hmax Hn) as [Hb ->].
  split; [exact Hb|].
  change 1 with (Z.of_nat 1) at 1. change 1 with (factorial 0).
  destruct (Z.leb_spec n 20) as [Hle|Hgt].
  - rewrite fac_loop_small by lia. reflexivity.
  - apply fac_loop_large; lia.
Qed.

Lemma fac_is_factorial_witness :
  fac (D.of_Z 5) = D.of_Z 120
  /\ fac (D.of_Z 21) = D.INFINITY
  /\ fac (D.of_Z (- 1)) = D.NAN.
Proof.
  split; [|split].
  - destruct (fac_is_factorial (D.of_Z 5) eq_refl) as (_ & _ & H).
    exact (proj2 (H eq_refl eq_refl 5 eq_refl)).
  - destruct (fac_is_factorial (D.of_Z 21) eq_refl) as (_ & _ & H).
    exact (proj2 (H eq_refl eq_refl 21 eq_refl)).
  - destruct (fac_is_factorial (D.of_Z (- 1)) eq_refl) as (H & _).
    exact (H eq_refl).
Defined.

(** ** Binomial coefficients *)

Lemma binomial_0 (n : nat) : binomial n 0 = 1.
Proof. now destruct n. Qed.

Lemma binomial_nonneg (n k : nat) : 0 <= binomial n k.
Proof.
  revert k. induction n as [|n IH]; intros [|k]; cbn [binomial]; try lia.
  pose proof (IH k). pose proof (IH (S k)). lia.
Qed.

Lemma binomial_above (n k : nat) : (n < k)%nat -> binomial n k = 0.
Proof.
  revert k. induction n as [|n IH]; intros [|k] Hk; cbn [binomial];
    try lia.
  rewrite (IH k), (IH (S k)) by lia. reflexivity.
Qed.

Lemma binomial_diag (n : nat) : binomial n n = 1.
Proof.
  induction n as [|n IH]; [reflexivity|]. cbn [binomial].
  rewrite IH, binomial_above by lia. reflexivity.
Qed.

(** [(k + 1) * C(n + 1, k + 1) = (n + 1) * C(n, k)] *)
Lemma binomial_absorb (n k : nat) :
  Z.of_nat (S k) * binomial (S n) (S k) = Z.of_nat (S n) * binomial n k.
Proof.
  revert k. induction n as [|n IH]; intros k.
  - destruct k as [|k]; cbn [binomial]; [reflexivity|lia].
  - destruct k as [|k].
    + pose proof (IH 0%nat) as H0. cbn [binomial] in *.
      rewrite ?binomial_0 in *. lia.
    + pose proof (IH k) as Hk. pose proof (IH (S k)) as HSk.
      cbn [binomial] in *.
      set (c := binomial n k) in *. set (d := binomial n (S k)) in *.
      set (f := binomial n (S (S k))) in *.
      set (K := Z.of_nat (S k)) in *. set (N := Z.of_nat (S n)) in *.
      replace (Z.of_nat (S (S k))) with (K + 1) in * by (unfold K; lia).
      replace (Z.of_nat (S (S n))) with (N + 1) by (unfold N; lia).
      clearbody c d f K N. clear IH. nia.
Qed.

Lemma binomial_sym (n k : nat) :
  (k <= n)%nat -> binomial n k = binomial n (n - k).
Proof.
  revert k. induction n as [|n IH]; intros k Hk.
  - replace k with 0%nat by lia. reflexivity.
  - destruct k as [|k].
    + rewrite Nat.sub_0_r, binomial_diag. reflexivity.
    + destruct (Nat.eq_dec k n) as [->|Hne].
      * rewrite Nat.sub_diag, binomial_diag. reflexivity.
      * replace (S n - S k)%nat with (S (n - S k)) by lia.
        cbn [binomial]. rewrite (IH k), (IH (S k)) by lia.
        replace (n - k)%nat with (S (n - S k)) by lia. lia.
Qed.

(** The products the loop of [ncr] forms do not decrease. *)
Lemma binomial_products_grow (M j K : nat) :
  (j <= K)%nat ->
  binomial (M + j) j * Z.of_nat j <= binomial (M + K) K * Z.of_nat K.
Proof.
  induction 1 as [|K HjK IH]; [lia|].
  eapply Z.le_trans; [exact IH|].
  replace (M + S K)%nat with (S (M + K)) by lia. cbn [binomial].
  pose proof (binomial_nonneg (M + K) K).
  pose proof (binomial_nonneg (M + K) (S K)). nia.
Qed.

Lemma overflow_check (r d : Z) :
  0 < d -> (r >? D.ULONG_MAX / d) = negb (r * d <=? D.ULONG_MAX).
Proof.
  intros Hd. set (U := D.ULONG_MAX). clearbody U.
  destruct (Z.leb_spec (r * d) U) as [H|H]; cbn [negb].
  - rewrite Z.gtb_ltb. apply Z.ltb_ge. apply Z.div_le_lower_bound; lia.
  - rewrite Z.gtb_ltb. apply Z.ltb_lt. apply Z.div_lt_upper_bound; lia.
Qed.

Lemma ncr_loop_spec (M K cnt j : nat) :
  (j + cnt = K)%nat ->
  binomial (M + j) j * Z.of_nat j <= D.ULONG_MAX ->
  ncr_loop cnt (Z.of_nat (M + K)) (Z.of_nat K) (Z.of_nat (S j))
    (binomial (M + j) j)
  = if binomial (M + K) K * Z.of_nat K <=? D.ULONG_MAX
    then D.of_Z (binomial (M + K) K) else D.INFINITY.
Proof.
  revert j. induction cnt as [|cnt IH]; intros j Hj Hfit.
  - replace j with K in * by lia. cbn [ncr_loop].
    now replace (_ <=? _) with true by (symmetry; apply Z.leb_le; exact Hfit).
  - cbn [ncr_loop].
    replace (Z.of_nat (M + K) - Z.of_nat K + Z.of_nat (S j))
      with (Z.of_nat (S (M + j))) by lia.
    rewrite overflow_check by lia.
    assert (Hprod : binomial (M + j) j * Z.of_nat (S (M + j))
                    = binomial (M + S j) (S j) * Z.of_nat (S j)).
    { replace (M + S j)%nat with (S (M + j)) by lia.
      pose proof (binomial_absorb (M + j) j). lia. }
    rewrite Hprod.
    pose proof (binomial_products_grow M (S j) K ltac:(lia)) as Hgrow.
    pose proof (binomial_nonneg (M + S j) (S j)) as Hnn.
    destruct (Z.leb_spec (binomial (M + S j) (S j) * Z.of_nat (S j))
                D.ULONG_MAX) as [Hok|Hover]; cbn [negb].
    + replace (Z.of_nat (S j) + 1) with (Z.of_nat (S (S j))) by lia.
      rewrite Z.mod_small
        by (unfold D.ULONG_MAX in Hok; split; [nia|lia]).
      rewrite Z.div_mul by lia.
      apply IH; [lia|exact Hok].
    + now replace (_ <=? _) with false by (symmetry; apply Z.leb_gt; lia).
Qed.

(** [ncr] is NaN when an argument is below zero or the first is below
    the second, and +Infinity when one exceeds [UINT_MAX].  Otherwise,
    with [un] and [ur] the integer parts and [k] the smaller of [ur] and
    [un - ur], it is the double nearest to the binomial coefficient
    [C(un, ur)], unless the last product of the loop, [C(un, k) * k],
    exceeds 64 bits, when it is +Infinity. *)
Theorem ncr_is_binomial (n r : D.double) :
  D.valid n = true -> D.valid r = true ->
  (D.ltb n (D.of_Z 0) || D.ltb r (D.of_Z 0) || D.ltb n r = true ->
   ncr n r = D.NAN)
  /\ (D.ltb n (D.of_Z 0) || D.ltb r (D.of_Z 0) || D.ltb n r = false ->
      D.gtb n (D.of_Z D.UINT_MAX) || D.gtb r (D.of_Z D.UINT_MAX) = true ->
      ncr n r = D.INFINITY)
  /\ (D.ltb n (D.of_Z 0) || D.ltb r (D.of_Z 0) || D.ltb n r = false ->
      D.gtb n (D.of_Z D.UINT_MAX) || D.gtb r (D.of_Z D.UINT_MAX) = false ->
      forall un ur, D.trunc n = Some un -> D.trunc r = Some ur ->
        0 <= ur <= un
        /\ ncr n r
           = let k := Z.min ur (un - ur) in
             if binomial (Z.to_nat un) (Z.to_nat k) * k <=? D.ULONG_MAX
             then D.of_Z (binomial (Z.to_nat un) (Z.to_nat ur))
             else D.INFINITY).
Proof.
  intros Hvn Hvr. unfold ncr. split; [now intros ->|].
  split; [now intros -> ->|]. intros Hlow Hhigh un ur Hn Hr.
  rewrite Hlow, Hhigh.
  apply orb_false_elim in Hlow as [Hlow Hnr].
  apply orb_false_elim in Hlow as [Hn0 Hr0].
  apply orb_false_elim in Hhigh as [Hnmax Hrmax].
  destruct (guarded_argument n un Hvn Hn0 Hnmax Hn) as [Hun ->].
  destruct (guarded_argument r ur Hvr Hr0 Hrmax Hr) as [Hur ->].
  pose proof (trunc_monotone r n ur un Hvr Hvn Hr0 Hnr Hr Hn) as Hle.
  split; [lia|]. cbv zeta.
  assert (Hk : (if ur >? un / 2 then un - ur else ur) = Z.min ur (un - ur)).
  { destruct (Z.gtb_spec ur (un / 2)) as [H|H];
      pose proof (Z.div_mod un 2 ltac:(lia));
      pose proof (Z.mod_pos_bound un 2 ltac:(lia)); lia. }
  rewrite Hk. set (k := Z.min ur (un - ur)).
  assert (Hkb : 0 <= k <= un) by (unfold k; lia).
  pose proof (ncr_loop_spec (Z.to_nat (un - k)) (Z.to_nat k) (Z.to_nat k) 0
                eq_refl) as Hloop.
  rewrite Nat.add_0_r, binomial_0 in Hloop.
  replace (Z.to_nat (un - k) + Z.to_nat k)%nat with (Z.to_nat un)
    in Hloop by lia.
  rewrite !Z2Nat.id in Hloop by lia. change (Z.of_nat 1) with 1 in Hloop.
  rewrite Hloop by (unfold D.ULONG_MAX; lia). clear Hloop.
  replace (binomial (Z.to_nat un) (Z.to_nat k))
    with (binomial (Z.to_nat un) (Z.to_nat ur)); [reflexivity|].
  unfold k. destruct (Z.min_spec ur (un - ur)) as [[_ ->]|[_ ->]];
    [reflexivity|].
  rewrite (binomial_sym (Z.to_nat un) (Z.to_nat ur)) by lia.
  f_equal. lia.
Qed.

Lemma ncr_is_binomial_witness :
  ncr (D.of_Z 10) (D.of_Z 3) = D.of_Z 120
  /\ ncr (D.of_Z 3) (D.of_Z 10) = D.NAN.
Proof.
  split.
  - destruct (ncr_is_binomial (D.of_Z 10) (D.of_Z 3) eq_refl eq_refl)
      as (_ & _ & H).
    exact (proj2 (H eq_refl eq_refl 10 3 eq_refl eq_refl)).
  - destruct (ncr_is_binomial (D.of_Z 3) (D.of_Z 10) eq_refl eq_refl)
      as (H & _).
    exact (H eq_refl).
Defined.

(** ** Testing one bit *)

Lemma land_single_bit (x k : Z) :
  0 <= k ->
  (Z.land x (Z.shiftl 1 k) =? 0) = negb (Z.testbit x k).
Proof.
  intros Hk. rewrite Z.shiftl_1_l.
  assert (H : Z.land x (2 ^ k) = if Z.testbit x k then 2 ^ k else 0).
  { apply Z.bits_inj'. intros j Hj. rewrite Z.land_spec.
    rewrite Z.pow2_bits_eqb by exact Hk.
    destruct (Z.eqb_spec k j) as [->|Hne].
    - destruct (Z.testbit x j) eqn:E.
      + rewrite Z.pow2_bits_eqb by exact Hj. now rewrite Z.eqb_refl.
      + now rewrite Z.bits_0.
    - rewrite andb_false_r. destruct (Z.testbit x k).
      + rewrite Z.pow2_bits_eqb by exact Hk. symmetry. now apply Z.eqb_neq.
      + now rewrite Z.bits_0. }
  rewrite H. destruct (Z.testbit x k); [|reflexivity].
  apply Z.eqb_neq. pose proof (pow2_pos k Hk). lia.
Qed.

Lemma bitwise_operand_not_negative (x : D.double) (n : Z) :
  bitwise_operand x = Some n -> D.ltb x (D.of_Z 0) = false.
Proof.
  destruct x as [s|s| |s m e]; try discriminate; [reflexivity|].
  destruct s; [discriminate|reflexivity].
Qed.

(** [bit(n, i)] is NaN when an argument is below zero.  For operands
    that stand for the integers [x] and [k], it is NaN when [k] is 53 or
    more, and otherwise 1 or 0 as bit [k] of [x] is set or not. *)
Theorem fn_bit_tests_bit (n i : D.double) :
  D.valid n = true -> D.valid i = true ->
  (D.ltb n (D.of_Z 0) || D.ltb i (D.of_Z 0) = true -> fn_bit n i = D.NAN)
  /\ (forall x k,
        bitwise_operand n = Some x -> bitwise_operand i = Some k ->
        fn_bit n i
        = if 53 <=? k then D.NAN
          else if Z.testbit x k then D.of_Z 1 else D.of_Z 0).
Proof.
  intros Hn Hi. unfold fn_bit. split; [now intros ->|].
  intros x k Hx Hk.
  rewrite (bitwise_operand_not_negative n x Hx).
  rewrite (bitwise_operand_not_negative i k Hk). cbn [orb]. cbv zeta.
  destruct (is_valid_bitwise_operand_spec n Hn) as [_ Hnx].
  destruct (is_valid_bitwise_operand_spec i Hi) as [_ Hik].
  destruct (Hnx x Hx) as [-> Hxb]. destruct (Hik k Hk) as [-> Hkb].
  replace (x >? Z.shiftl 1 53 - 1) with false
    by (symmetry; rewrite Z.gtb_ltb; apply Z.ltb_ge;
        change (Z.shiftl 1 53) with (2 ^ 53); lia).
  cbn [orb]. rewrite Z.geb_leb.
  destruct (53 <=? k); [reflexivity|].
  rewrite land_single_bit by lia. rewrite negb_involutive. reflexivity.
Qed.

Lemma fn_bit_tests_bit_witness :
  fn_bit (D.of_Z 5) (D.of_Z 2) = D.of_Z 1
  /\ fn_bit (D.of_Z 5) (D.of_Z 1) = D.of_Z 0.
Proof.
  split.
  - exact (proj2 (fn_bit_tests_bit (D.of_Z 5) (D.of_Z 2) eq_refl eq_refl)
             5 2 eq_refl eq_refl).
  - exact (proj2 (fn_bit_tests_bit (D.of_Z 5) (D.of_Z 1) eq_refl eq_refl)
             5 1 eq_refl eq_refl).
Defined.

(** ** Looking names up *)

Lemma code_inj (c d : ascii) : code c = code d -> c = d.
Proof.
  unfold code. intros H. apply N2Z.inj in H.
  rewrite <- (ascii_N_embedding c), <- (ascii_N_embedding d). now f_equal.
Qed.

(** [strncmp] over the length of an identifier, followed by the test of
    the terminator, holds exactly of the identifier itself. *)
Lemma name_matches (pre rest nm : string) :
  c_string pre = true -> c_string nm = true ->
  strncmp (pre ++ rest) nm (String.length pre) = 0
  /\ code (char_at nm (String.length pre)) = 0
  <-> nm = pre.
Proof.
  revert nm. induction pre as [|c pre IH]; intros nm Hpre Hnm.
  - cbn. destruct nm as [|d nm]; [tauto|]. split; [|discriminate].
    intros [_ H]. cbn in Hnm. apply andb_prop in Hnm as [Hd _].
    unfold char_at in H. cbn in H. rewrite H in Hd. discriminate.
  - cbn in Hpre. apply andb_prop in Hpre as [Hc Hpre].
    apply negb_true_iff, Z.eqb_neq in Hc.
    cbn [String.append String.length strncmp].
    change (char_at (String c (pre ++ rest)) 0) with c.
    destruct nm as [|d nm].
    + change (char_at EmptyString 0) with NUL.
      replace (code c =? code NUL) with false
        by (symmetry; apply Z.eqb_neq; exact Hc).
      cbn [negb]. change (code NUL) with 0. split; [|discriminate].
      intros [H _]. lia.
    + cbn in Hnm. apply andb_prop in Hnm as [_ Hnm].
      change (char_at (String d nm) 0) with d.
      change (char_at (String d nm) (S (String.length pre)))
        with (char_at nm (String.length pre)).
      destruct (Z.eqb_spec (code c) (code d)) as [E|E]; cbn [negb].
      * apply code_inj in E. subst d.
        replace (code c =? 0) with false
          by (symmetry; apply Z.eqb_neq; exact Hc).
        cbn [drop]. rewrite (IH nm Hpre Hnm).
        split; [now intros ->|now intros [= ->]].
      * split; [intros [H _]; lia|]. intros [= -> ->]. now contradiction E.
Qed.

Lemma builtin_names_are_c_strings :
  Forall (fun b => c_string (bname b) = true) functions.
Proof. unfold functions. repeat constructor. Qed.

Lemma find_builtin_loop_sound (fuel : nat) (nm : string) (len : nat) :
  forall imin imax b,
    find_builtin_loop fuel nm len imin imax = Some b ->
    In b functions /\ strncmp nm (bname b) len = 0
    /\ code (char_at (bname b) len) = 0.
Proof.
  induction fuel as [|k IH]; intros imin imax b; cbn [find_builtin_loop];
    [discriminate|].
  destruct (imax >=? imin); [|discriminate].
  destruct (nth_error functions (Z.to_nat (imin + (imax - imin) / 2)))
    as [fi|] eqn:Hnth; [|discriminate].
  destruct (Z.eqb_spec (strncmp nm (bname fi) len) 0) as [Hs|Hs].
  - destruct (Z.eqb_spec (code NUL - code (char_at (bname fi) len)) 0)
      as [Hz|Hz].
    + intros [= <-]. split; [eapply nth_error_In; eauto|].
      split; [exact Hs|]. change (code NUL) with 0 in Hz. lia.
    + destruct (_ >? 0); apply IH.
  - replace (strncmp nm (bname fi) len =? 0) with false
      by (symmetry; now apply Z.eqb_neq).
    destruct (_ >? 0); apply IH.
Qed.

Lemma find_builtin_finds :
  Forall (fun b => forall rest,
            find_builtin (bname b ++ rest) (String.length (bname b)) = Some b)
    functions.
Proof.
  unfold functions.
  repeat (apply Forall_cons; [intros rest; vm_compute; reflexivity|]).
  apply Forall_nil.
Qed.

(** The binary search of [find_builtin], given an identifier at the
    head of the input and its length, returns the entry of the table
    named by exactly that identifier, and a null pointer when the table
    has none. *)
Theorem find_builtin_exact (pre rest : string) :
  c_string pre = true ->
  (forall b,
     find_builtin (pre ++ rest) (String.length pre) = Some b
     <-> In b functions /\ bname b = pre)
  /\ (find_builtin (pre ++ rest) (String.length pre) = None
      <-> forall b, In b functions -> bname b <> pre).
Proof.
  intros Hpre.
  assert (Hiff : forall b,
             find_builtin (pre ++ rest) (String.length pre) = Some b
             <-> In b functions /\ bname b = pre).
  { intros b. split.
    - intros H. apply find_builtin_loop_sound in H as (Hin & Hs & Hz).
      split; [exact Hin|]. apply (name_matches pre rest); auto.
      pose proof builtin_names_are_c_strings as Hc.
      rewrite Forall_forall in Hc. now apply Hc.
    - intros [Hin <-]. pose proof find_builtin_finds as Hf.
      rewrite Forall_forall in Hf. now apply Hf. }
  split; [exact Hiff|]. split.
  - intros Hnone b Hin Hb.
    rewrite (proj2 (Hiff b) (conj Hin Hb)) in Hnone. discriminate.
  - intros Hno.
    destruct (find_builtin (pre ++ rest) (String.length pre)) as [b|] eqn:E;
      [|reflexivity].
    destruct (proj1 (Hiff b) eq_refl) as [Hin Hb]. now destruct (Hno b Hin).
Qed.

Lemma find_builtin_exact_witness :
  option_map baddress (find_builtin "sin(x)"%string 3) = Some (p_libm m_sin)
  /\ find_builtin "sec(x)"%string 3 = None.
Proof.
  destruct (find_builtin_exact "sin"%string "(x)"%string eq_refl) as [Hsome _].
  destruct (find_builtin_exact "sec"%string "(x)"%string eq_refl) as [_ Hnone].
  split.
  - refine (f_equal (option_map baddress)
              (proj2 (Hsome (mk_builtin "sin"%string (p_libm m_sin)
                               (Z.lor (TE_FUNCTION 1) TE_FLAG_PURE))) _)).
    split; [|reflexivity]. unfold functions. simpl. tauto.
  - apply Hnone. intros b Hin.
    unfold functions in Hin. simpl in Hin.
    repeat (destruct Hin as [<-|Hin]; [discriminate|]). contradiction.
Defined.

Lemma find_lookup_spec (lk : Datatypes.list te_variable)
    (pre rest : string) :
  c_string pre = true ->
  Forall (fun var => c_string (name var) = true) lk ->
  match find_lookup lk (pre ++ rest) (String.length pre) with
  | Some v =>
      exists l1 l2, lk = l1 ++ v :: l2 /\ name v = pre
                    /\ Forall (fun var => name var <> pre) l1
  | None => Forall (fun var => name var <> pre) lk
  end.
Proof.
  intros Hpre Hlk. induction Hlk as [|v lk Hv Hlk IH]; cbn [find_lookup].
  - constructor.
  - pose proof (name_matches pre rest (name v) Hpre Hv) as Hm.
    destruct (Z.eqb_spec (strncmp (pre ++ rest) (name v) (String.length pre))
                0) as [Hs|Hs]; cbn [andb].
    + destruct (Z.eqb_spec (code (char_at (name v) (String.length pre))) 0)
        as [Hz|Hz].
      * exists [], lk. split; [reflexivity|]. split; [|constructor].
        apply Hm. now split.
      * assert (Hne : name v <> pre) by (intros E; apply Hm in E; tauto).
        destruct (find_lookup lk (pre ++ rest) (String.length pre)) as [x|].
        -- destruct IH as (l1 & l2 & -> & Hx & Hl1).
           exists (v :: l1), l2. split; [reflexivity|]. split; [exact Hx|].
           now constructor.
        -- now constructor.
    + assert (Hne : name v <> pre) by (intros E; apply Hm in E; tauto).
      destruct (find_lookup lk (pre ++ rest) (String.length pre)) as [x|].
      * destruct IH as (l1 & l2 & -> & Hx & Hl1).
        exists (v :: l1), l2. split; [reflexivity|]. split; [exact Hx|].
        now constructor.
      * now constructor.
Qed.

(** [find_lookup] returns the first entry of the caller's table named
    by exactly the identifier, and a null pointer when no entry is.
    What it returns is what the identifier resolves to, whether or not
    a built-in has the same name. *)
Theorem find_lookup_first_match (lk : Datatypes.list te_variable)
    (pre rest : string) :
  c_string pre = true ->
  Forall (fun var => c_string (name var) = true) lk ->
  (forall v,
     find_lookup lk (pre ++ rest) (String.length pre) = Some v
     <-> exists l1 l2, lk = l1 ++ v :: l2 /\ name v = pre
                       /\ Forall (fun var => name var <> pre) l1)
  /\ (find_lookup lk (pre ++ rest) (String.length pre) = None
      <-> Forall (fun var => name var <> pre) lk)
  /\ (forall v,
        find_lookup lk (pre ++ rest) (String.length pre) = Some v ->
        resolve lk (pre ++ rest) (String.length pre)
        = Some (symbol_of_var v)).
Proof.
  intros Hpre Hlk. pose proof (find_lookup_spec lk pre rest Hpre Hlk) as H.
  assert (Huniq : forall v v' l1 l2 l1' l2',
             l1 ++ v :: l2 = l1' ++ v' :: l2' ->
             name v = pre -> name v' = pre ->
             Forall (fun var => name var <> pre) l1 ->
             Forall (fun var => name var <> pre) l1' -> v = v').
  { intros v v' l1. induction l1 as [|a l1 IHl]; intros l2 l1' l2' E Hv Hv' H1 H1'.
    - destruct l1' as [|a' l1']; cbn in E.
      + now injection E.
      + injection E as -> _. inversion H1'; subst. contradiction.
    - destruct l1' as [|a' l1']; cbn in E.
      + injection E as -> _. inversion H1; subst. contradiction.
      + injection E as -> E. inversion H1; inversion H1'; subst.
        eapply IHl; eauto. }
  split; [|split].
  - intros v. split.
    + intros E. rewrite E in H. exact H.
    + intros (l1 & l2 & E & Hv & Hl1).
      destruct (find_lookup lk (pre ++ rest) (String.length pre)) as [x|].
      * destruct H as (l1' & l2' & E' & Hx & Hl1'). f_equal.
        rewrite E in E'. symmetry. eapply Huniq; eauto.
      * rewrite Forall_forall in H. exfalso. apply (H v); [|exact Hv].
        rewrite E. apply in_or_app. right. now left.
  - split.
    + intros E. rewrite E in H. exact H.
    + intros Hall.
      destruct (find_lookup lk (pre ++ rest) (String.length pre)) as [x|];
        [|reflexivity].
      destruct H as (l1 & l2 & E & Hx & _). rewrite Forall_forall in Hall.
      exfalso. apply (Hall x); [|exact Hx].
      rewrite E. apply in_or_app. right. now left.
  - intros v E. unfold resolve. now rewrite E.
Qed.

Lemma find_lookup_first_match_witness :
  resolve [mk_var "x"%string 10 TE_VARIABLE 0; mk_var "pi"%string 20 TE_VARIABLE 0;
           mk_var "pi"%string 30 TE_VARIABLE 0] "pi*2"%string 2
  = Some (symbol_of_var (mk_var "pi"%string 20 TE_VARIABLE 0)).
Proof.
  destruct (find_lookup_first_match
              [mk_var "x"%string 10 TE_VARIABLE 0; mk_var "pi"%string 20 TE_VARIABLE 0;
               mk_var "pi"%string 30 TE_VARIABLE 0] "pi"%string "*2"%string eq_refl)
    as (_ & _ & H).
  - repeat constructor.
  - apply H. reflexivity.
Defined.

(** ** Blanks *)

Lemma isspace4_cases (c : ascii) :
  isspace4 c = true ->
  c = " "%char \/ c = "009"%char \/ c = "010"%char \/ c = "013"%char.
Proof.
  unfold isspace4. intros H.
  repeat (apply orb_prop in H as [H|H]); apply Z.eqb_eq in H.
  - left. now apply code_inj.
  - right. left. now apply code_inj.
  - right. right. left. now apply code_inj.
  - right. right. right. now apply code_inj.
Qed.

Lemma next_token_skips_one (h : host) (s : state) (c : ascii)
    (rest : string) :
  isspace4 c = true ->
  next_token h (set_next s (String c rest)) = next_token h (set_next s rest).
Proof.
  intros Hc. unfold next_token. cbn [next set_next String.length].
  destruct (isspace4_cases c Hc) as [-> | [-> | [-> | ->]]]; reflexivity.
Qed.

Lemma next_token_skips_run (h : host) (s : state) (blanks rest : string) :
  blank blanks = true ->
  next_token h (set_next s (blanks ++ rest)) = next_token h (set_next s rest).
Proof.
  induction blanks as [|c blanks IH]; intros Hb; [reflexivity|].
  cbn in Hb. apply andb_prop in Hb as [Hc Hb].
  cbn [String.append]. rewrite next_token_skips_one by exact Hc.
  now apply IH.
Qed.

(** Blanks before a token are skipped: the lexer leaves the same state
    whether or not the unread input starts with spaces, tabs, newlines
    or carriage returns. *)
Theorem next_token_skips_blanks (h : host) (s : state)
    (blanks rest : string) :
  blank blanks = true ->
  next_token h (set_next s (blanks ++ rest)) = next_token h (set_next s rest).
Proof. exact (next_token_skips_run h s blanks rest). Qed.

Lemma next_token_skips_blanks_witness :
  stype (next_token example_host
           (set_next (initial_state ""%string []) "   )"%string)) = TOK_CLOSE.
Proof.
  exact (eq_trans
           (f_equal stype
              (next_token_skips_blanks example_host
                 (initial_state ""%string []) "   "%string ")"%string
                 eq_refl))
           eq_refl).
Defined.

Lemma append_empty (s : string) : (s ++ "")%string = s.
Proof. induction s as [|c s IH]; cbn; [reflexivity|now rewrite IH]. Qed.

(** An empty expression, or one of blanks only, does not compile:
    [te_compile] returns a null tree and reports the length of the
    input as the place of the error, or 1 for the empty input. *)
Theorem blank_input_fails (h : host) (expression : string)
    (variables : Datatypes.list te_variable) (w : world h) :
  blank expression = true ->
  te_compile h expression variables w
  = Some (None, Z.max 1 (Z.of_nat (String.length expression)), w).
Proof.
  intros Hb. unfold te_compile.
  assert (Hfirst : next_token h (initial_state expression variables)
                   = mk_state expression "" TOK_END (Bound 0) 0 variables).
  { change (initial_state expression variables)
      with (set_next (initial_state expression variables) expression).
    rewrite <- (append_empty expression) at 2.
    rewrite next_token_skips_run by exact Hb. reflexivity. }
  rewrite Hfirst.
  replace (parse_fuel expression)
    with (S (S (S (S (S (S (6 * String.length expression)))))))
    by (unfold parse_fuel; lia).
  cbn. unfold offset. cbn [start next set_type String.length].
  do 3 f_equal. clear.
  destruct (Z.eqb_spec (Z.of_nat (String.length expression) - Z.of_nat 0) 0);
    lia.
Qed.

Lemma blank_input_fails_witness :
  te_compile example_host ""%string example_vars example_memory
  = Some (None, 1, example_memory)
  /\ te_compile example_host "   "%string [] example_memory
     = Some (None, 3, example_memory).
Proof.
  split.
  - exact (blank_input_fails example_host ""%string example_vars example_memory
             eq_refl).
  - exact (blank_input_fails example_host "   "%string [] example_memory eq_refl).
Defined.

(** ** The folding pass, once more *)

Section FoldAgain.

Variable h : host.

Lemma opt_params_again (ps : Datatypes.list te_expr) :
  Forall (fun p => forall w w',
            optimize h (fst (optimize h p w)) w'
            = (fst (optimize h p w), w')) ps ->
  forall k w w',
    opt_params h (fst (fst (opt_params h ps k w))) k w'
    = (fst (opt_params h ps k w), w').
Proof.
  induction 1 as [|p ps Hp _ IH]; intros [|k] w w'; try reflexivity.
  cbn [opt_params]. specialize (Hp w).
  destruct (optimize h p w) as [p' w1]. cbn [fst] in Hp.
  specialize (IH k w1).
  destruct (opt_params h ps k w1) as [[ps' known] w2]. cbn [fst] in *.
  cbn [opt_params]. rewrite Hp, IH. reflexivity.
Qed.

(** Folding a folded tree changes nothing: the second pass returns the
    tree it was given and leaves the caller's state as it found it. *)
Theorem optimize_idempotent (n : te_expr) (w w' : world h) :
  optimize h (fst (optimize h n w)) w' = (fst (optimize h n w), w').
Proof.
  revert w w'. induction n as [ty un ps cx IH] using te_expr_ind.
  intros w w'. rewrite optimize_unfold. cbv zeta.
  destruct (ty =? TE_CONSTANT) eqn:Hc.
  { cbn [fst]. rewrite optimize_unfold. cbv zeta. now rewrite Hc. }
  destruct (ty =? TE_VARIABLE) eqn:Hv.
  { cbn [fst]. rewrite optimize_unfold. cbv zeta. now rewrite Hc, Hv. }
  destruct (IS_PURE ty) eqn:Hp.
  2:{ cbn [fst]. rewrite optimize_unfold. cbv zeta. now rewrite Hc, Hv, Hp. }
  pose proof (opt_params_again ps IH (Z.to_nat (ARITY ty)) w w') as Hagain.
  destruct (opt_params h ps (Z.to_nat (ARITY ty)) w) as [[ps' known] w1].
  cbn [fst] in Hagain. destruct known.
  - destruct (te_eval h (mk_expr ty un ps' cx) w1) as [v w2]. reflexivity.
  - cbn [fst]. rewrite optimize_unfold. cbv zeta.
    rewrite Hc, Hv, Hp, Hagain. reflexivity.
Qed.

Lemma opt_params_length (ps : Datatypes.list te_expr) :
  forall k w, List.length (fst (fst (opt_params h ps k w))) = List.length ps.
Proof.
  induction ps as [|p ps IH]; intros [|k] w; try reflexivity.
  cbn [opt_params]. destruct (optimize h p w) as [p' w1].
  specialize (IH k w1).
  destruct (opt_params h ps k w1) as [[ps' known] w2]. cbn in *.
  now rewrite IH.
Qed.

Lemma opt_params_Forall (P : te_expr -> Prop) (ps : Datatypes.list te_expr) :
  Forall (fun p => P p -> forall w, P (fst (optimize h p w))) ps ->
  Forall P ps ->
  forall k w, Forall P (fst (fst (opt_params h ps k w))).
Proof.
  induction 1 as [|p ps Hp _ IH]; intros Hall [|k] w; try assumption.
  inversion Hall as [|? ? Hpp Hps]; subst.
  cbn [opt_params]. specialize (Hp Hpp w).
  destruct (optimize h p w) as [p' w1]. specialize (IH Hps k w1).
  destruct (opt_params h ps k w1) as [[ps' known] w2]. cbn in *.
  now constructor.
Qed.

(** The folding pass keeps the shape of the nodes. *)
Lemma optimize_well_formed (n : te_expr) :
  every_node well_formed n ->
  forall w, every_node well_formed (fst (optimize h n w)).
Proof.
  induction n as [ty un ps cx IH] using te_expr_ind. intros Hn w.
  rewrite optimize_unfold. cbv zeta.
  destruct (ty =? TE_CONSTANT); [exact Hn|].
  destruct (ty =? TE_VARIABLE); [exact Hn|].
  destruct (IS_PURE ty); [|exact Hn].
  apply every_node_unfold in Hn as [Hshape Hps].
  pose proof (opt_params_length ps (Z.to_nat (ARITY ty)) w) as Hlen.
  pose proof (opt_params_Forall (every_node well_formed) ps IH Hps
                (Z.to_nat (ARITY ty)) w) as Hall.
  destruct (opt_params h ps (Z.to_nat (ARITY ty)) w) as [[ps' known] w1].
  cbn [fst] in *. destruct known.
  - destruct (te_eval h (mk_expr ty un ps' cx) w1) as [v w2].
    apply every_node_unfold. split; [reflexivity|constructor].
  - apply every_node_unfold. split; [|exact Hall].
    unfold well_formed in *. cbn [parameters type] in *. congruence.
Qed.

End FoldAgain.

Lemma built_well_formed (vars : Datatypes.list te_variable) (t : te_expr) :
  built vars t -> every_node well_formed t.
Proof.
  induction 1 as [v|var Hin Hm|var idx Hin Hm Hidx IH
                 |sym args Hres Hm Hlen Hargs IH|f a b Hop Hba IHa Hbb IHb
                 |a Hba IHa] using built_induction.
  - split; [reflexivity|exact I].
  - split; [reflexivity|exact I].
  - apply every_node_unfold. split; [reflexivity|]. now constructor.
  - apply every_node_unfold. split; [exact Hlen|exact IH].
  - rewrite binary_node_eq. apply every_node_unfold.
    split; [reflexivity|]. now repeat constructor.
  - apply every_node_unfold. split; [reflexivity|]. now constructor.
Qed.

(** In a tree [te_compile] returns, every node has exactly the children
    its type code announces: none for a constant or a variable, one for
    an array lookup, the arity for a call. *)
Theorem compiled_tree_well_formed (h : host) (expression : string)
    (variables : Datatypes.list te_variable) (w w' : world h)
    (t : te_expr) (error : Z) :
  te_compile h expression variables w = Some (Some t, error, w') ->
  every_node well_formed t.
Proof.
  unfold te_compile. fold (first_state h expression variables).
  destruct (list_ h (parse_fuel expression)
              (first_state h expression variables))
    as [[[root|] s]|] eqn:Hparse; try discriminate.
  destruct (Z.eqb_spec (stype s) TOK_END) as [Hend|Hend]; cbn [negb];
    [|discriminate].
  pose proof (list__built h expression variables root s Hparse Hend) as Hb.
  pose proof (optimize_well_formed h root (built_well_formed _ _ Hb) w) as Hw.
  destruct (optimize h root w) as [root' w1]. intros [= <- _ _]. exact Hw.
Qed.

Lemma compiled_tree_well_formed_witness :
  every_node well_formed
    (binary_node p_add (array_node 10 (constant_node (D.of_Z 1)))
       (constant_node (D.of_Z 6))).
Proof.
  apply (compiled_tree_well_formed example_host "arr1[1]+2*3"%string
           example_vars example_memory example_memory _ 0).
  vm_compute. reflexivity.
Defined.

(** ** Compiling and the caller's state *)

Section FoldStateless.

Variable h : host.

Lemma opt_params_stateless (ps : Datatypes.list te_expr) :
  Forall (fun p => forall w1 w2,
            optimize h p w1 = (fst (optimize h p w2), w1)) ps ->
  forall k w1 w2,
    opt_params h ps k w1 = (fst (opt_params h ps k w2), w1).
Proof.
  induction 1 as [|p ps Hp _ IH]; intros [|k] w1 w2; try reflexivity.
  cbn [opt_params]. rewrite (Hp w1 w2).
  destruct (optimize h p w2) as [p' w3]. cbn [fst].
  rewrite (IH k w1 w3).
  destruct (opt_params h ps k w3) as [[ps' known] w4]. reflexivity.
Qed.

Lemma optimize_stateless (n : te_expr) :
  every_node flag_on_call n ->
  every_node (flag_honoured h) n ->
  forall w1 w2, optimize h n w1 = (fst (optimize h n w2), w1).
Proof.
  induction n as [ty un ps cx IH] using te_expr_ind.
  intros Hcode Hcontract w1 w2.
  pose proof Hcode as Hcode0. pose proof Hcontract as Hcontract0.
  apply every_node_unfold in Hcode as [Hcode Hcodes].
  apply every_node_unfold in Hcontract as [Hcontract Hcontracts].
  rewrite !optimize_unfold. cbv zeta.
  destruct (ty =? TE_CONSTANT); [reflexivity|].
  destruct (ty =? TE_VARIABLE); [reflexivity|].
  destruct (IS_PURE ty) eqn:Hpure; [|reflexivity].
  assert (Hstateless :
    Forall (fun p => forall w1 w2,
              optimize h p w1 = (fst (optimize h p w2), w1)) ps).
  { rewrite Forall_forall in *. intros p Hp. apply IH; auto. }
  assert (Hchildren :
    Forall (fun p => forall w0, same_child h p (fst (optimize h p w0))) ps).
  { rewrite Forall_forall in *. intros p Hp.
    apply optimize_same_child; auto. }
  rewrite (opt_params_stateless ps Hstateless (Z.to_nat (ARITY ty)) w1 w2).
  pose proof (opt_params_spec h ps Hchildren (Z.to_nat (ARITY ty)) w2)
    as [_ Hknown].
  destruct (opt_params h ps (Z.to_nat (ARITY ty)) w2) as [[ps' known] w3].
  cbn [fst snd] in *. destruct known; [|reflexivity].
  destruct (Hknown eq_refl) as [Hlen Hconst].
  rewrite (te_eval_known h ty un ps' cx w1 w3);
    [|apply Hcode; exact Hpure | exact Hlen | exact Hconst
     |intros a Ha; apply (Hcontract Hpure a Ha)].
  destruct (te_eval h (mk_expr ty un ps' cx) w3) as [v w4]. reflexivity.
Qed.

End FoldStateless.

(** When the callables registered as pure are pure, compiling neither
    reads nor changes the caller's state: the tree and the error value
    are the same from every state, and the state comes back as it was
    given. *)
Theorem compile_is_stateless (h : host) (expression : string)
    (variables : Datatypes.list te_variable) (w1 w2 : world h) :
  purity_honoured h variables ->
  te_compile h expression variables w1
  = match te_compile h expression variables w2 with
    | Some (t, error, _) => Some (t, error, w1)
    | None => None
    end.
Proof.
  intros Hpure. unfold te_compile. fold (first_state h expression variables).
  destruct (list_ h (parse_fuel expression)
              (first_state h expression variables))
    as [[[root|] s]|] eqn:Hparse; try reflexivity.
  destruct (Z.eqb_spec (stype s) TOK_END) as [Hend|Hend]; cbn [negb];
    [|reflexivity].
  pose proof (list__built h expression variables root s Hparse Hend) as Hb.
  rewrite (optimize_stateless h root
             (built_flag_on_call variables root Hb)
             (built_flag_honoured h variables root Hpure Hb) w1 w2).
  destruct (optimize h root w2) as [root' w3]. reflexivity.
Qed.

Lemma example_table_honours_purity :
  purity_honoured example_host example_vars.
Proof.
  intros var Hin Hp.
  repeat (destruct Hin as [<-|Hin]; [try discriminate Hp|]);
    [|contradiction].
  intros args w w'. cbn. now destruct args as [|x [|y args]].
Defined.

Lemma compile_is_stateless_witness :
  te_compile example_host "twice(4)+tick"%string example_vars example_memory
  = match te_compile example_host "twice(4)+tick"%string example_vars [] with
    | Some (t, error, _) => Some (t, error, example_memory)
    | None => None
    end.
Proof.
  exact (compile_is_stateless example_host "twice(4)+tick"%string example_vars
           example_memory [] example_table_honours_purity).
Defined.

(** ** Least and greatest element *)

Lemma SFltb_positive (m1 m2 : positive) (e1 e2 : Z) :
  SFltb (S754_finite false m1 e1) (S754_finite false m2 e2) = true
  <-> e1 < e2 \/ (e1 = e2 /\ (m1 < m2)%positive).
Proof.
  unfold SFltb. cbn [SFcompare].
  destruct (Z.compare_spec e1 e2) as [->|H|H].
  - rewrite Pos.compare_cont_spec. cbn [Pos.switch_Eq].
    destruct (Pos.compare_spec m1 m2) as [->|Hm|Hm]; split;
      try discriminate; try lia; auto.
  - split; [lia|reflexivity].
  - split; [discriminate|lia].
Qed.

Lemma SFltb_negative (m1 m2 : positive) (e1 e2 : Z) :
  SFltb (S754_finite true m1 e1) (S754_finite true m2 e2) = true
  <-> e2 < e1 \/ (e1 = e2 /\ (m2 < m1)%positive).
Proof.
  unfold SFltb. cbn [SFcompare].
  destruct (Z.compare_spec e1 e2) as [->|H|H].
  - rewrite Pos.compare_cont_spec. cbn [Pos.switch_Eq].
    destruct (Pos.compare_spec m1 m2) as [->|Hm|Hm]; cbn [CompOpp]; split;
      try discriminate; try lia; auto.
  - split; [discriminate|lia].
  - split; [lia|reflexivity].
Qed.

Lemma ltb_irrefl (x : D.double) : D.ltb x x = false.
Proof.
  destruct x as [s|s| |s m e]; try (now destruct s); [reflexivity|].
  destruct (D.ltb (S754_finite s m e) (S754_finite s m e)) eqn:E;
    [|reflexivity].
  destruct s; [apply SFltb_negative in E|apply SFltb_positive in E]; lia.
Qed.

Lemma ltb_trans (x y z : D.double) :
  D.ltb x y = true -> D.ltb y z = true -> D.ltb x z = true.
Proof.
  unfold D.ltb.
  destruct x as [sx|sx| |sx mx ex]; destruct y as [sy|sy| |sy my ey];
    destruct z as [sz|sz| |sz mz ez];
    try destruct sx; try destruct sy; try destruct sz;
    try discriminate; try reflexivity; intros Hxy Hyz.
  - apply SFltb_negative. apply SFltb_negative in Hxy, Hyz. lia.
  - apply SFltb_positive. apply SFltb_positive in Hxy, Hyz. lia.
Qed.

Section Extremes.

Variable mem : Z -> D.double.

Lemma te_arrmin_loop_spec (cnt : nat) (arr : Z) :
  forall i m,
    let r := te_arrmin_loop mem cnt arr i m in
    (r = m \/ exists j, i <= j < i + Z.of_nat cnt /\ r = mem (arr + j))
    /\ (forall x, D.ltb x m = false -> D.ltb x r = false)
    /\ (forall j, i <= j < i + Z.of_nat cnt ->
                  D.ltb (mem (arr + j)) r = false).
Proof.
  induction cnt as [|cnt IH]; intros i m; cbn [te_arrmin_loop]; cbv zeta.
  - split; [now left|]. split; [auto|]. intros j Hj. lia.
  - set (m' := if D.ltb (mem (arr + i)) m then mem (arr + i) else m).
    destruct (IH (i + 1) m') as (Hmem & Hlow & Hall).
    assert (Hm' : forall x, D.ltb x m = false -> D.ltb x m' = false).
    { intros x Hx. unfold m'.
      destruct (D.ltb (mem (arr + i)) m) eqn:E; [|exact Hx].
      destruct (D.ltb x (mem (arr + i))) eqn:E'; [|reflexivity].
      rewrite (ltb_trans _ _ _ E' E) in Hx. discriminate. }
    assert (Hi : D.ltb (mem (arr + i)) m' = false).
    { unfold m'. destruct (D.ltb (mem (arr + i)) m) eqn:E;
        [apply ltb_irrefl|exact E]. }
    split; [|split].
    + destruct Hmem as [Hr|(j & Hj & Hr)].
      * unfold m' in Hr. destruct (D.ltb (mem (arr + i)) m).
        -- right. exists i. split; [lia|exact Hr].
        -- now left.
      * right. exists j. split; [lia|exact Hr].
    + intros x Hx. apply Hlow, Hm', Hx.
    + intros j Hj. destruct (Z.eq_dec j i) as [->|Hne].
      * apply Hlow, Hi.
      * apply Hall. lia.
Qed.

Lemma te_arrmax_loop_spec (cnt : nat) (arr : Z) :
  forall i m,
    let r := te_arrmax_loop mem cnt arr i m in
    (r = m \/ exists j, i <= j < i + Z.of_nat cnt /\ r = mem (arr + j))
    /\ (forall x, D.gtb x m = false -> D.gtb x r = false)
    /\ (forall j, i <= j < i + Z.of_nat cnt ->
                  D.gtb (mem (arr + j)) r = false).
Proof.
  induction cnt as [|cnt IH]; intros i m; cbn [te_arrmax_loop]; cbv zeta.
  - split; [now left|]. split; [auto|]. intros j Hj. lia.
  - set (m' := if D.gtb (mem (arr + i)) m then mem (arr + i) else m).
    destruct (IH (i + 1) m') as (Hmem & Hlow & Hall).
    assert (Hm' : forall x, D.gtb x m = false -> D.gtb x m' = false).
    { intros x Hx. unfold m'.
      destruct (D.gtb (mem (arr + i)) m) eqn:E; [|exact Hx].
      destruct (D.gtb x (mem (arr + i))) eqn:E'; [|reflexivity].
      unfold D.gtb in *. fold D.ltb in *.
      rewrite (ltb_trans _ _ _ E E') in Hx. discriminate. }
    assert (Hi : D.gtb (mem (arr + i)) m' = false).
    { unfold m'. destruct (D.gtb (mem (arr + i)) m) eqn:E;
        [apply ltb_irrefl|exact E]. }
    split; [|split].
    + destruct Hmem as [Hr|(j & Hj & Hr)].
      * unfold m' in Hr. destruct (D.gtb (mem (arr + i)) m).
        -- right. exists i. split; [lia|exact Hr].
        -- now left.
      * right. exists j. split; [lia|exact Hr].
    + intros x Hx. apply Hlow, Hm', Hx.
    + intros j Hj. destruct (Z.eq_dec j i) as [->|Hne].
      * apply Hlow, Hi.
      * apply Hall. lia.
Qed.

(** Over an array of at least one element, [te_arrmin] returns one of
    the elements, and no element is less than it; [te_arrmax] returns
    one of the elements, and no element is greater than it. *)
Theorem te_arrmin_arrmax_extreme (arr : Z) :
  1 <= D.to_int (mem arr) ->
  (exists i, 1 <= i <= D.to_int (mem arr)
             /\ te_arrmin mem arr = mem (arr + i))
  /\ (forall i, 1 <= i <= D.to_int (mem arr) ->
                D.ltb (mem (arr + i)) (te_arrmin mem arr) = false)
  /\ (exists i, 1 <= i <= D.to_int (mem arr)
                /\ te_arrmax mem arr = mem (arr + i))
  /\ (forall i, 1 <= i <= D.to_int (mem arr) ->
                D.gtb (mem (arr + i)) (te_arrmax mem arr) = false).
Proof.
  intros Hlen. unfold te_arrmin, te_arrmax. cbv zeta.
  set (len := D.to_int (mem arr)) in *.
  replace (len <? 1) with false by (symmetry; apply Z.ltb_ge; exact Hlen).
  destruct (te_arrmin_loop_spec (Z.to_nat (len - 1)) arr 2 (mem (arr + 1)))
    as (Hmem & Hlow & Hall).
  destruct (te_arrmax_loop_spec (Z.to_nat (len - 1)) arr 2 (mem (arr + 1)))
    as (Hmem' & Hlow' & Hall').
  rewrite Z2Nat.id in * by lia.
  split; [|split; [|split]].
  - destruct Hmem as [->|(j & Hj & ->)].
    + exists 1. split; [lia|reflexivity].
    + exists j. split; [lia|reflexivity].
  - intros i Hi. destruct (Z.eq_dec i 1) as [->|Hne].
    + apply Hlow, ltb_irrefl.
    + apply Hall. lia.
  - destruct Hmem' as [->|(j & Hj & ->)].
    + exists 1. split; [lia|reflexivity].
    + exists j. split; [lia|reflexivity].
  - intros i Hi. destruct (Z.eq_dec i 1) as [->|Hne].
    + apply Hlow'. apply ltb_irrefl.
    + apply Hall'. lia.
Qed.

End Extremes.

Lemma te_arrmin_arrmax_extreme_witness :
  D.ltb (example_load example_memory 12)
    (te_arrmin (example_load example_memory) 10) = false
  /\ D.gtb (example_load example_memory 12)
       (te_arrmax (example_load example_memory) 10) = false.
Proof.
  destruct (te_arrmin_arrmax_extreme (example_load example_memory) 10)
    as (_ & Hmin & _ & Hmax).
  - vm_compute. discriminate.
  - split; [apply (Hmin 2)|apply (Hmax 2)]; vm_compute; split; discriminate.
Defined.

(** ** Reading a name *)

Lemma ident_len_app (f rest : string) :
  ident_tail f = true -> ends_identifier rest = true ->
  ident_len (f ++ rest) = String.length f.
Proof.
  intros Hf Hrest. induction f as [|c f IH].
  - destruct rest as [|d rest]; [reflexivity|].
    cbn [String.append ident_len String.length].
    change (isalpha d || isdigit d || (code d =? code "_"%char))
      with (ident_char d).
    cbn [ends_identifier] in Hrest. apply negb_true_iff in Hrest.
    now rewrite Hrest.
  - cbn [ident_tail] in Hf. apply andb_prop in Hf as [Hc Hf].
    cbn [String.append ident_len String.length].
    change (isalpha c || isdigit c || (code c =? code "_"%char))
      with (ident_char c).
    now rewrite Hc, (IH Hf).
Qed.

Lemma drop_app (f rest : string) : drop (String.length f) (f ++ rest) = rest.
Proof. induction f as [|c f IH]; [now destruct rest|exact IH]. Qed.

Lemma isalpha_code (c : ascii) : isalpha c = true -> 65 <= code c <= 122.
Proof.
  unfold isalpha. intros H.
  change (code "a"%char) with 97 in H. change (code "z"%char) with 122 in H.
  change (code "A"%char) with 65 in H. change (code "Z"%char) with 90 in H.
  apply orb_prop in H as [H|H]; apply andb_prop in H as [H1 H2];
    apply Z.leb_le in H1, H2; lia.
Qed.

Lemma ident_char_code (c : ascii) : ident_char c = true -> code c <> 0.
Proof.
  unfold ident_char, isdigit. intros H.
  apply orb_prop in H as [H|H]; [apply orb_prop in H as [H|H]|].
  - apply isalpha_code in H. lia.
  - apply andb_prop in H as [H _]. apply Z.leb_le in H.
    change (code "0"%char) with 48 in H. lia.
  - apply Z.eqb_eq in H. rewrite H. discriminate.
Qed.

Lemma ident_tail_c_string (f : string) :
  ident_tail f = true -> c_string f = true.
Proof.
  induction f as [|c f IH]; [reflexivity|]. cbn.
  intros H. apply andb_prop in H as [Hc Hf]. rewrite (IH Hf), andb_true_r.
  apply negb_true_iff, Z.eqb_neq. now apply ident_char_code.
Qed.

Lemma identifier_parts (f : string) :
  identifier f = true ->
  exists c r, f = String c r /\ isalpha c = true /\ ident_tail f = true.
Proof.
  destruct f as [|c r]; [discriminate|]. cbn. intros H.
  apply andb_prop in H as [Hc Hr]. exists c, r.
  split; [reflexivity|]. split; [exact Hc|].
  unfold ident_char. now rewrite Hc, Hr.
Qed.

(** Comparing over the length of the name reads nothing after it. *)
Lemma strncmp_rest (pre r1 r2 b : string) :
  strncmp (pre ++ r1) b (String.length pre)
  = strncmp (pre ++ r2) b (String.length pre).
Proof.
  revert b. induction pre as [|c pre IH]; intros b; [reflexivity|].
  cbn [String.append String.length strncmp].
  change (char_at (String c (pre ++ r1)) 0) with c.
  change (char_at (String c (pre ++ r2)) 0) with c.
  destruct (negb (code c =? code (char_at b 0))); [reflexivity|].
  destruct (code c =? 0); [reflexivity|]. cbn [drop]. apply IH.
Qed.

Lemma find_lookup_rest (lk : Datatypes.list te_variable)
    (pre r1 r2 : string) :
  find_lookup lk (pre ++ r1) (String.length pre)
  = find_lookup lk (pre ++ r2) (String.length pre).
Proof.
  induction lk as [|v lk IH]; [reflexivity|]. cbn [find_lookup].
  now rewrite (strncmp_rest pre r1 r2), IH.
Qed.

Lemma find_builtin_loop_rest (fuel : nat) (pre r1 r2 : string) :
  forall imin imax,
    find_builtin_loop fuel (pre ++ r1) (String.length pre) imin imax
    = find_builtin_loop fuel (pre ++ r2) (String.length pre) imin imax.
Proof.
  induction fuel as [|k IH]; intros imin imax; [reflexivity|].
  cbn [find_builtin_loop].
  destruct (imax >=? imin); [|reflexivity].
  destruct (nth_error functions _) as [fi|]; [|reflexivity].
  rewrite (strncmp_rest pre r1 r2). now rewrite !IH.
Qed.

Lemma resolve_rest (lk : Datatypes.list te_variable) (pre r1 r2 : string) :
  resolve lk (pre ++ r1) (String.length pre)
  = resolve lk (pre ++ r2) (String.length pre).
Proof.
  unfold resolve, find_builtin.
  now rewrite (find_lookup_rest lk pre r1 r2),
    (find_builtin_loop_rest _ pre r1 r2).
Qed.

Section ReadingNames.

Variable h : host.

(** One pass of the lexer over a name. *)
Lemma next_token_step_name (s : state) (f rest : string) :
  identifier f = true -> ends_identifier rest = true ->
  next_token_step h (set_next s (f ++ rest))
  = let s1 := set_next s rest in
    match resolve (lookup s) (f ++ rest) (String.length f) with
    | None => set_type s1 TOK_ERROR
    | Some var =>
        let m := TYPE_MASK (sym_type var) in
        if m =? TE_VARIABLE then
          set_token s1 TOK_VARIABLE (Bound (sym_bound var))
        else if (TE_CLOSURE 0 <=? m) && (m <=? TE_CLOSURE 7) then
          set_token (set_context s1 (sym_context var))
            (sym_type var) (Function (sym_function var))
        else if (TE_FUNCTION 0 <=? m) && (m <=? TE_FUNCTION 7) then
          set_token s1 (sym_type var) (Function (sym_function var))
        else s1
    end.
Proof.
  intros Hf Hrest.
  destruct (identifier_parts f Hf) as (c & r & Ef & Hc & Htail).
  unfold next_token_step. cbn [next set_next lookup].
  rewrite (ident_len_app f rest Htail Hrest), drop_app.
  assert (Hhead : char_at (f ++ rest) 0 = c) by (now rewrite Ef).
  rewrite Hhead.
  assert (Hnum : isdigit c || (code c =? code "."%char) = false).
  { apply isalpha_code in Hc. unfold isdigit.
    change (code "9"%char) with 57. change (code "."%char) with 46.
    change (code "0"%char) with 48.
    apply orb_false_intro; [apply andb_false_intro2|];
      [apply Z.leb_gt|apply Z.eqb_neq]; lia. }
  rewrite Hnum, Hc. reflexivity.
Qed.

Lemma next_token_one_pass (s : state) :
  code (char_at (next s) 0) <> 0 ->
  stype (next_token_step h (set_type s TOK_NULL)) <> TOK_NULL ->
  next_token h s = next_token_step h (set_type s TOK_NULL).
Proof.
  intros Hc Hn. unfold next_token. cbn [next_token_loop].
  cbn [next set_type].
  replace (code (char_at (next s) 0) =? 0) with false
    by (symmetry; now apply Z.eqb_neq).
  now replace (stype (next_token_step h (set_type s TOK_NULL)) =? TOK_NULL)
    with false by (symmetry; now apply Z.eqb_neq).
Qed.

Lemma name_head (f rest : string) :
  identifier f = true -> code (char_at (f ++ rest) 0) <> 0.
Proof.
  intros Hf. destruct (identifier_parts f Hf) as (c & r & -> & Hc & _).
  change (char_at (String c r ++ rest) 0) with c.
  apply isalpha_code in Hc. lia.
Qed.

End ReadingNames.

(** ** Expressions of one name *)

Lemma strlen_app (a b : string) :
  String.length (a ++ b) = (String.length a + String.length b)%nat.
Proof. induction a as [|c a IH]; cbn; [reflexivity|now rewrite IH]. Qed.

Lemma resolve_name (lk : Datatypes.list te_variable) (f rest : string) :
  resolve lk (f ++ rest) (String.length f) = resolve lk f (String.length f).
Proof. rewrite <- (append_empty f) at 3. apply resolve_rest. Qed.

Section OneName.

Variable h : host.

(** The state after the first token, when the input starts with a
    name. *)
Lemma first_state_name (f rest : string)
    (vars : Datatypes.list te_variable) :
  identifier f = true -> ends_identifier rest = true ->
  let s1 := mk_state (f ++ rest) rest TOK_NULL (Bound 0) 0 vars in
  let s' :=
    match resolve vars f (String.length f) with
    | None => set_type s1 TOK_ERROR
    | Some var =>
        let m := TYPE_MASK (sym_type var) in
        if m =? TE_VARIABLE then
          set_token s1 TOK_VARIABLE (Bound (sym_bound var))
        else if (TE_CLOSURE 0 <=? m) && (m <=? TE_CLOSURE 7) then
          set_token (set_context s1 (sym_context var))
            (sym_type var) (Function (sym_function var))
        else if (TE_FUNCTION 0 <=? m) && (m <=? TE_FUNCTION 7) then
          set_token s1 (sym_type var) (Function (sym_function var))
        else s1
    end in
  stype s' <> TOK_NULL ->
  first_state h (f ++ rest) vars = s'.
Proof.
  intros Hf Hrest s1 s' Hn. unfold first_state.
  assert (Hstep : next_token_step h
                    (set_type (initial_state (f ++ rest) vars) TOK_NULL) = s').
  { change (set_type (initial_state (f ++ rest) vars) TOK_NULL)
      with (set_next
              (mk_state (f ++ rest) (f ++ rest) TOK_NULL (Bound 0) 0 vars)
              (f ++ rest)).
    rewrite (next_token_step_name h _ f rest Hf Hrest).
    cbn [lookup]. rewrite resolve_name. reflexivity. }
  rewrite next_token_one_pass.
  - exact Hstep.
  - apply name_head. exact Hf.
  - rewrite Hstep. exact Hn.
Qed.

Lemma next_token_at_end (s : state) :
  next s = EmptyString -> next_token h s = set_type s TOK_END.
Proof.
  intros Hn. unfold next_token. rewrite Hn. cbn [String.length next_token_loop].
  cbn [next set_type]. rewrite Hn. now destruct s.
Qed.

Lemma parse_postfix_loop_stops (l : state -> result) (fuel : nat)
    (s : state) (left : te_expr) :
  stype s <> TOK_OPEN_BRACKET ->
  parse_postfix_loop h l fuel s left = Some (Some left, s).
Proof.
  intros Hs. apply Z.eqb_neq in Hs.
  destruct fuel; cbn [parse_postfix_loop]; now rewrite Hs.
Qed.

Lemma sign_loop_stops (fuel : nat) (sign : Z) (s : state) :
  stype s <> TOK_INFIX -> sign_loop h fuel sign s = Some (sign, s).
Proof.
  intros Hs. destruct fuel; cbn [sign_loop]; now rewrite is_infix_none.
Qed.

(** What [base] returns for a first token that is no sign, when no
    operator and no separator follows, is what [list_] returns. *)
Lemma list__of_base (k : nat) (s : state) (r : option te_expr)
    (s' : state) :
  stype s <> TOK_INFIX ->
  base h k s = Some (r, s') ->
  stype s' <> TOK_INFIX -> stype s' <> TOK_SEP ->
  list_ h (5 + k) s = Some (r, s').
Proof.
  intros Hs Hbase Hni Hns.
  assert (Hno : forall ok, is_infix s' ok = None)
    by (intros ok; now apply is_infix_none).
  assert (Hpower : power h (S k) s = Some (r, s')).
  { cbn [power]. rewrite sign_loop_stops by exact Hs. exact Hbase. }
  assert (Hfactor : factor h (2 + k) s = Some (r, s'))
    by (apply (chain_stops h (power h (S k))); auto).
  assert (Hterm : term h (3 + k) s = Some (r, s'))
    by (apply (chain_stops h (factor h (2 + k))); auto).
  assert (Hexpr : expr h (4 + k) s = Some (r, s'))
    by (apply (chain_stops h (term h (3 + k))); auto).
  apply (chain_stops h (expr h (4 + k))); auto.
  unfold is_sep. apply Z.eqb_neq in Hns. now rewrite Hns.
Qed.

Lemma parse_fuel_split (expression : string) :
  parse_fuel expression = (5 + S (6 * String.length expression))%nat.
Proof. unfold parse_fuel. lia. Qed.

End OneName.

(** An expression that starts with a name neither the caller's table
    nor the built-in table holds does not compile, whatever follows the
    name; the error reported is the place just after the name. *)
Theorem unknown_name_fails (h : host) (f rest : string)
    (variables : Datatypes.list te_variable) (w : world h) :
  identifier f = true -> ends_identifier rest = true ->
  resolve variables f (String.length f) = None ->
  te_compile h (f ++ rest) variables w
  = Some (None, Z.of_nat (String.length f), w).
Proof.
  intros Hf Hrest Hres. unfold te_compile.
  fold (first_state h (f ++ rest) variables).
  pose proof (first_state_name h f rest variables Hf Hrest) as Hfirst.
  cbv zeta in Hfirst. rewrite Hres in Hfirst. rewrite Hfirst by discriminate.
  rewrite parse_fuel_split.
  rewrite (list__of_base h _ _
             (Some (with_value (new_expr 0 []) D.NAN))
             (set_type
                (set_type
                   (mk_state (f ++ rest) rest TOK_NULL (Bound 0) 0 variables)
                   TOK_ERROR) TOK_ERROR));
    try discriminate; [|reflexivity].
  cbn [stype set_type negb]. change (TOK_ERROR =? TOK_END) with false.
  cbn [negb]. unfold offset. cbn [start next set_type].
  rewrite strlen_app. do 3 f_equal.
  destruct (identifier_parts f Hf) as (c & r & -> & _).
  cbn [String.length].
  destruct (Z.eqb_spec
              (Z.of_nat (S (String.length r) + String.length rest)
               - Z.of_nat (String.length rest)) 0); lia.
Qed.

Lemma unknown_name_fails_witness :
  te_compile example_host "foo+1"%string example_vars example_memory
  = Some (None, 3, example_memory).
Proof.
  exact (unknown_name_fails example_host "foo"%string "+1"%string example_vars
           example_memory eq_refl eq_refl eq_refl).
Defined.

(** A variable of the caller's table, written alone, compiles to the
    node of its address, and that node evaluates to the cell at the
    address in the state of the time of evaluation. *)
Theorem variable_round_trip (h : host) (x : string)
    (variables : Datatypes.list te_variable) (var : te_variable)
    (w : world h) :
  identifier x = true ->
  find_lookup variables x (String.length x) = Some var ->
  TYPE_MASK (vtype var) = TE_VARIABLE ->
  te_compile h x variables w
  = Some (Some (variable_node (address var)), 0, w)
  /\ forall w', te_eval h (variable_node (address var)) w'
                = (load h w' (address var), w').
Proof.
  intros Hx Hfind Hm. split; [|reflexivity].
  unfold te_compile. fold (first_state h x variables).
  pose proof (first_state_name h x "" variables Hx eq_refl) as Hfirst.
  cbv zeta in Hfirst. unfold resolve in Hfirst. rewrite Hfind in Hfirst.
  cbn [symbol_of_var sym_type sym_bound] in Hfirst. rewrite Hm in Hfirst.
  change (TE_VARIABLE =? TE_VARIABLE) with true in Hfirst. cbv iota in Hfirst.
  rewrite append_empty in Hfirst. rewrite Hfirst by discriminate.
  set (s := set_token (mk_state x "" TOK_NULL (Bound 0) 0 variables)
              TOK_VARIABLE (Bound (address var))).
  rewrite parse_fuel_split.
  rewrite (list__of_base h _ s (Some (variable_node (address var)))
             (set_type s TOK_END)); try discriminate.
  - reflexivity.
  - cbn [base]. change (TYPE_MASK (stype s) =? TOK_NUMBER) with false.
    change (TYPE_MASK (stype s) =? TOK_VARIABLE) with true. cbv iota.
    rewrite (next_token_at_end h s eq_refl).
    apply parse_postfix_loop_stops. discriminate.
Qed.

Lemma variable_round_trip_witness :
  te_compile example_host "arr2"%string example_vars example_memory
  = Some (Some (variable_node 20), 0, example_memory).
Proof.
  exact (proj1 (variable_round_trip example_host "arr2"%string example_vars
                  (mk_var "arr2"%string 20 TE_VARIABLE 0) example_memory
                  eq_refl eq_refl eq_refl)).
Defined.

(** ** Callables of no argument *)

Section ZeroArity.

Variable h : host.

Lemma type_of_mask (ty v : Z) :
  TYPE_MASK ty = v ->
  forall c, TYPE_MASK c <> v -> (ty =? c) = false.
Proof. intros Hm c Hc. apply Z.eqb_neq. intros ->. contradiction. Qed.

Lemma base_call0 (k : nat) (s : state) :
  TYPE_MASK (stype s) = TE_FUNCTION 0 \/ TYPE_MASK (stype s) = TE_CLOSURE 0 ->
  base h (S k) s
  = if stype (next_token h s) =? TOK_OPEN then
      if negb (stype (next_token h (next_token h s)) =? TOK_CLOSE)
      then Some (Some (call_node s),
                 set_type (next_token h (next_token h s)) TOK_ERROR)
      else Some (Some (call_node s),
                 next_token h (next_token h (next_token h s)))
    else Some (Some (call_node s), next_token h s).
Proof.
  intros Hm. cbn [base]. cbv zeta.
  destruct Hm as [E|E]; rewrite E; reflexivity.
Qed.

Lemma call_node_record (e rest : string) (ty : Z) (fn : fnptr) (ctx : Z)
    (vars : Datatypes.list te_variable) :
  call_node (mk_state e rest ty (Function fn) ctx vars)
  = mk_expr ty (Function fn) [] (if IS_CLOSURE ty then ctx else 0).
Proof.
  unfold call_node, new_expr, with_function, with_context.
  cbn [stype su scontext function_of type u parameters context].
  rewrite firstn_nil. now destruct (IS_CLOSURE ty).
Qed.

Lemma compile_call0 (f : string) (vars : Datatypes.list te_variable)
    (sym : symbol) (w : world h) :
  identifier f = true ->
  resolve vars f (String.length f) = Some sym ->
  TYPE_MASK (sym_type sym) = TE_FUNCTION 0
  \/ TYPE_MASK (sym_type sym) = TE_CLOSURE 0 ->
  let node :=
    mk_expr (sym_type sym) (Function (sym_function sym)) []
      (if IS_CLOSURE (sym_type sym) then sym_context sym else 0) in
  te_compile h f vars w
  = Some (Some (fst (optimize h node w)), 0, snd (optimize h node w))
  /\ te_compile h (f ++ "()"%string) vars w
     = Some (Some (fst (optimize h node w)), 0, snd (optimize h node w)).
Proof.
  intros Hf Hres Hm node.
  set (ctx := if IS_CLOSURE (sym_type sym) then sym_context sym else 0).
  assert (Hfirst : forall rest, ends_identifier rest = true ->
            first_state h (f ++ rest) vars
            = mk_state (f ++ rest) rest (sym_type sym)
                (Function (sym_function sym)) ctx vars).
  { intros rest Hrest.
    pose proof (first_state_name h f rest vars Hf Hrest) as H1.
    cbv zeta in H1. rewrite Hres in H1. unfold ctx.
    destruct Hm as [E|E]; rewrite E in H1.
    - rewrite (IS_CLOSURE_of_function (sym_type sym))
        by (rewrite E; vm_compute; split; discriminate).
      apply H1. cbn. intros Habs. rewrite Habs in E. discriminate.
    - rewrite (IS_CLOSURE_of_closure (sym_type sym))
        by (rewrite E; vm_compute; split; discriminate).
      apply H1. cbn. intros Habs. rewrite Habs in E. discriminate. }
  assert (Hni : forall rest, stype (mk_state (f ++ rest) rest (sym_type sym)
                  (Function (sym_function sym)) ctx vars) <> TOK_INFIX).
  { intros rest. cbn. intros Habs. rewrite Habs in Hm.
    destruct Hm; discriminate. }
  split.
  - unfold te_compile. fold (first_state h f vars).
    pose proof (Hfirst ""%string eq_refl) as H0. rewrite append_empty in H0.
    rewrite H0. rewrite parse_fuel_split.
    rewrite (list__of_base h _ _ (Some node)
               (mk_state f ""%string TOK_END (Function (sym_function sym)) ctx vars));
      try discriminate.
    + cbn [stype negb]. change (TOK_END =? TOK_END) with true. cbn [negb].
      now destruct (optimize h node w).
    + pose proof (Hni ""%string) as H1. rewrite append_empty in H1. exact H1.
    + rewrite base_call0 by exact Hm.
      rewrite (next_token_at_end h
                 (mk_state f ""%string (sym_type sym)
                    (Function (sym_function sym)) ctx vars) eq_refl).
      cbn [stype set_type].
      change (TOK_END =? TOK_OPEN) with false. cbv iota.
      rewrite call_node_record. unfold node, ctx.
      now destruct (IS_CLOSURE (sym_type sym)).
  - unfold te_compile. fold (first_state h (f ++ "()"%string) vars).
    rewrite (Hfirst "()"%string eq_refl). rewrite parse_fuel_split.
    rewrite (list__of_base h _ _ (Some node)
               (mk_state (f ++ "()"%string) ""%string TOK_END
                  (Function (sym_function sym)) ctx vars));
      try discriminate.
    + cbn [stype negb]. change (TOK_END =? TOK_END) with true. cbn [negb].
      now destruct (optimize h node w).
    + apply Hni.
    + rewrite base_call0 by exact Hm. rewrite call_node_record.
      unfold node, ctx. now destruct (IS_CLOSURE (sym_type sym)).
Qed.

End ZeroArity.

(** A function or closure of no argument may be written with or
    without an empty pair of parentheses: both spellings compile, and to
    the same tree. *)
Theorem empty_parentheses_optional (h : host) (f : string)
    (variables : Datatypes.list te_variable) (sym : symbol) (w : world h) :
  identifier f = true ->
  resolve variables f (String.length f) = Some sym ->
  TYPE_MASK (sym_type sym) = TE_FUNCTION 0
  \/ TYPE_MASK (sym_type sym) = TE_CLOSURE 0 ->
  exists t w',
    te_compile h f variables w = Some (Some t, 0, w')
    /\ te_compile h (f ++ "()"%string) variables w = Some (Some t, 0, w').
Proof.
  intros Hf Hres Hm.
  destruct (compile_call0 h f variables sym w Hf Hres Hm) as [H1 H2].
  eexists. eexists. split; [exact H1|exact H2].
Qed.

Lemma empty_parentheses_optional_witness :
  exists t w',
    te_compile example_host "pi"%string [] example_memory
    = Some (Some t, 0, w')
    /\ te_compile example_host "pi()"%string [] example_memory
       = Some (Some t, 0, w').
Proof.
  apply (empty_parentheses_optional example_host "pi"%string []
           (symbol_of_builtin
              (mk_builtin "pi"%string p_pi
                 (Z.lor (TE_FUNCTION 0) TE_FLAG_PURE)))).
  - reflexivity.
  - reflexivity.
  - left. reflexivity.
Defined.

(** A callable of no argument that the caller registered without the
    purity flag, written alone, compiles to a tree whose evaluation is
    one call of it in the state of the time of evaluation: with its
    registered context if it is a closure, with none if it is a
    function. *)
Theorem callable_round_trip (h : host) (f : string)
    (variables : Datatypes.list te_variable) (var : te_variable)
    (w : world h) :
  identifier f = true ->
  find_lookup variables f (String.length f) = Some var ->
  TYPE_MASK (vtype var) = TE_FUNCTION 0
  \/ TYPE_MASK (vtype var) = TE_CLOSURE 0 ->
  IS_PURE (vtype var) = false ->
  exists t,
    te_compile h f variables w = Some (Some t, 0, w)
    /\ forall w',
         te_eval h t w'
         = call h (address var)
             (call_context (vtype var) (vcontext var)) [] w'.
Proof.
  intros Hf Hfind Hm Hp.
  assert (Hres : resolve variables f (String.length f)
                 = Some (symbol_of_var var))
    by (unfold resolve; now rewrite Hfind).
  destruct (compile_call0 h f variables (symbol_of_var var) w Hf Hres Hm)
    as [H1 _].
  cbn [symbol_of_var sym_type sym_function sym_context] in H1.
  set (node := mk_expr (vtype var) (Function (p_host (address var))) []
                 (if IS_CLOSURE (vtype var) then vcontext var else 0)) in *.
  assert (Hc : (vtype var =? TE_CONSTANT) = false)
    by (apply Z.eqb_neq; intros E; rewrite E in Hm; destruct Hm; discriminate).
  assert (Hv : (vtype var =? TE_VARIABLE) = false)
    by (apply Z.eqb_neq; intros E; rewrite E in Hm; destruct Hm; discriminate).
  assert (Hopt : optimize h node w = (node, w)).
  { unfold node. rewrite optimize_unfold. cbv zeta.
    now rewrite Hc, Hv, Hp. }
  rewrite Hopt in H1. exists node. split; [exact H1|].
  intros w'. unfold node. rewrite te_eval_unfold. cbv zeta.
  unfold call_context, eval_generic.
  cbn [type parameters function u function_of].
  destruct Hm as [E|E]; rewrite E.
  - rewrite (ARITY_of_call (vtype var))
      by (rewrite E; vm_compute; split; discriminate).
    rewrite E. reflexivity.
  - rewrite (ARITY_of_call (vtype var))
      by (rewrite E; vm_compute; split; discriminate).
    rewrite E. rewrite (IS_CLOSURE_of_closure (vtype var))
      by (rewrite E; vm_compute; split; discriminate).
    reflexivity.
Qed.

Lemma callable_round_trip_witness :
  exists t,
    te_compile example_host "tick"%string example_vars example_memory
    = Some (Some t, 0, example_memory)
    /\ forall w',
         te_eval example_host t w' = example_call 600 None [] w'.
Proof.
  apply (callable_round_trip example_host "tick"%string example_vars
           (mk_var "tick"%string 600 (TE_FUNCTION 0) 0) example_memory).
  - reflexivity.
  - reflexivity.
  - left. reflexivity.
  - reflexivity.
Defined.

(** ** Evaluation without effects *)

Section EvalStateless.

Variable h : host.

Lemma eval_params_stateless (ps : Datatypes.list te_expr) :
  Forall (fun p => forall w, snd (te_eval h p w) = w) ps ->
  forall k w, snd (eval_params h ps k w) = w.
Proof.
  induction 1 as [|p ps Hp _ IH]; intros [|k] w; try reflexivity.
  cbn [eval_params]. specialize (Hp w).
  destruct (te_eval h p w) as [d w1]. cbn [snd] in Hp. subst w1.
  specialize (IH k w). destruct (eval_params h ps k w) as [ds w2].
  exact IH.
Qed.

Lemma te_eval_stateless (n : te_expr) :
  every_node (callable_pure h) n ->
  forall w, snd (te_eval h n w) = w.
Proof.
  induction n as [ty un ps cx IH] using te_expr_ind. intros Hn w.
  apply every_node_unfold in Hn as [Hcall Hps].
  assert (Hchildren : Forall (fun p => forall w, snd (te_eval h p w) = w) ps).
  { rewrite Forall_forall in *. intros p Hp. apply IH; auto. }
  assert (Hgen : forall cxo, cxo = context_passed (mk_expr ty un ps cx) ->
            snd (eval_generic h (mk_expr ty un ps cx) cxo w) = w).
  { intros cxo ->. unfold eval_generic. cbn [parameters type function u].
    pose proof (eval_params_stateless ps Hchildren (Z.to_nat (ARITY ty)) w)
      as Hw.
    destruct (eval_params h ps (Z.to_nat (ARITY ty)) w) as [args w1].
    cbn [snd] in Hw. subst w1.
    rewrite (apply_fn_pure h (function_of un) _ args w w) by exact Hcall.
    reflexivity. }
  assert (Hhead : forall l : Datatypes.list te_expr, Forall (fun p => forall w, snd (te_eval h p w) = w) l ->
            snd (match l with
                 | p :: _ => te_eval h p w
                 | [] => (D.NAN, w)
                 end) = w).
  { intros l Hl. destruct Hl as [|p l Hp _]; [reflexivity|apply Hp]. }
  rewrite te_eval_unfold. cbv zeta.
  unfold context_passed, call_context in Hgen. cbn [type context] in Hgen.
  destruct (TYPE_MASK ty =? TE_CONSTANT); [reflexivity|].
  destruct (TYPE_MASK ty =? TE_VARIABLE); [reflexivity|].
  destruct (TYPE_MASK ty =? TE_ARRAY) eqn:Harr.
  { unfold eval_index. cbn [parameters bound u].
    pose proof (Hhead ps Hchildren) as Hw.
    destruct (match ps with p :: _ => te_eval h p w | [] => (D.NAN, w) end)
      as [d w1]. cbn [snd] in Hw. subst w1.
    now destruct ((D.to_int d <? 0) || _). }
  destruct ((TYPE_MASK ty =? TE_FUNCTION 3)
            && fnptr_eqb (function_of un) p_te_lerp).
  { destruct ps as [|d [|r rest]]; try reflexivity.
    inversion Hchildren as [|? ? _ Hc1]; subst.
    inversion Hc1 as [|? ? _ Hc2]; subst.
    pose proof (Hhead rest Hc2) as Hw.
    destruct (match rest with p :: _ => te_eval h p w | [] => (D.NAN, w) end)
      as [x w1]. cbn [snd] in Hw. subst w1.
    now destruct ((type d =? TE_VARIABLE) && (type r =? TE_VARIABLE)). }
  destruct ((TYPE_MASK ty =? TE_FUNCTION 1) && is_array_fn1 (function_of un)).
  { destruct ps as [|arg ps']; [reflexivity|].
    destruct (type arg =? TE_VARIABLE); [|reflexivity].
    repeat match goal with
    | |- context [if ?b then _ else _] => destruct b
    end; reflexivity. }
  destruct ((TE_FUNCTION 0 <=? TYPE_MASK ty) && (TYPE_MASK ty <=? TE_FUNCTION 7))
    eqn:Hf.
  { apply Hgen.
    destruct ((TE_CLOSURE 0 <=? TYPE_MASK ty) && (TYPE_MASK ty <=? TE_CLOSURE 7))
      eqn:Hc; [|reflexivity].
    apply andb_prop in Hf as [_ Hf]. apply andb_prop in Hc as [Hc _].
    apply Z.leb_le in Hf, Hc. exfalso. clear - Hf Hc. mask_lia. }
  destruct ((TE_CLOSURE 0 <=? TYPE_MASK ty) && (TYPE_MASK ty <=? TE_CLOSURE 7));
    [now apply Hgen|reflexivity].
Qed.

Lemma optimize_keeps (P : te_expr -> Prop) :
  (forall ty un ps ps' cx,
     P (mk_expr ty un ps cx) -> P (mk_expr ty un ps' cx)) ->
  (forall n v, P (fold_constant n v)) ->
  forall n, every_node P n ->
  forall w, every_node P (fst (optimize h n w)).
Proof.
  intros Hps Hfold.
  induction n as [ty un ps cx IH] using te_expr_ind. intros Hn w.
  rewrite optimize_unfold. cbv zeta.
  destruct (ty =? TE_CONSTANT); [exact Hn|].
  destruct (ty =? TE_VARIABLE); [exact Hn|].
  destruct (IS_PURE ty); [|exact Hn].
  apply every_node_unfold in Hn as [Hnode Hch].
  pose proof (opt_params_Forall h (every_node P) ps IH Hch
                (Z.to_nat (ARITY ty)) w) as Hall.
  destruct (opt_params h ps (Z.to_nat (ARITY ty)) w) as [[ps' known] w1].
  cbn [fst] in *. destruct known.
  - destruct (te_eval h (mk_expr ty un ps' cx) w1) as [v w2].
    cbn [fst]. unfold fold_constant. cbn [context].
    apply every_node_unfold. split; [apply (Hfold (mk_expr ty un ps' cx))|].
    constructor.
  - apply every_node_unfold. split; [|exact Hall].
    now apply (Hps ty un ps ps' cx).
Qed.

End EvalStateless.

Lemma built_callable_pure (h : host) (vars : Datatypes.list te_variable)
    (t : te_expr) :
  all_pure h vars -> built vars t -> every_node (callable_pure h) t.
Proof.
  intros Hpure.
  induction 1 as [v|var Hin Hm|var idx Hin Hm Hidx IH
                 |sym args Hres Hm Hlen Hargs IH|f a b Hop Hba IHa Hbb IHb
                 |a Hba IHa] using built_induction;
    try rewrite binary_node_eq;
    apply every_node_unfold; (split; [|auto]);
    try (intros x Hx; discriminate Hx).
  - intros a Ha. cbn in Ha.
    destruct Hres as [(var & Hin & ->)|(b & Hin & ->)].
    + cbn in Ha. injection Ha as <-. cbn in Hm.
      unfold context_passed. cbn [type context symbol_of_var sym_type
                                  sym_context].
      pose proof (Hpure var Hin Hm) as Hvar.
      unfold call_context in *.
      destruct ((TE_CLOSURE 0 <=? TYPE_MASK (vtype var))
                && (TYPE_MASK (vtype var) <=? TE_CLOSURE 7)) eqn:Hc;
        [|exact Hvar].
      apply andb_prop in Hc as [Hc1 Hc2]. apply Z.leb_le in Hc1, Hc2.
      rewrite IS_CLOSURE_of_closure by lia. exact Hvar.
    + cbn in Ha. exfalso. exact (builtins_are_static b a Hin Ha).
  - intros x Hx. cbn in Hx. subst f. discriminate Hop.
Qed.



(** ** Releasing a tree *)

Lemma te_free_unfold (n : te_expr) :
  te_free n = te_free_parameters n ++ [n].
Proof. destruct n as [ty un ps cx]. reflexivity. Qed.

Lemma nodes_unfold (ty : Z) (un : payload) (ps : Datatypes.list te_expr)
    (cx : Z) :
  nodes (mk_expr ty un ps cx) = nodes_of ps ++ [mk_expr ty un ps cx].
Proof. reflexivity. Qed.

Lemma free_slots_regular (n : te_expr) :
  regular n -> ~ is_lookup n ->
  free_slots (type n) = List.length (parameters n).
Proof.
  intros [Hw Hm] Hl. unfold well_formed in Hw. unfold is_lookup in Hl.
  apply Nat2Z.inj. rewrite Hw. unfold free_slots, ARITY.
  rewrite (land_mask (type n) (Z.lor TE_FUNCTION0 TE_CLOSURE0))
    by reflexivity.
  rewrite (land_mask (type n) 7) by reflexivity.
  assert (Hty : (type n =? TE_ARRAY) = false) by (now apply Z.eqb_neq).
  rewrite Hty.
  pose proof (Z.land_nonneg (type n) 31) as [_ Hnn].
  assert (H31 : 0 <= 31) by (clear; lia).
  specialize (Hnn (or_intror H31)). fold (TYPE_MASK (type n)) in Hnn.
  set (m := TYPE_MASK (type n)) in *. clearbody m.
  unfold TE_CLOSURE, TE_CLOSURE0 in Hm.
  clear Hl.
  assert (Hhalf : m <= 11 \/ 12 <= m) by (clear; lia).
  destruct Hhalf as [Hlow|Hhigh].
  - assert (Hcases : m = 0 \/ m = 1 \/ m = 2 \/ m = 3 \/ m = 4 \/ m = 5
                     \/ m = 6 \/ m = 7 \/ m = 8 \/ m = 9 \/ m = 10
                     \/ m = 11) by (clear - Hlow Hnn; lia).
    clear Hm Hnn Hlow.
    repeat (destruct Hcases as [->|Hcases]; [try reflexivity|]);
      now subst m.
  - assert (Hcases : m = 12 \/ m = 13 \/ m = 14 \/ m = 15 \/ m = 16
                     \/ m = 17 \/ m = 18 \/ m = 19 \/ m = 20 \/ m = 21
                     \/ m = 22 \/ m = 23) by (clear - Hhigh Hm; lia).
    clear Hm Hnn Hhigh.
    repeat (destruct Hcases as [->|Hcases]; [try reflexivity|]);
      now subst m.
Qed.

Lemma free_first_length (l : Datatypes.list te_expr) :
  Forall (fun p => (List.length (te_free p) <= List.length (nodes p))%nat) l ->
  forall k, (List.length (free_first l k) <= List.length (nodes_of l))%nat.
Proof.
  induction 1 as [|p l Hp _ IH]; intros [|k]; cbn [free_first nodes_of];
    rewrite ?List.length_app; cbn [List.length]; try lia.
  specialize (IH k). lia.
Qed.

Lemma te_free_length (n : te_expr) :
  (List.length (te_free n) <= List.length (nodes n))%nat.
Proof.
  induction n as [ty un ps cx IH] using te_expr_ind.
  rewrite te_free_unfold, nodes_unfold, !List.length_app.
  unfold te_free_parameters. cbn [parameters type List.length].
  pose proof (free_first_length ps IH (free_slots ty)). lia.
Qed.

(** Either no child holds a lookup and all their nodes are released, or
    one does and fewer nodes are released than there are. *)
Lemma free_first_all (l : Datatypes.list te_expr) :
  Forall (fun p =>
            (every_node (fun n => ~ is_lookup n) p /\ te_free p = nodes p)
            \/ (~ every_node (fun n => ~ is_lookup n) p
                /\ (List.length (te_free p) < List.length (nodes p))%nat)) l ->
  (Forall (every_node (fun n => ~ is_lookup n)) l
   /\ free_first l (List.length l) = nodes_of l)
  \/ (~ Forall (every_node (fun n => ~ is_lookup n)) l
      /\ (List.length (free_first l (List.length l))
          < List.length (nodes_of l))%nat).
Proof.
  induction 1 as [|p l Hp Hl IH].
  - left. split; [constructor|reflexivity].
  - cbn [List.length free_first nodes_of].
    assert (Hle : (List.length (free_first l (List.length l))
                   <= List.length (nodes_of l))%nat).
    { apply free_first_length. rewrite Forall_forall. intros q _.
      apply te_free_length. }
    pose proof (te_free_length p) as Hp'.
    destruct Hp as [[Hc Hf]|[Hd Hlt]]; destruct IH as [[Hcl Hfl]|[Hdl Hltl]].
    + left. split; [now constructor|]. now rewrite Hf, Hfl.
    + right. split; [intros Hall; inversion Hall; contradiction|].
      rewrite !List.length_app. lia.
    + right. split; [intros Hall; inversion Hall; contradiction|].
      rewrite !List.length_app. lia.
    + right. split; [intros Hall; inversion Hall; contradiction|].
      rewrite !List.length_app. lia.
Qed.

Lemma te_free_all_or_less (n : te_expr) :
  every_node regular n ->
  (every_node (fun n => ~ is_lookup n) n /\ te_free n = nodes n)
  \/ (~ every_node (fun n => ~ is_lookup n) n
      /\ (List.length (te_free n) < List.length (nodes n))%nat).
Proof.
  induction n as [ty un ps cx IH] using te_expr_ind. intros Hn.
  apply every_node_unfold in Hn as [Hreg Hps].
  assert (Hch : Forall (fun p =>
            (every_node (fun n => ~ is_lookup n) p /\ te_free p = nodes p)
            \/ (~ every_node (fun n => ~ is_lookup n) p
                /\ (List.length (te_free p) < List.length (nodes p))%nat)) ps).
  { rewrite Forall_forall in *. intros p Hp. apply IH; auto. }
  apply free_first_all in Hch.
  rewrite te_free_unfold, nodes_unfold. unfold te_free_parameters.
  cbn [parameters type].
  destruct (Z.eq_dec ty TE_ARRAY) as [Harr|Harr].
  - (* a lookup: its index is not released *)
    right. split.
    + intros Hall. apply every_node_unfold in Hall as [Hno _].
      now apply Hno.
    + subst ty. change (free_slots TE_ARRAY) with 0%nat.
      destruct Hreg as [Hw _]. unfold well_formed in Hw.
      cbn [parameters type] in Hw. change (ARITY TE_ARRAY) with 1 in Hw.
      destruct ps as [|p ps]; [discriminate Hw|].
      cbn [free_first nodes_of]. destruct p as [ty' un' ps' cx'].
      rewrite nodes_unfold, !List.length_app. cbn [List.length]. lia.
  - pose proof (free_slots_regular (mk_expr ty un ps cx) Hreg Harr) as Hsl.
    cbn [parameters type] in Hsl. rewrite Hsl.
    destruct Hch as [[Hcl Hfl]|[Hdl Hltl]].
    + left. split; [|now rewrite Hfl].
      apply every_node_unfold. split; [exact Harr|exact Hcl].
    + right. split.
      * intros Hall. apply every_node_unfold in Hall as [_ Hall].
        contradiction.
      * rewrite !List.length_app. lia.
Qed.

Lemma built_regular (vars : Datatypes.list te_variable) (t : te_expr) :
  built vars t -> every_node regular t.
Proof.
  induction 1 as [v|var Hin Hm|var idx Hin Hm Hidx IH
                 |sym args Hres Hm Hlen Hargs IH|f a b Hop Hba IHa Hbb IHb
                 |a Hba IHa] using built_induction;
    try rewrite binary_node_eq;
    apply every_node_unfold; (split; [|auto]);
    try (split; [reflexivity|cbn; clear; mask_lia]).
  split; [exact Hlen|]. cbn [type]. lia.
Qed.

Lemma every_node_impl (P Q : te_expr -> Prop) (n : te_expr) :
  (forall m, P m -> Q m) -> every_node P n -> every_node Q n.
Proof.
  intros HPQ. induction n as [ty un ps cx IH] using te_expr_ind.
  intros Hn. apply every_node_unfold in Hn as [Hnode Hps].
  apply every_node_unfold. split; [now apply HPQ|].
  rewrite Forall_forall in *. intros p Hp. apply IH; auto.
Qed.

Lemma every_node_both (P Q : te_expr -> Prop) (n : te_expr) :
  every_node P n -> every_node Q n -> every_node (fun m => P m /\ Q m) n.
Proof.
  induction n as [ty un ps cx IH] using te_expr_ind.
  intros HP HQ. apply every_node_unfold in HP as [HP HPs].
  apply every_node_unfold in HQ as [HQ HQs].
  apply every_node_unfold. split; [now split|].
  rewrite Forall_forall in *. intros p Hp. apply IH; auto.
Qed.

Lemma optimize_regular (h : host) (n : te_expr) :
  every_node regular n ->
  forall w, every_node regular (fst (optimize h n w)).
Proof.
  intros Hn w.
  assert (Hw : every_node well_formed n)
    by (apply (every_node_impl regular); [now intros m [H _]|exact Hn]).
  assert (Hm : every_node (fun n => TYPE_MASK (type n) <= TE_CLOSURE 7) n)
    by (apply (every_node_impl regular); [now intros m [_ H]|exact Hn]).
  apply every_node_both.
  - now apply optimize_well_formed.
  - apply (optimize_keeps h (fun n => TYPE_MASK (type n) <= TE_CLOSURE 7));
      [intros ty un ps ps' cx H; exact H
      |intros m v; cbn; clear; mask_lia
      |exact Hm].
Qed.

(** [te_free] releases every node of a compiled tree exactly when the
    tree holds no array lookup: [te_free_parameters] has no case for
    the type code of a lookup, so the nodes of an index expression are
    never handed to [free]. *)
Theorem te_free_releases (h : host) (expression : string)
    (variables : Datatypes.list te_variable) (w w' : world h)
    (t : te_expr) (error : Z) :
  te_compile h expression variables w = Some (Some t, error, w') ->
  (te_free t = nodes t <-> every_node (fun n => ~ is_lookup n) t)
  /\ (List.length (te_free t) <= List.length (nodes t))%nat.
Proof.
  unfold te_compile. fold (first_state h expression variables).
  destruct (list_ h (parse_fuel expression)
              (first_state h expression variables))
    as [[[root|] s]|] eqn:Hparse; try discriminate.
  destruct (Z.eqb_spec (stype s) TOK_END) as [Hend|Hend]; cbn [negb];
    [|discriminate].
  pose proof (list__built h expression variables root s Hparse Hend) as Hb.
  pose proof (optimize_regular h root (built_regular _ _ Hb) w) as Hreg.
  destruct (optimize h root w) as [root' w1]. intros [= <- _ _].
  cbn [fst] in Hreg. split; [|apply te_free_length].
  destruct (te_free_all_or_less root' Hreg) as [[Hc Hf]|[Hd Hlt]].
  - split; auto.
  - split; [|intros Hc; contradiction].
    intros E. rewrite E in Hlt. lia.
Qed.

Lemma te_free_releases_witness :
  te_free (array_node 10 (constant_node (D.of_Z 1)))
  <> nodes (array_node 10 (constant_node (D.of_Z 1))).
Proof.
  destruct (te_free_releases example_host "arr1[1]"%string example_vars
              example_memory example_memory
              (array_node 10 (constant_node (D.of_Z 1))) 0) as [Hiff _].
  - vm_compute. reflexivity.
  - intros E. apply Hiff in E. destruct E as [Hno _]. now apply Hno.
Defined.

(** ** Literals *)

Lemma drop_all (e : string) : drop (String.length e) e = EmptyString.
Proof. induction e as [|c e IH]; [reflexivity|exact IH]. Qed.

(** A number [strtod] reads to the end of the input, written alone,
    compiles to the constant of the value [strtod] returned, and the
    constant evaluates to that value. *)
Theorem literal_round_trip (h : host) (expression : string)
    (variables : Datatypes.list te_variable) (v : D.double) (w : world h) :
  isdigit (char_at expression 0)
  || (code (char_at expression 0) =? code "."%char) = true ->
  strtod h expression = (v, String.length expression) ->
  te_compile h expression variables w = Some (Some (constant_node v), 0, w)
  /\ forall w', te_eval h (constant_node v) w' = (v, w').
Proof.
  intros Hd Hstrtod. split; [|reflexivity].
  assert (Hc : code (char_at expression 0) <> 0).
  { apply orb_prop in Hd as [Hd|Hd].
    - unfold isdigit in Hd. apply andb_prop in Hd as [Hd _].
      apply Z.leb_le in Hd. change (code "0"%char) with 48 in Hd. lia.
    - apply Z.eqb_eq in Hd. rewrite Hd. discriminate. }
  set (s := mk_state expression EmptyString TOK_NUMBER (Value v) 0 variables).
  assert (Hstep : next_token_step h
                    (set_type (initial_state expression variables) TOK_NULL)
                  = s).
  { unfold next_token_step. cbn [next set_type initial_state].
    rewrite Hd, Hstrtod. unfold set_token, set_next.
    cbn [start next stype su scontext lookup]. now rewrite drop_all. }
  assert (Hfirst : first_state h expression variables = s).
  { unfold first_state. rewrite next_token_one_pass.
    - exact Hstep.
    - exact Hc.
    - rewrite Hstep. discriminate. }
  unfold te_compile. fold (first_state h expression variables).
  rewrite Hfirst, parse_fuel_split.
  rewrite (list__of_base h _ s (Some (constant_node v))
             (set_type s TOK_END)); try discriminate.
  - reflexivity.
  - cbn [base]. change (TYPE_MASK (stype s) =? TOK_NUMBER) with true.
    cbv iota. now rewrite (next_token_at_end h s eq_refl).
Qed.

Lemma literal_round_trip_witness :
  te_compile example_host "42"%string [] example_memory
  = Some (Some (constant_node (D.of_Z 42)), 0, example_memory).
Proof.
  exact (proj1 (literal_round_trip example_host "42"%string []
                  (D.of_Z 42) example_memory eq_refl eq_refl)).
Defined.

(** ** Tokens of names and operators *)

Section Tokens.

Variable h : host.

Lemma next_token_op (st rest : string) (c : ascii) (f : fnptr) (ty : Z)
    (un : payload) (cx : Z) (lk : Datatypes.list te_variable) :
  infix_of c = Some f ->
  next_token h (mk_state st (String c rest) ty un cx lk)
  = mk_state st rest TOK_INFIX (Function f) cx lk.
Proof.
  unfold infix_of. intros Hc.
  repeat match type of Hc with
  | (if ?a =? ?b then _ else _) = _ =>
      destruct (Z.eqb_spec a b) as [E|_];
        [apply code_inj in E; subst c; injection Hc as <-; reflexivity|]
  end.
  discriminate Hc.
Qed.

Lemma next_token_var (st f rest : string) (ty : Z) (un : payload) (cx : Z)
    (lk : Datatypes.list te_variable) (var : te_variable) :
  identifier f = true -> ends_identifier rest = true ->
  find_lookup lk f (String.length f) = Some var ->
  TYPE_MASK (vtype var) = TE_VARIABLE ->
  next_token h (mk_state st (f ++ rest) ty un cx lk)
  = mk_state st rest TOK_VARIABLE (Bound (address var)) cx lk.
Proof.
  intros Hf Hrest Hfind Hm.
  assert (Hstep : next_token_step h
                    (set_type (mk_state st (f ++ rest) ty un cx lk) TOK_NULL)
                  = mk_state st rest TOK_VARIABLE (Bound (address var)) cx lk).
  { change (set_type (mk_state st (f ++ rest) ty un cx lk) TOK_NULL)
      with (set_next (mk_state st (f ++ rest) TOK_NULL un cx lk) (f ++ rest)).
    rewrite (next_token_step_name h _ f rest Hf Hrest). cbv zeta.
    cbn [lookup]. rewrite resolve_name. unfold resolve. rewrite Hfind.
    cbn [symbol_of_var sym_type sym_bound]. rewrite Hm. reflexivity. }
  rewrite next_token_one_pass.
  - exact Hstep.
  - apply name_head. exact Hf.
  - rewrite Hstep. discriminate.
Qed.

Lemma operator_ends_identifier (c : ascii) (f : fnptr) (rest : string) :
  infix_of c = Some f -> ends_identifier (String c rest) = true.
Proof.
  unfold infix_of. intros Hc.
  repeat match type of Hc with
  | (if ?a =? ?b then _ else _) = _ =>
      destruct (Z.eqb_spec a b) as [E|_];
        [apply code_inj in E; subst c; reflexivity|]
  end.
  discriminate Hc.
Qed.

Lemma operator_level (c : ascii) (f : fnptr) :
  infix_of c = Some f ->
  (1 <= level f <= 3)%nat
  /\ is_pow f = (level f =? 3)%nat
  /\ is_term_op f = (level f =? 2)%nat
  /\ is_add_sub f = (level f =? 1)%nat.
Proof.
  unfold infix_of. intros Hc.
  repeat match type of Hc with
  | (if ?a =? ?b then _ else _) = _ =>
      destruct (a =? b);
        [injection Hc as <-; cbn; repeat split; lia|]
  end.
  discriminate Hc.
Qed.

(** *** The parsing functions at a variable *)

Lemma base_at_variable (k : nat) (s : state) (a : Z) :
  stype s = TOK_VARIABLE -> su s = Bound a ->
  stype (next_token h s) <> TOK_OPEN_BRACKET ->
  base h (S k) s = Some (Some (variable_node a), next_token h s).
Proof.
  intros Hs Hu Hn. cbn [base]. rewrite Hs, Hu.
  change (TYPE_MASK TOK_VARIABLE =? TOK_NUMBER) with false.
  change (TYPE_MASK TOK_VARIABLE =? TOK_VARIABLE) with true. cbv iota.
  now apply parse_postfix_loop_stops.
Qed.

Lemma power_at_variable (k : nat) (s : state) (a : Z) :
  stype s = TOK_VARIABLE -> su s = Bound a ->
  stype (next_token h s) <> TOK_OPEN_BRACKET ->
  power h (S (S k)) s = Some (Some (variable_node a), next_token h s).
Proof.
  intros Hs Hu Hn. cbn [power].
  rewrite sign_loop_stops by (rewrite Hs; discriminate).
  change (1 =? 1) with true. cbv iota. now apply base_at_variable.
Qed.

Lemma chain_first (first operand : state -> result)
    (accept : state -> option fnptr) (fuel : nat) (s s1 : state)
    (ret : te_expr) :
  first s = Some (Some ret, s1) ->
  chain h first operand accept fuel s
  = binary_loop h operand accept fuel ret s1.
Proof. intros H. unfold chain. now rewrite H. Qed.

Lemma binary_loop_step (operand : state -> result)
    (accept : state -> option fnptr) (fuel : nat) (ret b : te_expr)
    (s s' : state) (t : fnptr) :
  accept s = Some t ->
  operand (next_token h s) = Some (Some b, s') ->
  binary_loop h operand accept (S fuel) ret s
  = binary_loop h operand accept fuel (binary_node t ret b) s'.
Proof. intros Ha Ho. cbn [binary_loop]. now rewrite Ha, Ho. Qed.

Lemma is_infix_at (s : state) (f : fnptr) (ok : fnptr -> bool) :
  stype s = TOK_INFIX -> su s = Function f ->
  is_infix s ok = if ok f then Some f else None.
Proof.
  intros Hs Hu. unfold is_infix. rewrite Hs, Hu.
  now change (TOK_INFIX =? TOK_INFIX) with true.
Qed.

Lemma is_sep_none (s : state) : stype s <> TOK_SEP -> is_sep s = None.
Proof. intros Hs. unfold is_sep. apply Z.eqb_neq in Hs. now rewrite Hs. Qed.

End Tokens.

(** ** Two binary operators between three variables *)

Section TwoOperators.

Variable h : host.
Variables sx i1 sy i2 sz e : state.
Variables ax ay az : Z.
Variables f1 f2 : fnptr.

Hypothesis Tx : stype sx = TOK_VARIABLE.
Hypothesis Ux : su sx = Bound ax.
Hypothesis Ty : stype sy = TOK_VARIABLE.
Hypothesis Uy : su sy = Bound ay.
Hypothesis Tz : stype sz = TOK_VARIABLE.
Hypothesis Uz : su sz = Bound az.
Hypothesis T1 : stype i1 = TOK_INFIX.
Hypothesis U1 : su i1 = Function f1.
Hypothesis T2 : stype i2 = TOK_INFIX.
Hypothesis U2 : su i2 = Function f2.
Hypothesis Te : stype e = TOK_END.
Hypothesis Nx : next_token h sx = i1.
Hypothesis N1 : next_token h i1 = sy.
Hypothesis Ny : next_token h sy = i2.
Hypothesis N2 : next_token h i2 = sz.
Hypothesis Nz : next_token h sz = e.
Hypothesis L1 : (1 <= level f1 <= 3)%nat.
Hypothesis P1 : is_pow f1 = (level f1 =? 3)%nat.
Hypothesis M1 : is_term_op f1 = (level f1 =? 2)%nat.
Hypothesis A1 : is_add_sub f1 = (level f1 =? 1)%nat.
Hypothesis L2 : (1 <= level f2 <= 3)%nat.
Hypothesis P2 : is_pow f2 = (level f2 =? 3)%nat.
Hypothesis M2 : is_term_op f2 = (level f2 =? 2)%nat.
Hypothesis A2 : is_add_sub f2 = (level f2 =? 1)%nat.


Lemma power_x k : power h (S (S k)) sx = Some (Some (variable_node ax), i1).
Proof.
  rewrite <- Nx. apply power_at_variable; auto. rewrite Nx, T1. discriminate.
Qed.

Lemma power_y k : power h (S (S k)) sy = Some (Some (variable_node ay), i2).
Proof.
  rewrite <- Ny. apply power_at_variable; auto. rewrite Ny, T2. discriminate.
Qed.

Lemma power_z k : power h (S (S k)) sz = Some (Some (variable_node az), e).
Proof.
  rewrite <- Nz. apply power_at_variable; auto. rewrite Nz, Te. discriminate.
Qed.

Lemma accept_1 ok : is_infix i1 ok = if ok f1 then Some f1 else None.
Proof. now apply is_infix_at. Qed.

Lemma accept_2 ok : is_infix i2 ok = if ok f2 then Some f2 else None.
Proof. now apply is_infix_at. Qed.

Lemma accept_e ok : is_infix e ok = None.
Proof. apply is_infix_none. rewrite Te. discriminate. Qed.

Ltac accepts :=
  cbv beta; rewrite ?accept_1, ?accept_2, ?accept_e;
  rewrite ?P1, ?M1, ?A1, ?P2, ?M2, ?A2; reflexivity.

Ltac stops := rewrite (binary_loop_stops h) by accepts.

Ltac run Hy Hz :=
  repeat first
    [ rewrite (binary_loop_stops h) by accepts
    | erewrite (binary_loop_step h);
      [|accepts|rewrite ?N1, ?N2; first [apply Hy|apply Hz]] ];
  reflexivity.

Ltac split_levels :=
  let H1 := fresh in let H2 := fresh in
  assert (H1 : (level f1 = 1 \/ level f1 = 2 \/ level f1 = 3)%nat)
    by (clear - L1; lia);
  assert (H2 : (level f2 = 1 \/ level f2 = 2 \/ level f2 = 3)%nat)
    by (clear - L2; lia);
  destruct H1 as [H1|[H1|H1]]; destruct H2 as [H2|[H2|H2]];
  rewrite H1 in *; rewrite H2 in *;
  cbn [Nat.eqb Nat.leb Nat.ltb] in *.

Lemma factor_z k : factor h (S (S (S k))) sz = Some (Some (variable_node az), e).
Proof.
  change (factor h (S (S (S k))) sz)
    with (chain h (power h (S (S k))) (power h (S (S k)))
            (fun s => is_infix s is_pow) (S (S k)) sz).
  rewrite (chain_first h _ _ _ _ _ _ _ (power_z k)).
  run (power_y k) (power_z k).
Qed.

Lemma factor_y k :
  factor h (S (S (S k))) sy
  = if (level f2 =? 3)%nat then Some (Some (binary_node f2 (variable_node ay) (variable_node az)), e)
    else Some (Some (variable_node ay), i2).
Proof.
  change (factor h (S (S (S k))) sy)
    with (chain h (power h (S (S k))) (power h (S (S k)))
            (fun s => is_infix s is_pow) (S (S k)) sy).
  rewrite (chain_first h _ _ _ _ _ _ _ (power_y k)).
  split_levels; run (power_y k) (power_z k).
Qed.

Lemma factor_x k :
  factor h (S (S (S k))) sx
  = if (level f1 =? 3)%nat then
      if (level f2 =? 3)%nat
      then Some (Some (binary_node f2 (binary_node f1 (variable_node ax) (variable_node ay)) (variable_node az)), e)
      else Some (Some (binary_node f1 (variable_node ax) (variable_node ay)), i2)
    else Some (Some (variable_node ax), i1).
Proof.
  change (factor h (S (S (S k))) sx)
    with (chain h (power h (S (S k))) (power h (S (S k)))
            (fun s => is_infix s is_pow) (S (S k)) sx).
  rewrite (chain_first h _ _ _ _ _ _ _ (power_x k)).
  split_levels; run (power_y k) (power_z k).
Qed.

Lemma term_z k : term h (S (S (S (S k)))) sz = Some (Some (variable_node az), e).
Proof.
  change (term h (S (S (S (S k)))) sz)
    with (chain h (factor h (S (S (S k)))) (factor h (S (S (S k))))
            (fun s => is_infix s is_term_op) (S (S (S k))) sz).
  rewrite (chain_first h _ _ _ _ _ _ _ (factor_z k)).
  run (factor_y k) (factor_z k).
Qed.

Lemma term_y k :
  term h (S (S (S (S k)))) sy
  = if (2 <=? level f2)%nat then Some (Some (binary_node f2 (variable_node ay) (variable_node az)), e)
    else Some (Some (variable_node ay), i2).
Proof.
  change (term h (S (S (S (S k)))) sy)
    with (chain h (factor h (S (S (S k)))) (factor h (S (S (S k))))
            (fun s => is_infix s is_term_op) (S (S (S k))) sy).
  pose proof (factor_y k) as Hy.
  split_levels; rewrite (chain_first h _ _ _ _ _ _ _ Hy);
    run Hy (factor_z k).
Qed.

Lemma term_x k :
  term h (S (S (S (S k)))) sx
  = if (2 <=? level f1)%nat then
      if (level f1 <? level f2)%nat
      then Some (Some (binary_node f1 (variable_node ax) (binary_node f2 (variable_node ay) (variable_node az))), e)
      else if (2 <=? level f2)%nat
      then Some (Some (binary_node f2 (binary_node f1 (variable_node ax) (variable_node ay)) (variable_node az)), e)
      else Some (Some (binary_node f1 (variable_node ax) (variable_node ay)), i2)
    else Some (Some (variable_node ax), i1).
Proof.
  change (term h (S (S (S (S k)))) sx)
    with (chain h (factor h (S (S (S k)))) (factor h (S (S (S k))))
            (fun s => is_infix s is_term_op) (S (S (S k))) sx).
  pose proof (factor_x k) as Hx. pose proof (factor_y k) as Hy.
  split_levels; rewrite (chain_first h _ _ _ _ _ _ _ Hx);
    run Hy (factor_z k).
Qed.

Lemma expr_x k :
  expr h (S (S (S (S (S k))))) sx
  = if (level f1 <? level f2)%nat
    then Some (Some (binary_node f1 (variable_node ax) (binary_node f2 (variable_node ay) (variable_node az))), e)
    else Some (Some (binary_node f2 (binary_node f1 (variable_node ax) (variable_node ay)) (variable_node az)), e).
Proof.
  change (expr h (S (S (S (S (S k))))) sx)
    with (chain h (term h (S (S (S (S k))))) (term h (S (S (S (S k)))))
            (fun s => is_infix s is_add_sub) (S (S (S (S k)))) sx).
  pose proof (term_x k) as Hx. pose proof (term_y k) as Hy.
  split_levels; rewrite (chain_first h _ _ _ _ _ _ _ Hx);
    run Hy (term_z k).
Qed.

Lemma list_x k :
  list_ h (S (S (S (S (S (S k)))))) sx
  = if (level f1 <? level f2)%nat
    then Some (Some (binary_node f1 (variable_node ax) (binary_node f2 (variable_node ay) (variable_node az))), e)
    else Some (Some (binary_node f2 (binary_node f1 (variable_node ax) (variable_node ay)) (variable_node az)), e).
Proof.
  change (list_ h (S (S (S (S (S (S k)))))) sx)
    with (chain h (expr h (S (S (S (S (S k)))))) (expr h (S (S (S (S (S k))))))
            is_sep (S (S (S (S (S k))))) sx).
  pose proof (expr_x k) as Hx.
  destruct (level f1 <? level f2)%nat;
    rewrite (chain_first h _ _ _ _ _ _ _ Hx);
    rewrite (binary_loop_stops h)
      by (apply is_sep_none; rewrite Te; discriminate);
    reflexivity.
Qed.

End TwoOperators.

(** Between three variables, two binary operators nest by level: [^]
    binds tighter than [*], [/], [%], [&] and [|], which bind tighter
    than [+] and [-]; operators of one level, [^] included, associate
    to the left. *)
Theorem binary_operators_nest (h : host) (x y z : string) (c1 c2 : ascii)
    (f1 f2 : fnptr) (variables : Datatypes.list te_variable)
    (vx vy vz : te_variable) (w : world h) :
  identifier x = true -> identifier y = true -> identifier z = true ->
  find_lookup variables x (String.length x) = Some vx ->
  find_lookup variables y (String.length y) = Some vy ->
  find_lookup variables z (String.length z) = Some vz ->
  TYPE_MASK (vtype vx) = TE_VARIABLE ->
  TYPE_MASK (vtype vy) = TE_VARIABLE ->
  TYPE_MASK (vtype vz) = TE_VARIABLE ->
  infix_of c1 = Some f1 -> infix_of c2 = Some f2 ->
  te_compile h (x ++ String c1 (y ++ String c2 z)) variables w
  = Some (Some (if (level f1 <? level f2)%nat
                then binary_node f1 (variable_node (address vx))
                       (binary_node f2 (variable_node (address vy))
                          (variable_node (address vz)))
                else binary_node f2
                       (binary_node f1 (variable_node (address vx))
                          (variable_node (address vy)))
                       (variable_node (address vz))),
          0, w).
Proof.
  intros Hx Hy Hz Fx Fy Fz Mx My Mz O1 O2.
  set (e0 := (x ++ String c1 (y ++ String c2 z))%string).
  destruct (operator_level c1 f1 O1) as (L1 & P1 & T1 & A1).
  destruct (operator_level c2 f2 O2) as (L2 & P2 & T2 & A2).
  set (sx := mk_state e0 (String c1 (y ++ String c2 z)) TOK_VARIABLE
               (Bound (address vx)) 0 variables).
  set (i1 := mk_state e0 (y ++ String c2 z) TOK_INFIX (Function f1) 0
               variables).
  set (sy := mk_state e0 (String c2 z) TOK_VARIABLE (Bound (address vy)) 0
               variables).
  set (i2 := mk_state e0 z TOK_INFIX (Function f2) 0 variables).
  set (sz := mk_state e0 EmptyString TOK_VARIABLE (Bound (address vz)) 0
               variables).
  set (e := mk_state e0 EmptyString TOK_END (Bound (address vz)) 0 variables).
  assert (Hfirst : first_state h e0 variables = sx).
  { unfold first_state, initial_state. unfold e0 at 2.
    apply next_token_var; auto.
    now apply (operator_ends_identifier c1 f1). }
  assert (Nx : next_token h sx = i1) by (now apply next_token_op).
  assert (N1 : next_token h i1 = sy).
  { apply next_token_var; auto. now apply (operator_ends_identifier c2 f2). }
  assert (Ny : next_token h sy = i2) by (now apply next_token_op).
  assert (N2 : next_token h i2 = sz).
  { unfold i2. rewrite <- (append_empty z) at 1.
    now apply next_token_var. }
  assert (Nz : next_token h sz = e) by reflexivity.
  unfold te_compile. fold (first_state h e0 variables).
  rewrite Hfirst, parse_fuel_split.
  change (5 + S (6 * String.length e0))%nat
    with (S (S (S (S (S (S (6 * String.length e0))))))).
  rewrite (list_x h sx i1 sy i2 sz e (address vx) (address vy) (address vz)
             f1 f2) by (assumption || reflexivity).
  destruct (level f1 <? level f2)%nat; reflexivity.
Qed.

Lemma binary_operators_nest_witness :
  te_compile example_host "arr1+arr2*gaps"%string example_vars example_memory
  = Some (Some (binary_node p_add (variable_node 10)
                  (binary_node p_mul (variable_node 20) (variable_node 40))),
          0, example_memory)
  /\ te_compile example_host "arr1-arr2-gaps"%string example_vars
       example_memory
     = Some (Some (binary_node p_sub
                     (binary_node p_sub (variable_node 10) (variable_node 20))
                     (variable_node 40)),
             0, example_memory).
Proof.
  split.
  - exact (binary_operators_nest example_host "arr1"%string "arr2"%string
             "gaps"%string "+"%char "*"%char p_add p_mul example_vars
             (mk_var "arr1"%string 10 TE_VARIABLE 0)
             (mk_var "arr2"%string 20 TE_VARIABLE 0)
             (mk_var "gaps"%string 40 TE_VARIABLE 0) example_memory
             eq_refl eq_refl eq_refl eq_refl eq_refl eq_refl
             eq_refl eq_refl eq_refl eq_refl eq_refl).
  - exact (binary_operators_nest example_host "arr1"%string "arr2"%string
             "gaps"%string "-"%char "-"%char p_sub p_sub example_vars
             (mk_var "arr1"%string 10 TE_VARIABLE 0)
             (mk_var "arr2"%string 20 TE_VARIABLE 0)
             (mk_var "gaps"%string 40 TE_VARIABLE 0) example_memory
             eq_refl eq_refl eq_refl eq_refl eq_refl eq_refl
             eq_refl eq_refl eq_refl eq_refl eq_refl).
Defined.

(** ** Signs before an operand *)

Section Signs.

Variable h : host.

Lemma sign_char (c : ascii) :
  (code c =? code "+"%char) || (code c =? code "-"%char) = true ->
  (c = "+"%char \/ c = "-"%char)
  /\ infix_of c = Some (if code c =? code "-"%char then p_sub else p_add).
Proof.
  intros H. apply orb_prop in H as [H|H]; apply Z.eqb_eq in H;
    apply code_inj in H; subst c; split; auto.
Qed.

Lemma is_infix_record (st nx : string) (f : fnptr) (cx : Z)
    (lk : Datatypes.list te_variable) (ok : fnptr -> bool) :
  is_infix (mk_state st nx TOK_INFIX (Function f) cx lk) ok
  = if ok f then Some f else None.
Proof. reflexivity. Qed.

Lemma sign_of_cases (s : string) : sign_of s = 1 \/ sign_of s = - 1.
Proof.
  induction s as [|c s IH]; [now left|]. cbn [sign_of].
  destruct (code c =? code "-"%char); lia.
Qed.

(** The loop of [power] over a run of signs that a variable follows. *)
Lemma sign_loop_run (st : string) (cx : Z)
    (lk : Datatypes.list te_variable) (x rest : string) (var : te_variable) :
  identifier x = true -> ends_identifier rest = true ->
  find_lookup lk x (String.length x) = Some var ->
  TYPE_MASK (vtype var) = TE_VARIABLE ->
  forall signs c k sg,
    is_signs (String c signs) = true ->
    (String.length signs <= k)%nat ->
    sign_loop h (S k) sg
      (mk_state st (signs ++ x ++ rest) TOK_INFIX
         (Function (if code c =? code "-"%char then p_sub else p_add)) cx lk)
    = Some (sg * sign_of (String c signs),
            mk_state st rest TOK_VARIABLE (Bound (address var)) cx lk).
Proof.
  intros Hx Hrest Hfind Hm.
  induction signs as [|c' signs IH]; intros c k sg Hs Hk.
  - cbn [is_signs] in Hs. apply andb_prop in Hs as [Hc _].
    cbn [String.append sign_of].
    destruct (sign_char c Hc) as [[-> | ->] _].
    + change (code "+"%char =? code "-"%char) with false. cbv iota.
      cbn [sign_loop]. rewrite is_infix_record. cbn [fnptr_eqb orb].
      erewrite next_token_var by eassumption.
      rewrite sign_loop_stops by discriminate. do 2 f_equal; try lia.
    + change (code "-"%char =? code "-"%char) with true. cbv iota.
      cbn [sign_loop]. rewrite is_infix_record. cbn [fnptr_eqb orb].
      erewrite next_token_var by eassumption.
      rewrite sign_loop_stops by discriminate. do 2 f_equal; try lia.
  - cbn [is_signs] in Hs. apply andb_prop in Hs as [Hc Hs].
    pose proof Hs as Hs'. cbn [is_signs] in Hs'.
    apply andb_prop in Hs' as [Hc' _].
    destruct (sign_char c' Hc') as [_ Hop].
    cbn [String.length] in Hk. destruct k as [|k]; [lia|].
    cbn [String.append].
    assert (Hstep : forall f sg0,
              fnptr_eqb f p_add || fnptr_eqb f p_sub = true ->
              sign_loop h (S (S k)) sg0
                (mk_state st (String c' (signs ++ x ++ rest)) TOK_INFIX
                   (Function f) cx lk)
              = sign_loop h (S k) (if fnptr_eqb f p_sub then - sg0 else sg0)
                  (mk_state st (signs ++ x ++ rest) TOK_INFIX
                     (Function (if code c' =? code "-"%char
                                then p_sub else p_add)) cx lk)).
    { intros f sg0 Hf. cbn [sign_loop].
      rewrite is_infix_record, Hf.
      now rewrite (next_token_op h _ _ _ _ _ _ _ _ Hop). }
    destruct (sign_char c Hc) as [[-> | ->] _].
    + change (code "+"%char =? code "-"%char) with false. cbv iota.
      rewrite Hstep by reflexivity. rewrite IH by (auto; lia).
      do 2 f_equal; cbn [sign_of fnptr_eqb]; try lia.
    + change (code "-"%char =? code "-"%char) with true. cbv iota.
      rewrite Hstep by reflexivity. rewrite IH by (auto; lia).
      do 2 f_equal; cbn [sign_of fnptr_eqb];
        change (code "-"%char =? code "-"%char) with true; cbv iota;
        destruct (code c' =? code "-"%char); try lia.
Qed.

End Signs.

Section OneOperator.

Variable h : host.
Variables s0 i sz e : state.
Variable A : te_expr.
Variable az : Z.
Variable f : fnptr.
Variable n : nat.

Hypothesis Hpow : power h (S (S n)) s0 = Some (Some A, i).
Hypothesis Ti : stype i = TOK_INFIX.
Hypothesis Ui : su i = Function f.
Hypothesis Tz : stype sz = TOK_VARIABLE.
Hypothesis Uz : su sz = Bound az.
Hypothesis Te1 : stype e <> TOK_INFIX.
Hypothesis Te2 : stype e <> TOK_SEP.
Hypothesis Te3 : stype e <> TOK_OPEN_BRACKET.
Hypothesis Ni : next_token h i = sz.
Hypothesis Nz : next_token h sz = e.
Hypothesis Lf : (1 <= level f <= 3)%nat.
Hypothesis Pf : is_pow f = (level f =? 3)%nat.
Hypothesis Mf : is_term_op f = (level f =? 2)%nat.
Hypothesis Af : is_add_sub f = (level f =? 1)%nat.

Lemma one_power_z : power h (S (S n)) sz = Some (Some (variable_node az), e).
Proof.
  rewrite <- Nz. apply power_at_variable; auto. now rewrite Nz.
Qed.

Lemma one_accept_i ok : is_infix i ok = if ok f then Some f else None.
Proof. now apply is_infix_at. Qed.

Lemma one_accept_e ok : is_infix e ok = None.
Proof. now apply is_infix_none. Qed.

Ltac one_run Hz :=
  repeat first
    [ rewrite (binary_loop_stops h)
        by (cbv beta; rewrite ?one_accept_i, ?one_accept_e;
            rewrite ?Pf, ?Mf, ?Af; reflexivity)
    | erewrite (binary_loop_step h);
      [|cbv beta; rewrite ?one_accept_i, ?one_accept_e;
        rewrite ?Pf, ?Mf, ?Af; reflexivity
       |rewrite ?Ni; apply Hz] ];
  reflexivity.

Ltac one_level :=
  let H := fresh in
  assert (H : (level f = 1 \/ level f = 2 \/ level f = 3)%nat)
    by (clear - Lf; lia);
  destruct H as [H|[H|H]]; rewrite H in *;
  cbn [Nat.eqb Nat.leb Nat.ltb] in *.

Lemma one_factor_z :
  factor h (S (S (S n))) sz = Some (Some (variable_node az), e).
Proof.
  change (factor h (S (S (S n))) sz)
    with (chain h (power h (S (S n))) (power h (S (S n)))
            (fun s => is_infix s is_pow) (S (S n)) sz).
  rewrite (chain_first h _ _ _ _ _ _ _ one_power_z). one_run one_power_z.
Qed.

Lemma one_term_z :
  term h (S (S (S (S n)))) sz = Some (Some (variable_node az), e).
Proof.
  change (term h (S (S (S (S n)))) sz)
    with (chain h (factor h (S (S (S n)))) (factor h (S (S (S n))))
            (fun s => is_infix s is_term_op) (S (S (S n))) sz).
  rewrite (chain_first h _ _ _ _ _ _ _ one_factor_z). one_run one_factor_z.
Qed.

Lemma one_factor :
  factor h (S (S (S n))) s0
  = if (level f =? 3)%nat
    then Some (Some (binary_node f A (variable_node az)), e)
    else Some (Some A, i).
Proof.
  change (factor h (S (S (S n))) s0)
    with (chain h (power h (S (S n))) (power h (S (S n)))
            (fun s => is_infix s is_pow) (S (S n)) s0).
  rewrite (chain_first h _ _ _ _ _ _ _ Hpow).
  one_level; one_run one_power_z.
Qed.

Lemma one_term :
  term h (S (S (S (S n)))) s0
  = if (2 <=? level f)%nat
    then Some (Some (binary_node f A (variable_node az)), e)
    else Some (Some A, i).
Proof.
  change (term h (S (S (S (S n)))) s0)
    with (chain h (factor h (S (S (S n)))) (factor h (S (S (S n))))
            (fun s => is_infix s is_term_op) (S (S (S n))) s0).
  pose proof one_factor as H0.
  one_level; rewrite (chain_first h _ _ _ _ _ _ _ H0); one_run one_factor_z.
Qed.

Lemma one_expr :
  expr h (S (S (S (S (S n))))) s0
  = Some (Some (binary_node f A (variable_node az)), e).
Proof.
  change (expr h (S (S (S (S (S n))))) s0)
    with (chain h (term h (S (S (S (S n))))) (term h (S (S (S (S n)))))
            (fun s => is_infix s is_add_sub) (S (S (S (S n)))) s0).
  pose proof one_term as H0.
  one_level; rewrite (chain_first h _ _ _ _ _ _ _ H0); one_run one_term_z.
Qed.

Lemma one_list :
  list_ h (S (S (S (S (S (S n)))))) s0
  = Some (Some (binary_node f A (variable_node az)), e).
Proof.
  change (list_ h (S (S (S (S (S (S n)))))) s0)
    with (chain h (expr h (S (S (S (S (S n)))))) (expr h (S (S (S (S (S n))))))
            is_sep (S (S (S (S (S n))))) s0).
  rewrite (chain_first h _ _ _ _ _ _ _ one_expr).
  rewrite (binary_loop_stops h)
    by (now apply is_sep_none).
  reflexivity.
Qed.

End OneOperator.

(** A run of signs before the first operand of a binary operator
    applies to that operand alone, whatever the operator: the operand
    is negated when the run holds an odd number of [-] and is left as it
    is otherwise, and no sign is kept in the tree for a [+] or for a
    pair of [-].  So [-x^y] is [(-x)^y]. *)
Theorem signs_bind_first_operand (h : host) (signs x y : string)
    (c : ascii) (f : fnptr) (variables : Datatypes.list te_variable)
    (vx vy : te_variable) (w : world h) :
  is_signs signs = true ->
  identifier x = true -> identifier y = true ->
  find_lookup variables x (String.length x) = Some vx ->
  find_lookup variables y (String.length y) = Some vy ->
  TYPE_MASK (vtype vx) = TE_VARIABLE ->
  TYPE_MASK (vtype vy) = TE_VARIABLE ->
  infix_of c = Some f ->
  te_compile h (signs ++ x ++ String c y) variables w
  = Some (Some (binary_node f
                  (if sign_of signs =? 1
                   then variable_node (address vx)
                   else negate_node (variable_node (address vx)))
                  (variable_node (address vy))),
          0, w).
Proof.
  intros Hs Hx Hy Fx Fy Mx My Hop.
  set (e0 := (signs ++ x ++ String c y)%string).
  destruct (operator_level c f Hop) as (Lf & Pf & Mf & Af).
  set (sx := mk_state e0 (String c y) TOK_VARIABLE (Bound (address vx)) 0
               variables).
  set (i := mk_state e0 y TOK_INFIX (Function f) 0 variables).
  set (sy := mk_state e0 EmptyString TOK_VARIABLE (Bound (address vy)) 0
               variables).
  set (e := mk_state e0 EmptyString TOK_END (Bound (address vy)) 0 variables).
  set (A := if sign_of signs =? 1 then variable_node (address vx)
            else negate_node (variable_node (address vx))).
  assert (Hend : ends_identifier (String c y) = true)
    by (now apply (operator_ends_identifier c f)).
  assert (Nx : next_token h sx = i) by (now apply next_token_op).
  assert (Ni : next_token h i = sy).
  { unfold i. rewrite <- (append_empty y) at 1. now apply next_token_var. }
  assert (Nz : next_token h sy = e) by reflexivity.
  assert (Hbase : forall k, base h (S k) sx
                            = Some (Some (variable_node (address vx)), i)).
  { intros k. rewrite <- Nx. apply base_at_variable; try reflexivity.
    rewrite Nx. discriminate. }
  assert (Hpow : power h (S (S (6 * String.length e0)))
                   (first_state h e0 variables) = Some (Some A, i)).
  { unfold first_state, initial_state. unfold e0 at 3.
    destruct signs as [|c0 signs].
    - cbn [String.append]. erewrite next_token_var by eassumption.
      fold sx. rewrite <- Nx. unfold A. cbn [sign_of].
      change (1 =? 1) with true. cbv iota.
      apply power_at_variable; try reflexivity. rewrite Nx. discriminate.
    - pose proof Hs as Hs0. cbn [is_signs] in Hs0.
      apply andb_prop in Hs0 as [Hc0 _].
      destruct (sign_char c0 Hc0) as [_ Hop0].
      cbn [String.append].
      rewrite (next_token_op h _ _ _ _ _ _ _ _ Hop0).
      cbn [power].
      rewrite (sign_loop_run h e0 0 variables x (String c y) vx
                 Hx Hend Fx Mx signs c0 (6 * String.length e0) 1 Hs).
      + fold sx. rewrite Hbase. unfold A.
        replace (1 * sign_of (String c0 signs)) with (sign_of (String c0 signs))
          by lia.
        now destruct (sign_of (String c0 signs) =? 1).
      + unfold e0. cbn [String.append String.length].
        rewrite strlen_app. lia. }
  unfold te_compile. rewrite parse_fuel_split.
  change (5 + S (6 * String.length e0))%nat
    with (S (S (S (S (S (S (6 * String.length e0))))))).
  fold (first_state h e0 variables).
  rewrite (one_list h (first_state h e0 variables) i sy e A (address vy) f
             (6 * String.length e0) Hpow)
    by (assumption || reflexivity || discriminate).
  unfold A. destruct (sign_of signs =? 1); reflexivity.
Qed.

Lemma signs_bind_first_operand_witness :
  te_compile example_host "-arr1^arr2"%string example_vars example_memory
  = Some (Some (binary_node (p_libm m_pow)
                  (negate_node (variable_node 10)) (variable_node 20)),
          0, example_memory)
  /\ te_compile example_host "--+arr1*arr2"%string example_vars
       example_memory
     = Some (Some (binary_node p_mul (variable_node 10) (variable_node 20)),
             0, example_memory).
Proof.
  split.
  - exact (signs_bind_first_operand example_host "-"%string "arr1"%string
             "arr2"%string "^"%char (p_libm m_pow) example_vars
             (mk_var "arr1"%string 10 TE_VARIABLE 0)
             (mk_var "arr2"%string 20 TE_VARIABLE 0) example_memory
             eq_refl eq_refl eq_refl eq_refl eq_refl eq_refl eq_refl eq_refl).
  - exact (signs_bind_first_operand example_host "--+"%string "arr1"%string
             "arr2"%string "*"%char p_mul example_vars
             (mk_var "arr1"%string 10 TE_VARIABLE 0)
             (mk_var "arr2"%string 20 TE_VARIABLE 0) example_memory
             eq_refl eq_refl eq_refl eq_refl eq_refl eq_refl eq_refl eq_refl).
Defined.

(** ** Parentheses *)

Lemma base_at_open (h : host) (k : nat) (s s1 : state) (ret : te_expr) :
  stype s = TOK_OPEN ->
  list_ h k (next_token h s) = Some (Some ret, s1) ->
  stype s1 = TOK_CLOSE ->
  base h (S k) s = Some (Some ret, next_token h s1).
Proof.
  intros Hs Hl Hc. cbn [base]. rewrite Hs.
  change (TYPE_MASK TOK_OPEN =? TOK_NUMBER) with false.
  change (TYPE_MASK TOK_OPEN =? TOK_VARIABLE) with false.
  change ((TYPE_MASK TOK_OPEN =? TE_FUNCTION 0)
          || (TYPE_MASK TOK_OPEN =? TE_CLOSURE 0)) with false.
  change ((TYPE_MASK TOK_OPEN =? TE_FUNCTION 1)
          || (TYPE_MASK TOK_OPEN =? TE_CLOSURE 1)) with false.
  change ((TE_FUNCTION 2 <=? TYPE_MASK TOK_OPEN)
          && (TYPE_MASK TOK_OPEN <=? TE_FUNCTION 7)
          || (TE_CLOSURE 2 <=? TYPE_MASK TOK_OPEN)
             && (TYPE_MASK TOK_OPEN <=? TE_CLOSURE 7)) with false.
  change (TYPE_MASK TOK_OPEN =? TOK_OPEN) with true. cbv iota.
  rewrite Hl, Hc. reflexivity.
Qed.

Lemma power_at_open (h : host) (k : nat) (s s1 : state) (ret : te_expr) :
  stype s = TOK_OPEN ->
  list_ h k (next_token h s) = Some (Some ret, s1) ->
  stype s1 = TOK_CLOSE ->
  power h (S (S k)) s = Some (Some ret, next_token h s1).
Proof.
  intros Hs Hl Hc. cbn [power].
  rewrite sign_loop_stops by (rewrite Hs; discriminate).
  change (1 =? 1) with true. cbv iota. now apply base_at_open.
Qed.

(** Parentheses group whatever the levels of the operators: the
    operator inside is applied first, and the tree keeps no node for
    the parentheses. *)
Theorem parentheses_group (h : host) (x y z : string) (c1 c2 : ascii)
    (f1 f2 : fnptr) (variables : Datatypes.list te_variable)
    (vx vy vz : te_variable) (w : world h) :
  identifier x = true -> identifier y = true -> identifier z = true ->
  find_lookup variables x (String.length x) = Some vx ->
  find_lookup variables y (String.length y) = Some vy ->
  find_lookup variables z (String.length z) = Some vz ->
  TYPE_MASK (vtype vx) = TE_VARIABLE ->
  TYPE_MASK (vtype vy) = TE_VARIABLE ->
  TYPE_MASK (vtype vz) = TE_VARIABLE ->
  infix_of c1 = Some f1 -> infix_of c2 = Some f2 ->
  te_compile h
    (String "(" (x ++ String c1 (y ++ String ")" (String c2 z))))
    variables w
  = Some (Some (binary_node f2
                  (binary_node f1 (variable_node (address vx))
                     (variable_node (address vy)))
                  (variable_node (address vz))),
          0, w).
Proof.
  intros Hx Hy Hz Fx Fy Fz Mx My Mz O1 O2.
  set (inner := (x ++ String c1 (y ++ String ")" (String c2 z)))%string).
  set (e0 := String "(" inner).
  destruct (operator_level c1 f1 O1) as (L1 & P1 & T1 & A1).
  destruct (operator_level c2 f2 O2) as (L2 & P2 & T2 & A2).
  set (o := mk_state e0 inner TOK_OPEN (Bound 0) 0 variables).
  set (sx := mk_state e0 (String c1 (y ++ String ")" (String c2 z)))
               TOK_VARIABLE (Bound (address vx)) 0 variables).
  set (i1 := mk_state e0 (y ++ String ")" (String c2 z)) TOK_INFIX
               (Function f1) 0 variables).
  set (sy := mk_state e0 (String ")" (String c2 z)) TOK_VARIABLE
               (Bound (address vy)) 0 variables).
  set (cl := mk_state e0 (String c2 z) TOK_CLOSE (Bound (address vy)) 0
               variables).
  set (i2 := mk_state e0 z TOK_INFIX (Function f2) 0 variables).
  set (sz := mk_state e0 EmptyString TOK_VARIABLE (Bound (address vz)) 0
               variables).
  set (e := mk_state e0 EmptyString TOK_END (Bound (address vz)) 0 variables).
  assert (Hfirst : first_state h e0 variables = o) by reflexivity.
  assert (No : next_token h o = sx).
  { apply next_token_var; auto. now apply (operator_ends_identifier c1 f1). }
  assert (Nx : next_token h sx = i1) by (now apply next_token_op).
  assert (N1 : next_token h i1 = sy) by (now apply next_token_var).
  assert (Ny : next_token h sy = cl) by reflexivity.
  assert (Nc : next_token h cl = i2) by (now apply next_token_op).
  assert (N2 : next_token h i2 = sz).
  { unfold i2. rewrite <- (append_empty z) at 1. now apply next_token_var. }
  assert (Nz : next_token h sz = e) by reflexivity.
  set (n0 := (6 * String.length inner)%nat).
  assert (Hinner : list_ h (S (S (S (S (S (S n0)))))) sx
                   = Some (Some (binary_node f1 (variable_node (address vx))
                                   (variable_node (address vy))), cl)).
  { apply (one_list h sx i1 sy cl _ (address vy) f1 n0);
      try assumption; try reflexivity; try discriminate.
    rewrite <- Nx. apply power_at_variable; try reflexivity.
    rewrite Nx. discriminate. }
  assert (Hpow : power h (S (S (S (S (S (S (S (S n0)))))))) o
                 = Some (Some (binary_node f1 (variable_node (address vx))
                                 (variable_node (address vy))), i2)).
  { rewrite <- Nc. apply power_at_open; [reflexivity| |reflexivity].
    rewrite No. exact Hinner. }
  unfold te_compile. fold (first_state h e0 variables). rewrite Hfirst.
  replace (parse_fuel e0)
    with (S (S (S (S (S (S (S (S (S (S (S (S n0))))))))))))
    by (unfold parse_fuel, e0, n0; cbn [String.length]; lia).
  rewrite (one_list h o i2 sz e _ (address vz) f2 _ Hpow)
    by (assumption || reflexivity || discriminate).
  reflexivity.
Qed.

Lemma parentheses_group_witness :
  te_compile example_host "(arr1+arr2)*gaps"%string example_vars
    example_memory
  = Some (Some (binary_node p_mul
                  (binary_node p_add (variable_node 10) (variable_node 20))
                  (variable_node 40)),
          0, example_memory).
Proof.
  exact (parentheses_group example_host "arr1"%string "arr2"%string
           "gaps"%string "+"%char "*"%char p_add p_mul example_vars
           (mk_var "arr1"%string 10 TE_VARIABLE 0)
           (mk_var "arr2"%string 20 TE_VARIABLE 0)
           (mk_var "gaps"%string 40 TE_VARIABLE 0) example_memory
           eq_refl eq_refl eq_refl eq_refl eq_refl eq_refl
           eq_refl eq_refl eq_refl eq_refl eq_refl).
Defined.

(** ** Calls of one argument *)

Section OneArgument.

Variable h : host.

Lemma base_call1 (k : nat) (s : state) :
  TYPE_MASK (stype s) = TE_FUNCTION 1 \/ TYPE_MASK (stype s) = TE_CLOSURE 1 ->
  base h (S k) s
  = match power h k (next_token h s) with
    | None => None
    | Some (None, s') => Some (None, s')
    | Some (Some p, s') => Some (Some (with_parameters (call_node s) [p]), s')
    end.
Proof. intros Hm. cbn [base]. cbv zeta. destruct Hm as [E|E]; now rewrite E. Qed.

Lemma optimize_call_of_variable (ty : Z) (fn : fnptr) (a cx : Z)
    (w : world h) :
  TYPE_MASK ty = TE_FUNCTION 1 \/ TYPE_MASK ty = TE_CLOSURE 1 ->
  optimize h (mk_expr ty (Function fn) [variable_node a] cx) w
  = (mk_expr ty (Function fn) [variable_node a] cx, w).
Proof.
  intros Hm. rewrite optimize_unfold. cbv zeta.
  assert (Hc : (ty =? TE_CONSTANT) = false)
    by (apply Z.eqb_neq; intros E; rewrite E in Hm; destruct Hm; discriminate).
  assert (Hv : (ty =? TE_VARIABLE) = false)
    by (apply Z.eqb_neq; intros E; rewrite E in Hm; destruct Hm; discriminate).
  rewrite Hc, Hv. destruct (IS_PURE ty); [|reflexivity].
  rewrite (ARITY_of_call ty)
    by (destruct Hm as [E|E]; rewrite E; vm_compute; split; discriminate).
  destruct Hm as [E|E]; rewrite E; reflexivity.
Qed.

End OneArgument.

(** The argument of a function or closure of one argument is the next
    operand, in parentheses or not: [f x] and [f(x)] compile to the same
    call. *)
Theorem unary_call_forms (h : host) (f x : string)
    (variables : Datatypes.list te_variable) (sym : symbol)
    (vx : te_variable) (w : world h) :
  identifier f = true -> identifier x = true ->
  resolve variables f (String.length f) = Some sym ->
  TYPE_MASK (sym_type sym) = TE_FUNCTION 1
  \/ TYPE_MASK (sym_type sym) = TE_CLOSURE 1 ->
  find_lookup variables x (String.length x) = Some vx ->
  TYPE_MASK (vtype vx) = TE_VARIABLE ->
  let call :=
    mk_expr (sym_type sym) (Function (sym_function sym))
      [variable_node (address vx)]
      (if IS_CLOSURE (sym_type sym) then sym_context sym else 0) in
  te_compile h (f ++ String " " x) variables w = Some (Some call, 0, w)
  /\ te_compile h (f ++ String "(" (x ++ ")"%string)) variables w
     = Some (Some call, 0, w).
Proof.
  intros Hf Hx Hres Hm Fx Mx call.
  set (ctx := if IS_CLOSURE (sym_type sym) then sym_context sym else 0).
  assert (Hfirst : forall rest, ends_identifier rest = true ->
            first_state h (f ++ rest) variables
            = mk_state (f ++ rest) rest (sym_type sym)
                (Function (sym_function sym)) ctx variables).
  { intros rest Hrest.
    pose proof (first_state_name h f rest variables Hf Hrest) as H1.
    cbv zeta in H1. rewrite Hres in H1. unfold ctx.
    destruct Hm as [E|E]; rewrite E in H1.
    - rewrite (IS_CLOSURE_of_function (sym_type sym))
        by (rewrite E; vm_compute; split; discriminate).
      apply H1. cbn. intros Habs. rewrite Habs in E. discriminate.
    - rewrite (IS_CLOSURE_of_closure (sym_type sym))
        by (rewrite E; vm_compute; split; discriminate).
      apply H1. cbn. intros Habs. rewrite Habs in E. discriminate. }
  assert (Hni : sym_type sym <> TOK_INFIX)
    by (intros Habs; rewrite Habs in Hm; destruct Hm; discriminate).
  assert (Hcall : forall e0 rest,
            with_parameters
              (call_node (mk_state e0 rest (sym_type sym)
                            (Function (sym_function sym)) ctx variables))
              [variable_node (address vx)] = call).
  { intros e0 rest. rewrite call_node_record. unfold call, ctx.
    now destruct (IS_CLOSURE (sym_type sym)). }
  assert (Hopt : optimize h call w = (call, w))
    by (now apply optimize_call_of_variable).
  split.
  - set (e0 := (f ++ String " " x)%string).
    set (sf := mk_state e0 (String " " x) (sym_type sym)
                 (Function (sym_function sym)) ctx variables).
    set (sx := mk_state e0 EmptyString TOK_VARIABLE (Bound (address vx)) ctx
                 variables).
    assert (Nf : next_token h sf = sx).
    { unfold sf.
      change (mk_state e0 (String " " x) (sym_type sym)
                (Function (sym_function sym)) ctx variables)
        with (set_next (mk_state e0 x (sym_type sym)
                          (Function (sym_function sym)) ctx variables)
                (String " " x)).
      rewrite next_token_skips_one by reflexivity.
      cbn [set_next start stype su scontext lookup].
      pose proof (next_token_var h e0 x EmptyString (sym_type sym)
                    (Function (sym_function sym)) ctx variables vx
                    Hx eq_refl Fx Mx) as Hv.
      rewrite append_empty in Hv. exact Hv. }
    set (n0 := (6 * String.length e0 - 2)%nat).
    assert (Hbase : base h (S (S (S n0))) sf
                    = Some (Some call, set_type sx TOK_END)).
    { rewrite base_call1 by exact Hm. rewrite Nf.
      rewrite (power_at_variable h _ sx (address vx) eq_refl eq_refl)
        by discriminate.
      unfold sf. now rewrite Hcall. }
    unfold te_compile. fold (first_state h e0 variables).
    unfold e0 at 2. rewrite (Hfirst (String " " x) eq_refl). fold e0 sf.
    replace (parse_fuel e0) with (5 + S (S (S n0)))%nat.
    2:{ unfold parse_fuel, n0, e0. rewrite strlen_app.
        destruct (identifier_parts f Hf) as (c & r & -> & _).
        cbn [String.length]. lia. }
    rewrite (list__of_base h _ sf (Some call) (set_type sx TOK_END));
      try discriminate; try assumption.
    cbn [stype set_type negb]. change (TOK_END =? TOK_END) with true.
    cbn [negb]. now rewrite Hopt.
  - set (e0 := (f ++ String "(" (x ++ ")"%string))%string).
    set (sf := mk_state e0 (String "(" (x ++ ")"%string)) (sym_type sym)
                 (Function (sym_function sym)) ctx variables).
    set (o := mk_state e0 (x ++ ")"%string) TOK_OPEN
                (Function (sym_function sym)) ctx variables).
    set (sx := mk_state e0 ")"%string TOK_VARIABLE (Bound (address vx)) ctx
                 variables).
    set (cl := mk_state e0 EmptyString TOK_CLOSE (Bound (address vx)) ctx
                 variables).
    assert (Nf : next_token h sf = o) by reflexivity.
    assert (No : next_token h o = sx) by (now apply next_token_var).
    assert (Nx : next_token h sx = cl) by reflexivity.
    set (n0 := (6 * String.length e0 - 8)%nat).
    assert (Hinner : list_ h (5 + S n0) sx
                     = Some (Some (variable_node (address vx)), cl)).
    { apply list__of_base; try discriminate.
      rewrite <- Nx. apply base_at_variable; try reflexivity.
      rewrite Nx. discriminate. }
    assert (Hbase : base h (S (S (S (5 + S n0)))) sf
                    = Some (Some call, set_type cl TOK_END)).
    { rewrite base_call1 by exact Hm. rewrite Nf.
      rewrite (power_at_open h _ o cl (variable_node (address vx)) eq_refl)
        by (try reflexivity; rewrite No; exact Hinner).
      unfold sf. now rewrite Hcall. }
    unfold te_compile. fold (first_state h e0 variables).
    unfold e0 at 2. rewrite (Hfirst (String "(" (x ++ ")"%string)) eq_refl).
    fold e0 sf.
    replace (parse_fuel e0) with (5 + S (S (S (5 + S n0))))%nat.
    2:{ unfold parse_fuel, n0, e0. rewrite strlen_app.
        destruct (identifier_parts f Hf) as (c & r & -> & _).
        destruct (identifier_parts x Hx) as (c' & r' & -> & _).
        cbn [String.length String.append]. rewrite ?strlen_app.
        cbn [String.length]. lia. }
    rewrite (list__of_base h _ sf (Some call) (set_type cl TOK_END));
      try discriminate; try assumption.
    cbn [stype set_type negb]. change (TOK_END =? TOK_END) with true.
    cbn [negb]. now rewrite Hopt.
Qed.

Lemma unary_call_forms_witness :
  te_compile example_host "sum arr1"%string example_vars example_memory
  = Some (Some (builtin_call1 p_te_sum (variable_node 10)), 0, example_memory)
  /\ te_compile example_host "sum(arr1)"%string example_vars example_memory
     = Some (Some (builtin_call1 p_te_sum (variable_node 10)), 0,
             example_memory).
Proof.
  exact (unary_call_forms example_host "sum"%string "arr1"%string
           example_vars
           (symbol_of_builtin
              (mk_builtin "sum"%string p_te_sum
                 (Z.lor (TE_FUNCTION 1) TE_FLAG_PURE)))
           (mk_var "arr1"%string 10 TE_VARIABLE 0) example_memory
           eq_refl eq_refl eq_refl (or_introl eq_refl) eq_refl eq_refl).
Defined.

(** ** The one-call interface *)

(** [te_interp] returns on every input and leaves the caller's state as
    it was.  Its value and the error it reports do not depend on that
    state, and the value is NaN whenever an error is reported. *)
Theorem te_interp_reports (h : host) (expression : string) (w : world h) :
  exists v error,
    te_interp h expression w = Some (v, error, w)
    /\ (error <> 0 -> v = D.NAN)
    /\ (forall w2, te_interp h expression w2 = Some (v, error, w2)).
Proof.
  unfold te_interp, te_compile. fold (first_state h expression []).
  pose proof (list__total h expression []) as Htotal.
  destruct (list_ h (parse_fuel expression) (first_state h expression []))
    as [[[root|] s]|] eqn:Hparse; [| |contradiction].
  2:{ exists D.NAN, (-1). repeat split. }
  destruct (Z.eqb_spec (stype s) TOK_END) as [Hend|Hend]; cbn [negb].
  2:{ eexists. eexists. repeat split. }
  pose proof (list__built h expression [] root s Hparse Hend) as Hb.
  assert (Hconst : purely_constant []) by (intros var []).
  assert (Hpure : purity_honoured h []) by (intros var []).
  pose proof (built_folds_to_constant h [] root Hconst Hb) as Hfold.
  pose proof (optimize_stateless h root (built_flag_on_call [] root Hb)
                (built_flag_honoured h [] root Hpure Hb)) as Hst.
  exists (value (fst (optimize h root w))), 0.
  assert (Hrun : forall w2,
            (let (root', w') := optimize h root w2 in
             let (ret, w'') := te_eval h root' w' in Some (ret, 0, w''))
            = Some (value (fst (optimize h root w)), 0, w2)).
  { intros w2. rewrite (Hst w2 w).
    destruct (Hfold w) as [Hty _].
    rewrite (te_eval_of_constant h _ w2 Hty). reflexivity. }
  split; [|split].
  - specialize (Hrun w). destruct (optimize h root w) as [root' w'].
    exact Hrun.
  - intros Habs. now contradiction Habs.
  - intros w2. specialize (Hrun w2).
    destruct (optimize h root w2) as [root' w']. exact Hrun.
Qed.
